(** * PixelBoost image editor: a shallow embedding of the editing core

    The development follows the sources of the repository:
    - [utils/imageProcessing] (pixel filters, convolution, upscaling,
      the [applyAdjustments] compositor, [rotate90]),
    - [hooks/useCropSelection] (the crop selection state machine),
    - [components/ImageEnhancementControls] (the slider control surface),
    - [components/ImageComparison] (the committing crop handler),
    - [hooks/useQueries] (the chunked upload client),
    - [backend/main.mo] (the chunked upload actor).

    Numbers.  A JavaScript [number] is modelled by [number] below: a
    rational kept in lowest terms, or one of [Infinity], [-Infinity],
    [NaN].  Arithmetic on finite values is exact (binary rounding of
    IEEE doubles and the sign of zero are not represented); division by
    zero, and every operation on the non-finite values, behaves as in
    JavaScript. *)

From Stdlib Require Import QArith Qround ZArith Lia Lqa.
From stdpp Require Import base option list list_numbers strings gmap pretty.

Local Open Scope Z_scope.

(* ===================================================================== *)
(** ** JavaScript numbers *)
(* ===================================================================== *)

Module JS.

Inductive number : Type :=
| Fin (q : Q)
| PosInf
| NegInf
| NaN.

Definition of_Z (z : Z) : number := Fin (inject_Z z).

(** The literal [0.5]. *)
Definition half : number := Fin (1 # 2).

Definition Qlt_bool (a b : Q) : bool := negb (Qle_bool b a).

(** Sign of a rational, as a comparison with zero. *)
Definition Qsgn (q : Q) : comparison := (q ?= 0)%Q.

Definition neg (a : number) : number :=
  match a with
  | Fin q => Fin (Qred (- q))
  | PosInf => NegInf
  | NegInf => PosInf
  | NaN => NaN
  end.

Definition add (a b : number) : number :=
  match a, b with
  | NaN, _ | _, NaN => NaN
  | Fin p, Fin q => Fin (Qred (p + q))
  | PosInf, NegInf | NegInf, PosInf => NaN
  | PosInf, _ | _, PosInf => PosInf
  | NegInf, _ | _, NegInf => NegInf
  end.

Definition sub (a b : number) : number := add a (neg b).

(** An infinity of the sign of [c], scaled by an infinity of sign [pos]. *)
Definition inf_of_sign (c : comparison) (pos : bool) : number :=
  match c with
  | Eq => NaN
  | Gt => if pos then PosInf else NegInf
  | Lt => if pos then NegInf else PosInf
  end.

Definition mul (a b : number) : number :=
  match a, b with
  | NaN, _ | _, NaN => NaN
  | Fin p, Fin q => Fin (Qred (p * q))
  | Fin p, PosInf | PosInf, Fin p => inf_of_sign (Qsgn p) true
  | Fin p, NegInf | NegInf, Fin p => inf_of_sign (Qsgn p) false
  | PosInf, PosInf | NegInf, NegInf => PosInf
  | PosInf, NegInf | NegInf, PosInf => NegInf
  end.

Definition div (a b : number) : number :=
  match a, b with
  | NaN, _ | _, NaN => NaN
  | Fin p, Fin q =>
      if Qeq_bool q 0 then inf_of_sign (Qsgn p) true
      else Fin (Qred (p / q))
  | Fin _, (PosInf | NegInf) => Fin 0
  | PosInf, Fin q => if Qlt_bool q 0 then NegInf else PosInf
  | NegInf, Fin q => if Qlt_bool q 0 then PosInf else NegInf
  | (PosInf | NegInf), (PosInf | NegInf) => NaN
  end.

(** [a < b]; every comparison with [NaN] is false. *)
Definition lt (a b : number) : bool :=
  match a, b with
  | NaN, _ | _, NaN => false
  | Fin p, Fin q => Qlt_bool p q
  | NegInf, NegInf => false
  | NegInf, _ => true
  | _, NegInf => false
  | PosInf, _ => false
  | Fin _, PosInf => true
  end.

Definition gt (a b : number) : bool := lt b a.

(** [a <= b] *)
Definition le (a b : number) : bool :=
  match a, b with
  | NaN, _ | _, NaN => false
  | Fin p, Fin q => Qle_bool p q
  | NegInf, _ => true
  | _, PosInf => true
  | _, NegInf => false
  | PosInf, _ => false
  end.

(** Strict equality [a === b] on numbers. *)
Definition eqb (a b : number) : bool :=
  match a, b with
  | Fin p, Fin q => Qeq_bool p q
  | PosInf, PosInf | NegInf, NegInf => true
  | _, _ => false
  end.

(** Truthiness of a number: [0] and [NaN] are falsy. *)
Definition truthy (a : number) : bool :=
  match a with
  | Fin q => negb (Qeq_bool q 0)
  | NaN => false
  | _ => true
  end.

(** [a || b] on numbers. *)
Definition or (a b : number) : number := if truthy a then a else b.

Definition Math_max (a b : number) : number :=
  match a, b with
  | NaN, _ | _, NaN => NaN
  | _, _ => if lt a b then b else a
  end.

Definition Math_min (a b : number) : number :=
  match a, b with
  | NaN, _ | _, NaN => NaN
  | _, _ => if lt b a then b else a
  end.

Definition Math_abs (a : number) : number :=
  match a with
  | Fin q => if Qlt_bool q 0 then Fin (Qred (- q)) else Fin q
  | PosInf | NegInf => PosInf
  | NaN => NaN
  end.

(** [Math.round]: the nearest integer, ties towards [+Infinity]. *)
Definition Math_round (a : number) : number :=
  match a with
  | Fin q => Fin (inject_Z (Qfloor (q + (1 # 2))))
  | _ => a
  end.

(** The integer a finite number rounds half-to-even to. *)
Definition round_half_even (q : Q) : Z :=
  let f := Qfloor q in
  match (q - inject_Z f ?= 1 # 2)%Q with
  | Lt => f
  | Gt => f + 1
  | Eq => if Z.even f then f else f + 1
  end.

(** Conversion performed by a store into a [Uint8ClampedArray]. *)
Definition ToUint8Clamp (a : number) : Z :=
  match a with
  | NaN => 0
  | PosInf => 255
  | NegInf => 0
  | Fin q =>
      if Qle_bool q 0 then 0
      else if Qle_bool 255 q then 255
      else round_half_even q
  end.

(** Conversion performed by a store into an [unsigned long] attribute
    holding a pixel count ([canvas.width], [canvas.height]) for the
    values the editor produces: non-negative integers. Other values
    give an empty dimension. *)
Definition to_dimension (a : number) : Z :=
  match a with
  | Fin q => Z.max 0 (Qfloor q)
  | _ => 0
  end.

Definition is_finite (a : number) : Prop :=
  match a with Fin _ => True | _ => False end.

End JS.

Declare Scope js_scope.
Delimit Scope js_scope with js.
Bind Scope js_scope with JS.number.
Infix "+" := JS.add : js_scope.
Infix "-" := JS.sub : js_scope.
Infix "*" := JS.mul : js_scope.
Infix "/" := JS.div : js_scope.
Infix "<?" := JS.lt : js_scope.
Infix "<=?" := JS.le : js_scope.
Infix ">?" := JS.gt : js_scope.
Infix "===" := JS.eqb (at level 70, no associativity) : js_scope.
Infix "||" := JS.or : js_scope.

(** Integer literals in [js_scope] denote numbers. *)
Definition number_to_Z (a : JS.number) : option Z :=
  match a with
  | JS.Fin (Qmake z 1) => Some z
  | _ => None
  end.
Number Notation JS.number JS.of_Z number_to_Z : js_scope.

Local Open Scope js_scope.

(* ===================================================================== *)
(** ** hooks/useCropSelection: the crop selection state machine *)
(* ===================================================================== *)

(** [CropRect] of utils/imageProcessing. *)
Record CropRect : Type := mkCropRect {
  x : JS.number;
  y : JS.number;
  w : JS.number;
  h : JS.number
}.

Module Crop.

(** A point in display coordinates, as [getRelativePos] returns it. *)
Record Pos : Type := mkPos { pos_x : JS.number; pos_y : JS.number }.

(** What the hook reads of the element behind [overlayRef]: the origin of
    its bounding client rectangle. *)
Record HTMLElement : Type := mkElement {
  bounds_left : JS.number;
  bounds_top : JS.number
}.

Record Touch : Type := mkTouch {
  touch_clientX : JS.number;
  touch_clientY : JS.number
}.

(** The two event shapes [getRelativePos] distinguishes with
    ['touches' in e]. *)
Inductive PointerEvent : Type :=
| MouseEvent (clientX clientY : JS.number)
| TouchEvent (touches : list Touch).

(** The hook's state cells ([useState]) and refs ([useRef]).  The first
    three fields are the [CropSelectionState] of the source. *)
Record State : Type := mkState {
  isActive : bool;
  rect : option CropRect;
  isDragging : bool;
  startRef : option Pos;
  overlayRef : option HTMLElement
}.

(** The state a freshly mounted hook starts from. *)
Definition initial : State :=
  {| isActive := false; rect := None; isDragging := false;
     startRef := None; overlayRef := None |}.

(** Mounting (or unmounting) the element that carries [overlayRef]. *)
Definition attachOverlay (el : option HTMLElement) (s : State) : State :=
  {| isActive := isActive s; rect := rect s; isDragging := isDragging s;
     startRef := startRef s; overlayRef := el |}.

Section Hook.

(** The arguments of [useCropSelection]. *)
Variables canvasDisplayWidth canvasDisplayHeight : JS.number.
Variables imageNaturalWidth imageNaturalHeight : JS.number.

(** Scale factor from display pixels to image pixels. *)
Definition scaleX : JS.number :=
  imageNaturalWidth / (canvasDisplayWidth || 1).
Definition scaleY : JS.number :=
  imageNaturalHeight / (canvasDisplayHeight || 1).

(** [getRelativePos]; [None] stands for the [TypeError] raised by
    [e.touches[0].clientX] on an empty touch list. *)
Definition getRelativePos (e : PointerEvent) (el : HTMLElement) : option Pos :=
  match
    match e with
    | TouchEvent touches =>
        match touches with
        | t :: _ => Some (touch_clientX t, touch_clientY t)
        | [] => None
        end
    | MouseEvent clientX clientY => Some (clientX, clientY)
    end
  with
  | Some (clientX, clientY) =>
      Some {| pos_x := JS.Math_max 0
                         (JS.Math_min canvasDisplayWidth (clientX - bounds_left el));
              pos_y := JS.Math_max 0
                         (JS.Math_min canvasDisplayHeight (clientY - bounds_top el)) |}
  | None => None
  end.

Definition handleMouseDown (e : PointerEvent) (s : State) : State :=
  match isActive s, overlayRef s with
  | true, Some el =>
      match getRelativePos e el with
      | Some pos =>
          {| isActive := isActive s;
             rect := Some {| x := pos_x pos * scaleX; y := pos_y pos * scaleY;
                             w := 0; h := 0 |};
             isDragging := true;
             startRef := Some pos;
             overlayRef := overlayRef s |}
      | None => s
      end
  | _, _ => s
  end.

Definition handleMouseMove (e : PointerEvent) (s : State) : State :=
  match isDragging s, startRef s, overlayRef s with
  | true, Some start, Some el =>
      match getRelativePos e el with
      | Some pos =>
          let x := JS.Math_min (pos_x start) (pos_x pos) in
          let y := JS.Math_min (pos_y start) (pos_y pos) in
          let w := JS.Math_abs (pos_x pos - pos_x start) in
          let h := JS.Math_abs (pos_y pos - pos_y start) in
          {| isActive := isActive s;
             rect := Some {| x := x * scaleX; y := y * scaleY;
                             w := w * scaleX; h := h * scaleY |};
             isDragging := isDragging s;
             startRef := startRef s;
             overlayRef := overlayRef s |}
      | None => s
      end
  | _, _, _ => s
  end.

Definition handleMouseUp (s : State) : State :=
  {| isActive := isActive s; rect := rect s; isDragging := false;
     startRef := startRef s; overlayRef := overlayRef s |}.

Definition activateCrop (s : State) : State :=
  {| isActive := true; rect := None; isDragging := isDragging s;
     startRef := startRef s; overlayRef := overlayRef s |}.

Definition cancelCrop (s : State) : State :=
  {| isActive := false; rect := None; isDragging := false;
     startRef := None; overlayRef := overlayRef s |}.

(** [confirmCrop]: the returned value and the state after the call. *)
Definition confirmCrop (s : State) : option CropRect * State :=
  match rect s with
  | None => (None, s)
  | Some r =>
      if (w r <? 4) then (None, s)
      else if (h r <? 4) then (None, s)
      else (Some r,
            {| isActive := false; rect := rect s; isDragging := false;
               startRef := None; overlayRef := overlayRef s |})
  end.

(** Display rect in overlay coordinates (display pixels). *)
Definition displayRect (s : State) : option CropRect :=
  match rect s with
  | Some r => Some {| x := x r / scaleX; y := y r / scaleY;
                      w := w r / scaleX; h := h r / scaleY |}
  | None => None
  end.

End Hook.

(** The three states of the selection machine, read off a [State]. *)
Inductive Phase : Type := Inert | Active | Dragging.

Definition phase (s : State) : Phase :=
  if isActive s then (if isDragging s then Dragging else Active) else Inert.

End Crop.

(** The drag of the concrete scenario of the specification: a 100x100
    display of a 200x200 image, crop activated, pointer down at display
    point (10,10), moved to (2,2), released.  [el] is the element that
    carries [overlayRef]; client coordinates are relative to the viewport. *)
Definition drag_10_10_to_2_2 (el : Crop.HTMLElement) : Crop.State :=
  let s0 := Crop.attachOverlay (Some el) Crop.initial in
  let s1 := Crop.activateCrop s0 in
  let down := Crop.MouseEvent (10 + Crop.bounds_left el) (10 + Crop.bounds_top el) in
  let move := Crop.MouseEvent (2 + Crop.bounds_left el) (2 + Crop.bounds_top el) in
  let s2 := Crop.handleMouseDown 100 100 200 200 down s1 in
  let s3 := Crop.handleMouseMove 100 100 200 200 move s2 in
  Crop.handleMouseUp s3.

(* ===================================================================== *)
(** ** components/ImageEnhancementControls: the control surface *)
(* ===================================================================== *)

Record EnhancementValues : Type := mkValues {
  brightness : JS.number;      (* -100 to +100, default 0 *)
  contrast : JS.number;        (* -100 to +100, default 0 *)
  saturation : JS.number;      (* 0 to 200, default 100 *)
  sharpness : JS.number;       (* 0 to 100, default 0 *)
  noiseReduction : JS.number;  (* 0 to 100, default 0 *)
  rotation : JS.number         (* -45 to +45, default 0 *)
}.

Definition DEFAULT_ENHANCEMENT_VALUES : EnhancementValues :=
  {| brightness := 0; contrast := 0; saturation := 100;
     sharpness := 0; noiseReduction := 0; rotation := 0 |}.

Module Controls.

(** [keyof EnhancementValues] *)
Inductive Key : Type :=
| Brightness | Contrast | Saturation | Sharpness | NoiseReduction | Rotation.

#[global] Instance Key_eq_dec : EqDecision Key.
Proof. solve_decision. Defined.

Definition get (values : EnhancementValues) (key : Key) : JS.number :=
  match key with
  | Brightness => brightness values
  | Contrast => contrast values
  | Saturation => saturation values
  | Sharpness => sharpness values
  | NoiseReduction => noiseReduction values
  | Rotation => rotation values
  end.

(** [set(key)(v)]: the record handed to [onChange], that is
    [{ ...values, [key]: v }]. *)
Definition set (values : EnhancementValues) (key : Key) (v : JS.number)
  : EnhancementValues :=
  match key with
  | Brightness =>
      {| brightness := v; contrast := contrast values;
         saturation := saturation values; sharpness := sharpness values;
         noiseReduction := noiseReduction values; rotation := rotation values |}
  | Contrast =>
      {| brightness := brightness values; contrast := v;
         saturation := saturation values; sharpness := sharpness values;
         noiseReduction := noiseReduction values; rotation := rotation values |}
  | Saturation =>
      {| brightness := brightness values; contrast := contrast values;
         saturation := v; sharpness := sharpness values;
         noiseReduction := noiseReduction values; rotation := rotation values |}
  | Sharpness =>
      {| brightness := brightness values; contrast := contrast values;
         saturation := saturation values; sharpness := v;
         noiseReduction := noiseReduction values; rotation := rotation values |}
  | NoiseReduction =>
      {| brightness := brightness values; contrast := contrast values;
         saturation := saturation values; sharpness := sharpness values;
         noiseReduction := v; rotation := rotation values |}
  | Rotation =>
      {| brightness := brightness values; contrast := contrast values;
         saturation := saturation values; sharpness := sharpness values;
         noiseReduction := noiseReduction values; rotation := v |}
  end.

(** The [min] and [max] props of the [SliderRow] bound to each key. *)
Definition slider_min (key : Key) : JS.number :=
  match key with
  | Brightness => (-100)
  | Contrast => (-100)
  | Saturation => 0
  | Sharpness => 0
  | NoiseReduction => 0
  | Rotation => (-45)
  end.

Definition slider_max (key : Key) : JS.number :=
  match key with
  | Brightness => 100
  | Contrast => 100
  | Saturation => 200
  | Sharpness => 100
  | NoiseReduction => 100
  | Rotation => 45
  end.

(** [v] lies within the declared range of [key]. *)
Definition within (key : Key) (v : JS.number) : bool :=
  (slider_min key <=? v) && (v <=? slider_max key).

Definition all_keys : list Key :=
  [Brightness; Contrast; Saturation; Sharpness; NoiseReduction; Rotation].

(** Every field lies within its declared range. *)
Definition in_range (values : EnhancementValues) : bool :=
  forallb (λ key, within key (get values key)) all_keys.

End Controls.

(* ===================================================================== *)
(** ** backend/main.mo: the chunked upload actor *)
(* ===================================================================== *)

Module Backend.

(** [Nat8] *)
Abbreviation Nat8 := N (only parsing).

Inductive EnhancementMode : Type := standard | anime.

Record UploadSession : Type := mkSession {
  totalChunks : nat;
  receivedChunks : gmap nat (list N);
  fileType : string
}.

(** The actor's stable variables. *)
Record Actor : Type := mkActor {
  images : gmap string (list N);
  uploadSessions : gmap string UploadSession;
  nextImageId : nat
}.

Definition init : Actor :=
  {| images := ∅; uploadSessions := ∅; nextImageId := 0 |}.

(** Outcome of a call: a value and the new state, or a trap, which
    rolls the state back. *)
Inductive Outcome (A : Type) : Type :=
| Returned (a : A) (s : Actor)
| Trapped (msg : string).
Arguments Returned {A} a s.
Arguments Trapped {A} msg.

(** [Nat.toText] *)
Definition toText (n : nat) : string := pretty n.

Definition initUpload (totalChunks : nat) (fileType : string) (s : Actor)
  : Outcome string :=
  let sessionId := "Session-" +:+ toText (nextImageId s) in
  let session := {| totalChunks := totalChunks; receivedChunks := ∅;
                    fileType := fileType |} in
  Returned sessionId
    {| images := images s;
       uploadSessions := <[sessionId := session]> (uploadSessions s);
       nextImageId := nextImageId s + 1 |}.

Definition uploadChunk (sessionId : string) (chunkIndex : nat) (data : list N)
    (s : Actor) : Outcome unit :=
  match uploadSessions s !! sessionId with
  | None => Trapped "Upload session not found"
  | Some session =>
      let session' :=
        {| totalChunks := totalChunks session;
           receivedChunks := <[chunkIndex := data]> (receivedChunks session);
           fileType := fileType session |} in
      Returned tt
        {| images := images s;
           uploadSessions := <[sessionId := session']> (uploadSessions s);
           nextImageId := nextImageId s |}
  end.

(** The first loop of [assembleChunks].  [remaining] is the loop's
    variant [totalChunks - chunkIndex]; [inr msg] is a trap. *)
Fixpoint assembleChunks_loop (session : UploadSession)
    (remaining chunkIndex : nat) (resultList : list (list N))
  : list (list N) + string :=
  match remaining with
  | O => inl resultList
  | S remaining' =>
      match receivedChunks session !! chunkIndex with
      | None => inr "Missing chunk at index $chunkIndex"
      | Some chunk =>
          assembleChunks_loop session remaining' (chunkIndex + 1)
            (resultList ++ [chunk])
      end
  end.

Definition assembleChunks (session : UploadSession) : list N + string :=
  match assembleChunks_loop session (totalChunks session - 0) 0 [] with
  | inr msg => inr msg
  | inl resultList =>
      inl (foldl (λ result chunk, result ++ chunk) [] resultList)
  end.

Definition applyEnhancement (image : list N) (mode : EnhancementMode) : list N :=
  let result : list N := [] in
  result ++ image.

Definition isEmpty (a : list N) : bool :=
  match a with [] => true | _ => false end.

Record Enhanced : Type := mkEnhanced {
  imageId : string;
  enhancedImage : list N
}.

(** The record [finalizeUpload] answers with. *)
Record Response : Type := mkResponse {
  ok : option Enhanced;
  err : string
}.

(** The checking loop of [finalizeUpload]: the first index below
    [totalChunks] that has no chunk, if any.  [remaining] is the
    variant [totalChunks - chunkIndex]. *)
Fixpoint finalize_check (session : UploadSession) (remaining chunkIndex : nat)
  : option nat :=
  match remaining with
  | O => None
  | S remaining' =>
      match receivedChunks session !! chunkIndex with
      | None => Some chunkIndex
      | Some _ => finalize_check session remaining' (chunkIndex + 1)
      end
  end.

Definition finalizeUpload (sessionId : string) (mode : EnhancementMode)
    (s : Actor) : Outcome Response :=
  match uploadSessions s !! sessionId with
  | None => Returned {| ok := None; err := "no upload session found" |} s
  | Some session =>
      if negb (size (receivedChunks session) =? totalChunks session)%nat then
        Returned {| ok := None; err := "all chunks not received yet" |} s
      else
        match finalize_check session (totalChunks session - 0) 0 with
        | Some chunkIndex =>
            Returned {| ok := None;
                        err := "missing chunk at index " +:+ toText chunkIndex |} s
        | None =>
            match assembleChunks session with
            | inr msg => Trapped msg
            | inl finalImage =>
                let imageId := "image-" +:+ toText (nextImageId s) in
                let enhancedImage :=
                  if negb (isEmpty finalImage) then
                    let processed := applyEnhancement finalImage mode in
                    if negb (isEmpty processed) then processed else finalImage
                  else [] in
                Returned {| ok := Some {| imageId := imageId;
                                          enhancedImage := enhancedImage |};
                            err := "" |}
                  {| images := <[imageId := enhancedImage]> (images s);
                     uploadSessions := delete sessionId (uploadSessions s);
                     nextImageId := nextImageId s + 1 |}
            end
        end
  end.

Definition getImageRaw (imageId : string) (s : Actor) : Outcome (list N) :=
  match images s !! imageId with
  | None => Trapped "Image not found"
  | Some image => Returned image s
  end.

(** The calls that change the actor's state. *)
Inductive Call : Type :=
| CallInitUpload (totalChunks : nat) (fileType : string)
| CallUploadChunk (sessionId : string) (chunkIndex : nat) (data : list N)
| CallFinalizeUpload (sessionId : string) (mode : EnhancementMode).

(** State after a call; a trapped call leaves the state as it was. *)
Definition step (c : Call) (s : Actor) : Actor :=
  match c with
  | CallInitUpload n ft =>
      match initUpload n ft s with Returned _ s' => s' | Trapped _ => s end
  | CallUploadChunk sid i d =>
      match uploadChunk sid i d s with Returned _ s' => s' | Trapped _ => s end
  | CallFinalizeUpload sid m =>
      match finalizeUpload sid m s with Returned _ s' => s' | Trapped _ => s end
  end.

(** States the actor can be in: those reached from [init] by calls. *)
Inductive reachable : Actor → Prop :=
| reachable_init : reachable init
| reachable_step c s : reachable s → reachable (step c s).

End Backend.

(** Every chunk index in [[0, totalChunks)] has been received. *)
Definition complete (session : Backend.UploadSession) : Prop :=
  ∀ i, (i < Backend.totalChunks session)%nat →
       is_Some (Backend.receivedChunks session !! i).

(** The uploaded chunks concatenated in increasing index order. *)
Definition reassembled (session : Backend.UploadSession) : list N :=
  concat ((λ i, default [] (Backend.receivedChunks session !! i))
            <$> seq 0 (Backend.totalChunks session)).

(** An actor in which one session declared a single chunk and then
    received chunk 0 and a stray chunk 5. *)
Definition overfull_actor : Backend.Actor :=
  Backend.step (Backend.CallUploadChunk "Session-0" 5 [2%N])
    (Backend.step (Backend.CallUploadChunk "Session-0" 0 [1%N])
       (Backend.step (Backend.CallInitUpload 1 "image/png") Backend.init)).

(** Image ids are drawn from the counter: every stored image has an id
    ["image-n"] with [n] below [nextImageId]. *)
Definition ids_below_counter (s : Backend.Actor) : Prop :=
  ∀ k, is_Some (Backend.images s !! k) →
       ∃ n, (n < Backend.nextImageId s)%nat ∧ k = "image-" +:+ Backend.toText n.

(* ===================================================================== *)
(** ** utils/imageProcessing: pixel arrays *)
(* ===================================================================== *)

(** A bitmap: [width * height] RGBA pixels, four bytes each, row by row.
    It stands for an [ImageData] (with its [Uint8ClampedArray]), for the
    bitmap of a canvas and for a decoded [HTMLImageElement].  Dimensions,
    array indices and loop counters are integer-valued numbers and are
    kept in [Z]. *)
Record ImageData : Type := mkImageData {
  width : Z;
  height : Z;
  data : list Z
}.

(** The integers [start, start + 1, ...], [len] of them: the values a
    counting [for] loop runs through. *)
Fixpoint range_from (start : Z) (len : nat) : list Z :=
  match len with
  | O => []
  | S len' => start :: range_from (start + 1) len'
  end.

Definition range (start len : Z) : list Z := range_from start (Z.to_nat len).

Module Arr.

(** [arr[i]] as an optional byte: [None] is [undefined]. *)
Definition lookup (arr : list Z) (i : Z) : option Z :=
  if decide (0 ≤ i)%Z then arr !! Z.to_nat i else None.

(** [arr[i]] used as a number: [undefined] turns into [NaN]. *)
Definition get (arr : list Z) (i : Z) : JS.number :=
  match lookup arr i with
  | Some v => JS.of_Z v
  | None => JS.NaN
  end.

(** [arr[i] = v] on a [Uint8ClampedArray]: the value is converted, and a
    store outside the array is ignored. *)
Definition set (arr : list Z) (i : Z) (v : JS.number) : list Z :=
  if decide (0 ≤ i)%Z then <[Z.to_nat i := JS.ToUint8Clamp v]> arr else arr.

(** [new Uint8ClampedArray(n)] *)
Definition zeros (n : nat) : list Z := replicate n 0%Z.

(** [kernel[i]] of a [number[]]. *)
Definition kernel_get (kernel : list JS.number) (i : Z) : JS.number :=
  if decide (0 ≤ i)%Z then default JS.NaN (kernel !! Z.to_nat i) else JS.NaN.

End Arr.

(** The well-formed bitmaps: the array holds four bytes per pixel. *)
Definition wf_image (img : ImageData) : Prop :=
  (0 ≤ width img)%Z ∧ (0 ≤ height img)%Z
  ∧ Z.of_nat (length (data img)) = (4 * width img * height img)%Z.

(** Clamp a value between 0 and 255 *)
Definition clamp (v : JS.number) : JS.number :=
  JS.Math_max 0 (JS.Math_min 255 (JS.Math_round v)).

(** Convert RGB to HSL (all values 0-1) *)
Definition rgbToHsl (r g b : JS.number) : JS.number * JS.number * JS.number :=
  let r := r / 255 in
  let g := g / 255 in
  let b := b / 255 in
  let max := JS.Math_max (JS.Math_max r g) b in
  let min := JS.Math_min (JS.Math_min r g) b in
  let l := (max + min) / 2 in
  if negb (max === min) then
    let d := max - min in
    let s := if l >? JS.half then d / (2 - max - min) else d / (max + min) in
    let h :=
      if max === r then ((g - b) / d + (if g <? b then 6 else 0)) / 6
      else if max === g then ((b - r) / d + 2) / 6
      else if max === b then ((r - g) / d + 4) / 6
      else 0 in
    (h, s, l)
  else (0, 0, l).

Definition hue2rgb (p q t : JS.number) : JS.number :=
  let t := if t <? 0 then t + 1 else t in
  let t := if t >? 1 then t - 1 else t in
  if t <? 1 / 6 then p + (q - p) * 6 * t
  else if t <? 1 / 2 then q
  else if t <? 2 / 3 then p + (q - p) * (2 / 3 - t) * 6
  else p.

(** Convert HSL to RGB (all values 0-1) *)
Definition hslToRgb (h s l : JS.number) : JS.number * JS.number * JS.number :=
  if s === 0 then
    let v := JS.Math_round (l * 255) in
    (v, v, v)
  else
    let q := if l <? JS.half then l * (1 + s) else l + s - l * s in
    let p := 2 * l - q in
    (JS.Math_round (hue2rgb p q (h + 1 / 3) * 255),
     JS.Math_round (hue2rgb p q h * 255),
     JS.Math_round (hue2rgb p q (h - 1 / 3) * 255)).

(** The kernel offsets [-1, 0, 1] of the two inner loops. *)
Definition kernel_offsets : list Z := [-1; 0; 1]%Z.

(** Apply a 3x3 convolution kernel to ImageData. *)
Definition applyConvolution (imageData : ImageData) (kernel : list JS.number)
    (divisor : JS.number) : ImageData :=
  let width := width imageData in
  let height := height imageData in
  let data := data imageData in
  let output := Arr.zeros (length data) in
  let output :=
    foldl (λ output y,
      foldl (λ output x,
        let '(r, g, b) :=
          foldl (λ rgb ky,
            foldl (λ '(r, g, b) kx,
              let px := Z.min (width - 1) (Z.max 0 (x + kx)) in
              let py := Z.min (height - 1) (Z.max 0 (y + ky)) in
              let idx := ((py * width + px) * 4)%Z in
              let kIdx := ((ky + 1) * 3 + (kx + 1))%Z in
              (r + Arr.get data idx * Arr.kernel_get kernel kIdx,
               g + Arr.get data (idx + 1) * Arr.kernel_get kernel kIdx,
               b + Arr.get data (idx + 2) * Arr.kernel_get kernel kIdx))
              rgb kernel_offsets)
            (0, 0, 0) kernel_offsets in
        let outIdx := ((y * width + x) * 4)%Z in
        let output := Arr.set output outIdx (clamp (r / divisor)) in
        let output := Arr.set output (outIdx + 1) (clamp (g / divisor)) in
        let output := Arr.set output (outIdx + 2) (clamp (b / divisor)) in
        let output := Arr.set output (outIdx + 3) (Arr.get data (outIdx + 3)) in
        output)
        output (range 0 width))
      output (range 0 height) in
  {| width := width; height := height; data := output |}.

(** *** The convolution, pixel by pixel *)

(** [v] clamped to [[0, hi]]. *)
Definition clamp_coord (v hi : Z) : Z := Z.min hi (Z.max 0 v).

(** Channel [ch] of the [i]-th sample of the 3x3 neighbourhood of
    [(x, y)], with the coordinates clamped to the bitmap (the edge
    pixels are replicated). *)
Definition sample (img : ImageData) (x y i ch : Z) : JS.number :=
  let kx := (i `mod` 3 - 1)%Z in
  let ky := (i `div` 3 - 1)%Z in
  let px := clamp_coord (x + kx) (width img - 1) in
  let py := clamp_coord (y + ky) (height img - 1) in
  Arr.get (data img) ((py * width img + px) * 4 + ch).

(** The sum of [kernel[i] * sample[i]] over the nine samples. *)
Definition weighted_sum (img : ImageData) (kernel : list JS.number)
    (x y ch : Z) : JS.number :=
  foldl (λ acc i, acc + Arr.kernel_get kernel i * sample img x y i ch) 0 (range 0 9).

Definition clamp_0_255 (v : JS.number) : JS.number :=
  JS.Math_max 0 (JS.Math_min 255 v).

(** [clamp(round(sum / divisor), 0, 255)], as the byte that is stored. *)
Definition convolved_channel (img : ImageData) (kernel : list JS.number)
    (divisor : JS.number) (x y ch : Z) : Z :=
  JS.ToUint8Clamp
    (clamp_0_255 (JS.Math_round (weighted_sum img kernel x y ch / divisor))).

(** The array holds bytes. *)
Definition byte_image (img : ImageData) : Prop :=
  Forall (λ v, 0 ≤ v ≤ 255)%Z (data img).

(** The body of the pixel loops of [applyConvolution], at [(x, y)]. *)
Definition convolution_body (imageData : ImageData) (kernel : list JS.number)
    (divisor : JS.number) (y : Z) (output : list Z) (x : Z) : list Z :=
  let width := width imageData in
  let height := height imageData in
  let data := data imageData in
  let '(r, g, b) :=
    foldl (λ rgb ky,
      foldl (λ '(r, g, b) kx,
        let px := Z.min (width - 1) (Z.max 0 (x + kx)) in
        let py := Z.min (height - 1) (Z.max 0 (y + ky)) in
        let idx := ((py * width + px) * 4)%Z in
        let kIdx := ((ky + 1) * 3 + (kx + 1))%Z in
        (r + Arr.get data idx * Arr.kernel_get kernel kIdx,
         g + Arr.get data (idx + 1) * Arr.kernel_get kernel kIdx,
         b + Arr.get data (idx + 2) * Arr.kernel_get kernel kIdx))
        rgb kernel_offsets)
      (0, 0, 0) kernel_offsets in
  let outIdx := ((y * width + x) * 4)%Z in
  let output := Arr.set output outIdx (clamp (r / divisor)) in
  let output := Arr.set output (outIdx + 1) (clamp (g / divisor)) in
  let output := Arr.set output (outIdx + 2) (clamp (b / divisor)) in
  let output := Arr.set output (outIdx + 3) (Arr.get data (outIdx + 3)) in
  output.

(** The value the convolution leaves at channel [ch] of pixel [(x, y)]:
    the convolved colour channels, and the alpha channel of the input. *)
Definition convolved (img : ImageData) (kernel : list JS.number)
    (divisor : JS.number) (x y ch : Z) : Z :=
  if decide (ch = 3%Z) then JS.ToUint8Clamp (Arr.get (data img) ((y * width img + x) * 4 + 3))
  else convolved_channel img kernel divisor x y ch.

(** The output array of [applyConvolution] is right for the first [n]
    pixels in row-major order. *)
Definition convolved_upto (img : ImageData) (kernel : list JS.number)
    (divisor : JS.number) (n : Z) (output : list Z) : Prop :=
  length output = length (data img) ∧
  ∀ x y ch, (0 ≤ x < width img)%Z → (0 ≤ y)%Z → (y * width img + x < n)%Z →
            (0 ≤ ch < 4)%Z →
            Arr.lookup output ((y * width img + x) * 4 + ch)
            = Some (convolved img kernel divisor x y ch).

(** Two bitmaps of the same shape. *)
Definition same_shape (a b : ImageData) : Prop :=
  width a = width b ∧ height a = height b ∧ length (data a) = length (data b).

(** Apply sharpening to ImageData using an unsharp mask kernel. *)
Definition applySharpen (imageData : ImageData) (intensity : JS.number) : ImageData :=
  if intensity <=? 0 then imageData
  else
    let t := intensity / 100 in
    let center := 1 + 8 * t in
    let edge := JS.neg t in
    let kernel := [edge; edge; edge;
                   edge; center; edge;
                   edge; edge; edge] in
    applyConvolution imageData kernel 1.

(** The number of times the body of [for (let i = 0; i < n; i++)] runs;
    [None] when the loop never ends ([n] is [Infinity]). *)
Definition loop_count (n : JS.number) : option nat :=
  match n with
  | JS.Fin q => Some (Z.to_nat (Qceiling q))
  | JS.PosInf => None
  | JS.NegInf | JS.NaN => Some O
  end.

(** Apply a box blur (noise reduction) to ImageData.  [None]: the call
    does not return. *)
Definition applyNoiseReduction (imageData : ImageData) (intensity : JS.number)
  : option ImageData :=
  if intensity <=? 0 then Some imageData
  else
    let passes := JS.Math_round ((intensity / 100) * 2) in
    let result := imageData in
    let blurKernel := [1; 1; 1; 1; 1; 1; 1; 1; 1] in
    match loop_count passes with
    | Some n => Some (Nat.iter n (λ result, applyConvolution result blurKernel 9) result)
    | None => None
    end.

(** The values [i] takes in [for (let i = 0; i < length; i += 4)]. *)
Definition pixel_starts (length : nat) : list Z :=
  (λ k, 4 * k)%Z <$> range 0 ((Z.of_nat length + 3) / 4).

(** Apply brightness adjustment to ImageData. *)
Definition applyBrightness (imageData : ImageData) (brightness : JS.number)
  : ImageData :=
  if brightness === 0 then imageData
  else
    let data := data imageData in
    let output := Arr.zeros (length data) in
    let offset := (brightness / 100) * 128 in
    let output :=
      foldl (λ output i,
        let output := Arr.set output i (clamp (Arr.get data i + offset)) in
        let output := Arr.set output (i + 1) (clamp (Arr.get data (i + 1) + offset)) in
        let output := Arr.set output (i + 2) (clamp (Arr.get data (i + 2) + offset)) in
        let output := Arr.set output (i + 3) (Arr.get data (i + 3)) in
        output)
        output (pixel_starts (length data)) in
    {| width := width imageData; height := height imageData; data := output |}.

(** Apply contrast adjustment to ImageData. *)
Definition applyContrast (imageData : ImageData) (contrast : JS.number)
  : ImageData :=
  if contrast === 0 then imageData
  else
    let data := data imageData in
    let output := Arr.zeros (length data) in
    let factor := (259 * (contrast + 255)) / (255 * (259 - contrast)) in
    let output :=
      foldl (λ output i,
        let output := Arr.set output i (clamp (factor * (Arr.get data i - 128) + 128)) in
        let output := Arr.set output (i + 1)
                        (clamp (factor * (Arr.get data (i + 1) - 128) + 128)) in
        let output := Arr.set output (i + 2)
                        (clamp (factor * (Arr.get data (i + 2) - 128) + 128)) in
        let output := Arr.set output (i + 3) (Arr.get data (i + 3)) in
        output)
        output (pixel_starts (length data)) in
    {| width := width imageData; height := height imageData; data := output |}.

(** Apply saturation adjustment to ImageData. *)
Definition applySaturation (imageData : ImageData) (saturation : JS.number)
  : ImageData :=
  if saturation === 100 then imageData
  else
    let data := data imageData in
    let output := Arr.zeros (length data) in
    let factor := saturation / 100 in
    let output :=
      foldl (λ output i,
        let '(h, s, l) := rgbToHsl (Arr.get data i) (Arr.get data (i + 1))
                            (Arr.get data (i + 2)) in
        let newS := JS.Math_min 1 (JS.Math_max 0 (s * factor)) in
        let '(r, g, b) := hslToRgb h newS l in
        let output := Arr.set output i r in
        let output := Arr.set output (i + 1) g in
        let output := Arr.set output (i + 2) b in
        let output := Arr.set output (i + 3) (Arr.get data (i + 3)) in
        output)
        output (pixel_starts (length data)) in
    {| width := width imageData; height := height imageData; data := output |}.

(** A small opaque test image: 2x2 pixels. *)
Definition test_image : ImageData :=
  {| width := 2; height := 2;
     data := [255; 0; 0; 255;   10; 200; 30; 255;
              0; 0; 255; 128;   90; 90; 90; 255]%Z |}.

(* ===================================================================== *)
(** ** The canvas: a model of the 2D context calls the editor makes *)
(* ===================================================================== *)

(** Canvases are mutable objects shared by reference, so they live in a
    store and are named by handles.  The model keeps, per canvas, its
    bitmap (straight RGBA bytes) and the state of its 2D context.
    All draws of the editor target freshly created, fully transparent
    canvases, where source-over compositing is a copy: drawn pixels
    replace the destination pixels.  The context calls are total: an
    empty (zero-area) canvas is a bitmap with no pixels, and where a
    browser raises on one ([getImageData] of an empty rectangle,
    [drawImage] from an empty canvas) the model yields the empty
    bitmap. *)

Module Canvas.

(** Channel [c] of the pixel at [(x, y)], transparent black outside. *)
Definition pixel (img : ImageData) (x y c : Z) : Z :=
  if decide (0 ≤ x < width img ∧ 0 ≤ y < height img ∧ 0 ≤ c < 4)%Z
  then default 0%Z (Arr.lookup (data img) (4 * (y * width img + x) + c))
  else 0%Z.

(** The byte array of a [w] by [h] bitmap given pixel by pixel. *)
Definition render (w h : Z) (f : Z → Z → Z → Z) : list Z :=
  (λ i, f ((i `div` 4) `mod` w) ((i `div` 4) `div` w) (i `mod` 4))%Z
    <$> range 0 (4 * w * h).

(** A fully transparent bitmap. *)
Definition blank (w h : Z) : ImageData :=
  {| width := w; height := h; data := render w h (λ _ _ _, 0%Z) |}.

Inductive Quality : Type := low | medium | high.

(** The calls that change the current transformation matrix, in the
    order they were made. *)
Inductive Xform : Type :=
| Translate (tx ty : JS.number)
| Rotate (angle : JS.number).

Record Canvas : Type := mkCanvas {
  bitmap : ImageData;
  transform : list Xform;
  imageSmoothingEnabled : bool;
  imageSmoothingQuality : Quality
}.

(** A canvas of the given size in its initial state. *)
Definition fresh (w h : Z) : Canvas :=
  {| bitmap := blank w h; transform := [];
     imageSmoothingEnabled := true; imageSmoothingQuality := low |}.

(** The store of canvases; a handle is an index into it. *)
Abbreviation Store := (list Canvas).
Abbreviation Handle := nat.

(** Computations on the store.  [None]: the call does not return a
    value (a dangling handle, which the editor never produces; a rejected
    image load; a loop that does not end). *)
Definition M (A : Type) : Type := Store → option (A * Store).

#[global] Instance M_ret : MRet M := λ A a σ, Some (a, σ).
#[global] Instance M_bind : MBind M := λ A B f m σ,
  match m σ with
  | Some (a, σ') => f a σ'
  | None => None
  end.

Definition lift {A : Type} (o : option A) : M A :=
  λ σ, match o with Some a => Some (a, σ) | None => None end.

Definition read (c : Handle) : M Canvas := λ σ,
  match σ !! c with Some cv => Some (cv, σ) | None => None end.

Definition write (c : Handle) (cv : Canvas) : M unit := λ σ,
  match σ !! c with Some _ => Some (tt, <[c := cv]> σ) | None => None end.

(** [document.createElement('canvas')]: a new 300 by 150 canvas. *)
Definition createElement_canvas : M Handle := λ σ,
  Some (length σ, σ ++ [fresh 300 150]).

Definition get_width (c : Handle) : M Z := cv ← read c; mret (width (bitmap cv)).
Definition get_height (c : Handle) : M Z := cv ← read c; mret (height (bitmap cv)).

(** [canvas.width = v]: the bitmap is cleared and the context reset. *)
Definition set_width (c : Handle) (v : JS.number) : M unit :=
  cv ← read c; write c (fresh (JS.to_dimension v) (height (bitmap cv))).

Definition set_height (c : Handle) (v : JS.number) : M unit :=
  cv ← read c; write c (fresh (width (bitmap cv)) (JS.to_dimension v)).

Definition set_imageSmoothingEnabled (c : Handle) (b : bool) : M unit :=
  cv ← read c;
  write c {| bitmap := bitmap cv; transform := transform cv;
             imageSmoothingEnabled := b;
             imageSmoothingQuality := imageSmoothingQuality cv |}.

Definition set_imageSmoothingQuality (c : Handle) (q : Quality) : M unit :=
  cv ← read c;
  write c {| bitmap := bitmap cv; transform := transform cv;
             imageSmoothingEnabled := imageSmoothingEnabled cv;
             imageSmoothingQuality := q |}.

Definition push_xform (c : Handle) (t : Xform) : M unit :=
  cv ← read c;
  write c {| bitmap := bitmap cv; transform := transform cv ++ [t];
             imageSmoothingEnabled := imageSmoothingEnabled cv;
             imageSmoothingQuality := imageSmoothingQuality cv |}.

(** [ctx.translate(tx, ty)] and [ctx.rotate(angle)] *)
Definition translate (c : Handle) (tx ty : JS.number) : M unit :=
  push_xform c (Translate tx ty).
Definition rotate (c : Handle) (angle : JS.number) : M unit :=
  push_xform c (Rotate angle).

(** [Math.PI], the double nearest to pi. *)
Definition Math_PI : JS.number := JS.Fin (884279719003555 # 281474976710656).

(** An affine map of the pixel grid onto itself:
    [(x, y)] goes to [(ma x + mc y + me, mb x + md y + mf)]. *)
Record Affine : Type := mkAffine { ma : Z; mb : Z; mc : Z; md : Z; me : Z; mf : Z }.

Definition identity : Affine := {| ma := 1; mb := 0; mc := 0; md := 1; me := 0; mf := 0 |}.

(** The integer a number is, if it is one. *)
Definition int_of (v : JS.number) : option Z :=
  match v with
  | JS.Fin q => if Qeq_bool q (inject_Z (Qfloor q)) then Some (Qfloor q) else None
  | _ => None
  end.

(** The number of clockwise quarter turns an angle stands for, when it
    is [0], [Math.PI / 2] or [-Math.PI / 2]; a rotation by
    [Math.PI / 2] is taken as the exact quarter turn it stands for. *)
Definition quarter_turns (angle : JS.number) : option Z :=
  if angle === 0 then Some 0%Z
  else if angle === Math_PI / 2 then Some 1%Z
  else if angle === JS.neg Math_PI / 2 then Some (-1)%Z
  else None.

(** The current transformation matrix after one more call, when the
    call keeps the pixel grid: a translation by whole pixels or a rotation
    by quarter turns. *)
Definition apply_xform (m : Affine) (t : Xform) : option Affine :=
  match t with
  | Translate tx ty =>
      match int_of tx, int_of ty with
      | Some tx, Some ty =>
          Some {| ma := ma m; mb := mb m; mc := mc m; md := md m;
                  me := ma m * tx + mc m * ty + me m;
                  mf := mb m * tx + md m * ty + mf m |}%Z
      | _, _ => None
      end
  | Rotate angle =>
      match quarter_turns angle with
      | Some 0%Z => Some m
      | Some 1%Z =>
          Some {| ma := mc m; mb := md m; mc := - ma m; md := - mb m; me := me m; mf := mf m |}%Z
      | Some _ =>
          Some {| ma := - mc m; mb := - md m; mc := ma m; md := mb m; me := me m; mf := mf m |}%Z
      | None => None
      end
  end.

Definition grid_transform (ts : list Xform) : option Affine :=
  foldl (λ m t, m ≫= λ m, apply_xform m t) (Some identity) ts.

(** The pixel of user space that the transformation [m] shows at the
    device pixel [(X, Y)]: the inverse of [m] at the pixel's centre. *)
Definition user_pixel (m : Affine) (X Y : Z) : Z * Z :=
  let det := (ma m * md m - mb m * mc m)%Z in
  let U := (2 * X + 1 - 2 * me m)%Z in
  let V := (2 * Y + 1 - 2 * mf m)%Z in
  ((det * (md m * U - mc m * V)) `div` 2, (det * (ma m * V - mb m * U)) `div` 2)%Z.

Definition finite (v : JS.number) : bool :=
  match v with JS.Fin _ => true | _ => false end.

Section Draw.

(** The platform's resampling rasterizer: the byte it puts at channel
    [c] of the destination pixel [(X, Y)] when an image is drawn under
    a transformation, or at a scale, that does not keep the pixel
    grid. *)
Variable rasterize :
  bool → Quality → list Xform → ImageData →
  JS.number → JS.number → JS.number → JS.number →
  JS.number → JS.number → JS.number → JS.number →
  ImageData → Z → Z → Z → Z.

(** The bitmap of a canvas after
    [drawImage(image, sx, sy, sw, sh, dx, dy, dw, dh)]. *)
Definition draw (cv : Canvas) (image : ImageData)
    (sx sy sw sh dx dy dw dh : JS.number) : ImageData :=
  let dest := bitmap cv in
  if negb (forallb finite [sx; sy; sw; sh; dx; dy; dw; dh]) then dest
  else
    match grid_transform (transform cv),
          int_of sx, int_of sy, int_of sw, int_of sh,
          int_of dx, int_of dy, int_of dw, int_of dh with
    | Some m, Some sx', Some sy', Some sw', Some sh',
      Some dx', Some dy', Some dw', Some dh' =>
        if decide (sw' = dw' ∧ sh' = dh' ∧ 0 ≤ sw' ∧ 0 ≤ sh')%Z then
          (* unscaled, on the pixel grid: an exact copy *)
          {| width := width dest; height := height dest;
             data := render (width dest) (height dest) (λ X Y c,
               let '(ux, uy) := user_pixel m X Y in
               let px := (sx' + (ux - dx'))%Z in
               let py := (sy' + (uy - dy'))%Z in
               if decide (dx' ≤ ux < dx' + dw' ∧ dy' ≤ uy < dy' + dh'
                          ∧ 0 ≤ px < width image ∧ 0 ≤ py < height image)%Z
               then pixel image px py c
               else pixel dest X Y c) |}
        else
          {| width := width dest; height := height dest;
             data := render (width dest) (height dest)
               (rasterize (imageSmoothingEnabled cv) (imageSmoothingQuality cv)
                  (transform cv) image sx sy sw sh dx dy dw dh dest) |}
    | _, _, _, _, _, _, _, _, _ =>
        {| width := width dest; height := height dest;
           data := render (width dest) (height dest)
             (rasterize (imageSmoothingEnabled cv) (imageSmoothingQuality cv)
                (transform cv) image sx sy sw sh dx dy dw dh dest) |}
    end.

Definition with_bitmap (cv : Canvas) (img : ImageData) : Canvas :=
  {| bitmap := img; transform := transform cv;
     imageSmoothingEnabled := imageSmoothingEnabled cv;
     imageSmoothingQuality := imageSmoothingQuality cv |}.

(** [ctx.drawImage(image, sx, sy, sw, sh, dx, dy, dw, dh)] *)
Definition drawImage9 (c : Handle) (image : ImageData)
    (sx sy sw sh dx dy dw dh : JS.number) : M unit :=
  cv ← read c;
  write c (with_bitmap cv (draw cv image sx sy sw sh dx dy dw dh)).

(** [ctx.drawImage(image, dx, dy, dw, dh)] *)
Definition drawImage5 (c : Handle) (image : ImageData)
    (dx dy dw dh : JS.number) : M unit :=
  drawImage9 c image 0 0 (JS.of_Z (width image)) (JS.of_Z (height image))
    dx dy dw dh.

(** [ctx.drawImage(image, dx, dy)] *)
Definition drawImage3 (c : Handle) (image : ImageData) (dx dy : JS.number)
  : M unit :=
  drawImage9 c image 0 0 (JS.of_Z (width image)) (JS.of_Z (height image))
    dx dy (JS.of_Z (width image)) (JS.of_Z (height image)).

End Draw.

(** [ctx.getImageData(sx, sy, sw, sh)] for whole-pixel arguments. *)
Definition getImageData (c : Handle) (sx sy sw sh : Z) : M ImageData :=
  cv ← read c;
  mret {| width := sw; height := sh;
          data := render sw sh (λ X Y c, pixel (bitmap cv) (sx + X) (sy + Y) c) |}.

(** [ctx.putImageData(imageData, dx, dy)] for whole-pixel arguments. *)
Definition putImageData (c : Handle) (imageData : ImageData) (dx dy : Z) : M unit :=
  cv ← read c;
  let dest := bitmap cv in
  write c (with_bitmap cv
    {| width := width dest; height := height dest;
       data := render (width dest) (height dest) (λ X Y c,
         if decide (0 ≤ X - dx < width imageData ∧ 0 ≤ Y - dy < height imageData)%Z
         then pixel imageData (X - dx) (Y - dy) c
         else pixel dest X Y c) |}).

End Canvas.

(* ===================================================================== *)
(** ** utils/imageProcessing: canvas operations *)
(* ===================================================================== *)

Section ImageProcessing.
Import Canvas.

(** The platform: the rasterizer behind [drawImage], [Math.sin] and
    [Math.cos], and the outcome of loading an image URL ([None]: the
    image could not be decoded, the promise is rejected). *)
Variable rasterize :
  bool → Quality → list Xform → ImageData →
  JS.number → JS.number → JS.number → JS.number →
  JS.number → JS.number → JS.number → JS.number →
  ImageData → Z → Z → Z → Z.
Variables Math_sin Math_cos : JS.number → JS.number.
Variable loadImage : string → option ImageData.

(** Multi-step canvas upscaling: incrementally scale up to 2x using
    intermediate steps. *)
Definition upscaleImage (src : string) : M Handle :=
  img ← lift (loadImage src);
  let targetW := (width img * 2)%Z in
  let targetH := (height img * 2)%Z in
  (* Step 1: draw at 1.5x *)
  step1 ← createElement_canvas;
  set_width step1 (JS.Math_round (JS.of_Z (width img) * JS.Fin (3 # 2)));;
  set_height step1 (JS.Math_round (JS.of_Z (height img) * JS.Fin (3 # 2)));;
  set_imageSmoothingEnabled step1 true;;
  set_imageSmoothingQuality step1 high;;
  step1_width ← get_width step1;
  step1_height ← get_height step1;
  drawImage5 rasterize step1 img 0 0 (JS.of_Z step1_width) (JS.of_Z step1_height);;
  (* Step 2: draw at 2x *)
  step2 ← createElement_canvas;
  set_width step2 (JS.of_Z targetW);;
  set_height step2 (JS.of_Z targetH);;
  set_imageSmoothingEnabled step2 true;;
  set_imageSmoothingQuality step2 high;;
  step1_canvas ← read step1;
  drawImage5 rasterize step2 (bitmap step1_canvas) 0 0
    (JS.of_Z targetW) (JS.of_Z targetH);;
  mret step2.

(** Apply all adjustments to a canvas element and return a new canvas.
    The [opts] object of the source is passed as the six enhancement
    values and the [cropRect]. *)
Definition applyAdjustments (sourceCanvas : Handle)
    (opts : EnhancementValues) (cropRect : option CropRect) : M Handle :=
  (* Create working canvas *)
  workCanvas ← createElement_canvas;
  source_width ← get_width sourceCanvas;
  set_width workCanvas (JS.of_Z source_width);;
  source_height ← get_height sourceCanvas;
  set_height workCanvas (JS.of_Z source_height);;
  source ← read sourceCanvas;
  drawImage3 rasterize workCanvas (bitmap source) 0 0;;
  (* Apply crop first if set *)
  workCanvas ←
    match cropRect with
    | Some cropRect =>
        if (w cropRect >? 0) && (h cropRect >? 0) then
          cropCanvas ← createElement_canvas;
          set_width cropCanvas (JS.Math_round (w cropRect));;
          set_height cropCanvas (JS.Math_round (h cropRect));;
          work ← read workCanvas;
          drawImage9 rasterize cropCanvas (bitmap work)
            (JS.Math_round (x cropRect)) (JS.Math_round (y cropRect))
            (JS.Math_round (w cropRect)) (JS.Math_round (h cropRect))
            0 0
            (JS.Math_round (w cropRect)) (JS.Math_round (h cropRect));;
          mret cropCanvas
        else mret workCanvas
    | None => mret workCanvas
    end;
  (* Apply rotation *)
  workCanvas ←
    (if negb (rotation opts === 0) then
       let rad := (rotation opts * Math_PI) / 180 in
       let sin := JS.Math_abs (Math_sin rad) in
       let cos := JS.Math_abs (Math_cos rad) in
       work_width ← get_width workCanvas;
       work_height ← get_height workCanvas;
       let newW := JS.Math_round (JS.of_Z work_width * cos + JS.of_Z work_height * sin) in
       let newH := JS.Math_round (JS.of_Z work_width * sin + JS.of_Z work_height * cos) in
       rotCanvas ← createElement_canvas;
       set_width rotCanvas newW;;
       set_height rotCanvas newH;;
       translate rotCanvas (newW / 2) (newH / 2);;
       rotate rotCanvas rad;;
       work ← read workCanvas;
       drawImage3 rasterize rotCanvas (bitmap work)
         (JS.neg (JS.of_Z work_width) / 2) (JS.neg (JS.of_Z work_height) / 2);;
       mret rotCanvas
     else mret workCanvas);
  (* Get pixel data for pixel-level adjustments *)
  work_width ← get_width workCanvas;
  work_height ← get_height workCanvas;
  imageData ← getImageData workCanvas 0 0 work_width work_height;
  (* noise reduction, brightness, contrast, saturation, sharpen *)
  imageData ← lift (applyNoiseReduction imageData (noiseReduction opts));
  let imageData := applyBrightness imageData (brightness opts) in
  let imageData := applyContrast imageData (contrast opts) in
  let imageData := applySaturation imageData (saturation opts) in
  let imageData := applySharpen imageData (sharpness opts) in
  putImageData workCanvas imageData 0 0;;
  mret workCanvas.

(** Rotate a canvas 90 degrees clockwise or counter-clockwise. *)
Definition rotate90 (canvas : Handle) (clockwise : bool) : M Handle :=
  out ← createElement_canvas;
  canvas_height ← get_height canvas;
  set_width out (JS.of_Z canvas_height);;
  canvas_width ← get_width canvas;
  set_height out (JS.of_Z canvas_width);;
  (if clockwise then
     out_width ← get_width out;
     translate out (JS.of_Z out_width) 0;;
     rotate out (Math_PI / 2)
   else
     out_height ← get_height out;
     translate out 0 (JS.of_Z out_height);;
     rotate out (JS.neg Math_PI / 2));;
  source ← read canvas;
  drawImage3 rasterize out (bitmap source) 0 0;;
  mret out.

(** *** components/ImageComparison: the committing handlers *)

(** The refs and state cells of the component that the handlers use. *)
Record Editor : Type := mkEditor {
  baseCanvasRef : option Handle;
  values : EnhancementValues;
  appliedCrop : option CropRect;
  crop : Crop.State
}.

Definition handleRotate90 (clockwise : bool) (ed : Editor) : M Editor :=
  match baseCanvasRef ed with
  | None => mret ed
  | Some base =>
      rotated ← rotate90 base clockwise;
      mret {| baseCanvasRef := Some rotated; values := values ed;
              appliedCrop := None; crop := crop ed |}
  end.

Definition handleCropConfirm (ed : Editor) : M Editor :=
  let '(rect, crop') := Crop.confirmCrop (crop ed) in
  match rect, baseCanvasRef ed with
  | Some rect, Some base =>
      (* Apply crop permanently to base canvas *)
      cropped ← createElement_canvas;
      set_width cropped (JS.Math_round (w rect));;
      set_height cropped (JS.Math_round (h rect));;
      source ← read base;
      drawImage9 rasterize cropped (bitmap source)
        (JS.Math_round (x rect)) (JS.Math_round (y rect))
        (JS.Math_round (w rect)) (JS.Math_round (h rect))
        0 0
        (JS.Math_round (w rect)) (JS.Math_round (h rect));;
      mret {| baseCanvasRef := Some cropped; values := values ed;
              appliedCrop := None; crop := crop' |}
  | _, _ =>
      mret {| baseCanvasRef := baseCanvasRef ed; values := values ed;
              appliedCrop := appliedCrop ed; crop := crop' |}
  end.

(** *** The stages of the compositor, as functions of bitmaps *)

(** The sub-rectangle [rect] of a bitmap, rounded to whole pixels. *)
Definition Crop_stage (img : ImageData) (rect : CropRect) : ImageData :=
  draw rasterize
    (fresh (JS.to_dimension (JS.Math_round (w rect)))
           (JS.to_dimension (JS.Math_round (h rect))))
    img
    (JS.Math_round (x rect)) (JS.Math_round (y rect))
    (JS.Math_round (w rect)) (JS.Math_round (h rect))
    0 0
    (JS.Math_round (w rect)) (JS.Math_round (h rect)).

(** The bitmap turned by [degrees] about its centre, in the bounding
    box of the turned content. *)
Definition FreeRotate_stage (img : ImageData) (degrees : JS.number) : ImageData :=
  let rad := (degrees * Math_PI) / 180 in
  let sin := JS.Math_abs (Math_sin rad) in
  let cos := JS.Math_abs (Math_cos rad) in
  let newW := JS.Math_round (JS.of_Z (width img) * cos + JS.of_Z (height img) * sin) in
  let newH := JS.Math_round (JS.of_Z (width img) * sin + JS.of_Z (height img) * cos) in
  let cv := fresh (JS.to_dimension newW) (JS.to_dimension newH) in
  draw rasterize
    {| bitmap := bitmap cv;
       transform := [Translate (newW / 2) (newH / 2); Rotate rad];
       imageSmoothingEnabled := imageSmoothingEnabled cv;
       imageSmoothingQuality := imageSmoothingQuality cv |}
    img 0 0 (JS.of_Z (width img)) (JS.of_Z (height img))
    (JS.neg (JS.of_Z (width img)) / 2) (JS.neg (JS.of_Z (height img)) / 2)
    (JS.of_Z (width img)) (JS.of_Z (height img)).

(** The geometry of the compositor: the crop when the pending rect has
    positive width and height, then the free rotation when the angle
    is not zero. *)
Definition geometry (base : ImageData) (opts : EnhancementValues)
    (cropRect : option CropRect) : ImageData :=
  let cropped :=
    match cropRect with
    | Some rect =>
        if (w rect >? 0) && (h rect >? 0) then Crop_stage base rect else base
    | None => base
    end in
  if negb (rotation opts === 0) then FreeRotate_stage cropped (rotation opts)
  else cropped.

(** The pixel filters, in the order of the specification. *)
Definition filters (img : ImageData) (opts : EnhancementValues) : option ImageData :=
  denoised ← applyNoiseReduction img (noiseReduction opts);
  Some (applySharpen
          (applySaturation
             (applyContrast
                (applyBrightness denoised (brightness opts))
                (contrast opts))
             (saturation opts))
          (sharpness opts)).

(** One resampling pass: the image drawn, with high-quality smoothing,
    over the whole of a new canvas of the given size. *)
Definition resample (img : ImageData) (w h : Z) : ImageData :=
  draw rasterize
    {| bitmap := blank w h; transform := [];
       imageSmoothingEnabled := true; imageSmoothingQuality := high |}
    img 0 0 (JS.of_Z (width img)) (JS.of_Z (height img))
    0 0 (JS.of_Z w) (JS.of_Z h).

(** The bitmap 90 degrees from [img]: pixel [(X, Y)] of the result is
    pixel [(Y, h - 1 - X)] of [img] for a clockwise turn and
    [(w - 1 - Y, X)] for a counter-clockwise turn. *)
Definition quarter_turn (img : ImageData) (clockwise : bool) : ImageData :=
  {| width := height img; height := width img;
     data := render (height img) (width img) (λ X Y c,
       if clockwise then pixel img Y (height img - 1 - X) c
       else pixel img (width img - 1 - Y) X c) |}.

End ImageProcessing.

(** A store with one canvas, holding the test image, and a rasterizer
    that paints nothing, for running the canvas programs on. *)
Definition test_store : Canvas.Store :=
  [ {| Canvas.bitmap := test_image; Canvas.transform := [];
       Canvas.imageSmoothingEnabled := true;
       Canvas.imageSmoothingQuality := Canvas.low |} ].

Definition no_rasterizer :
  bool → Canvas.Quality → list Canvas.Xform → ImageData →
  JS.number → JS.number → JS.number → JS.number →
  JS.number → JS.number → JS.number → JS.number →
  ImageData → Z → Z → Z → Z :=
  λ _ _ _ _ _ _ _ _ _ _ _ _ _ _ _ _, 0%Z.

(** A pending crop rect smaller than half a pixel. *)
Definition tiny_crop : CropRect :=
  {| x := 0; y := 0; w := JS.Fin (3 # 10); h := JS.Fin (3 # 10) |}.

(** Stand-ins for [Math.sin] and [Math.cos] where the angle is zero. *)
Definition sin_zero : JS.number → JS.number := λ _, 0.
Definition cos_zero : JS.number → JS.number := λ _, 1.

(** The component state after the drag of the scenario, over the test
    store. *)
Definition test_editor : Editor :=
  {| baseCanvasRef := Some 0%nat; values := DEFAULT_ENHANCEMENT_VALUES;
     appliedCrop := None;
     crop := drag_10_10_to_2_2 (Crop.mkElement 0 0) |}.

(* ===================================================================== *)
(** ** backend/main.mo: invariants of the upload actor *)
(* ===================================================================== *)

(** Session ids are drawn from the counter as well: every open session
    has an id ["Session-n"] with [n] below [nextImageId]. *)
Definition sessions_below_counter (s : Backend.Actor) : Prop :=
  ∀ k, is_Some (Backend.uploadSessions s !! k) →
       ∃ n, (n < Backend.nextImageId s)%nat ∧ k = "Session-" +:+ Backend.toText n.

(** The session [sessionId] holds a chunk whose index is not below its
    [totalChunks]. *)
Definition has_stray_chunk (s : Backend.Actor) (sessionId : string) : Prop :=
  ∃ session i,
    Backend.uploadSessions s !! sessionId = Some session
    ∧ (Backend.totalChunks session ≤ i)%nat
    ∧ is_Some (Backend.receivedChunks session !! i).

(** The state after a sequence of calls. *)
Definition steps (calls : list Backend.Call) (s : Backend.Actor) : Backend.Actor :=
  foldl (λ s c, Backend.step c s) s calls.

(* ===================================================================== *)
(** ** hooks/useQueries: the upload client *)
(* ===================================================================== *)

Module Upload.

(** 1.5 MB per chunk *)
Definition CHUNK_SIZE : Z := 1572864.

(** [data.slice(start, final)] of a typed array, for integer arguments:
    a negative index counts from the end, and both are clamped to the
    array. *)
Definition slice (data : list N) (start final : Z) : list N :=
  let len := Z.of_nat (length data) in
  let k := if (start <? 0)%Z then Z.max (len + start) 0 else Z.min start len in
  let final := if (final <? 0)%Z then Z.max (len + final) 0 else Z.min final len in
  take (Z.to_nat (final - k)) (drop (Z.to_nat k) data).

(** The loop of [splitIntoChunks]; [fuel] bounds the number of times the
    body runs, and [None] is a loop that is still running when the fuel
    is spent. *)
Fixpoint splitIntoChunks_loop (fuel : nat) (data : list N) (chunkSize offset : Z)
    (chunks : list (list N)) : option (list (list N)) :=
  if (offset <? Z.of_nat (length data))%Z then
    match fuel with
    | O => None
    | S fuel' =>
        splitIntoChunks_loop fuel' data chunkSize (offset + chunkSize)%Z
          (chunks ++ [slice data offset (offset + chunkSize)])
    end
  else Some chunks.

(** Split a Uint8Array into chunks of at most [chunkSize] bytes.  The
    body of the loop runs at most once per byte when the loop ends at
    all; [None]: the call does not return. *)
Definition splitIntoChunks (data : list N) (chunkSize : Z) : option (list (list N)) :=
  splitIntoChunks_loop (length data) data chunkSize 0 [].

(** [bytes[i] === v] *)
Definition byte_is (bytes : list N) (i : nat) (v : N) : bool :=
  bool_decide (bytes !! i = Some v).

(** Detect MIME type from file magic bytes. *)
Definition detectMimeType (bytes : list N) : string :=
  if (3 <=? length bytes)%nat && byte_is bytes 0 0xff%N && byte_is bytes 1 0xd8%N
     && byte_is bytes 2 0xff%N
  then "image/jpeg"
  else if (8 <=? length bytes)%nat && byte_is bytes 0 0x89%N && byte_is bytes 1 0x50%N
          && byte_is bytes 2 0x4e%N && byte_is bytes 3 0x47%N
  then "image/png"
  else "image/png".

Inductive ProgressPhase : Type := uploading | enhancing.

Record UploadProgress : Type := mkProgress {
  phase : ProgressPhase;
  fraction : JS.number
}.

(** What an object URL names. *)
Record Blob : Type := mkBlob {
  blob_bytes : list N;
  blob_type : string
}.

(** The world of the hook: the canister behind [actor], the object URLs
    that are alive (a URL is named by its serial number), the hook's
    [prevEnhancedUrlRef], and the progress reported so far, in order
    ([progressRef] holds the last report). *)
Record World : Type := mkWorld {
  canister : Backend.Actor;
  object_urls : gmap nat Blob;
  next_url : nat;
  prevEnhancedUrlRef : option nat;
  reports : list UploadProgress
}.

Definition initial_world (s : Backend.Actor) : World :=
  {| canister := s; object_urls := ∅; next_url := 0;
     prevEnhancedUrlRef := None; reports := [] |}.

Definition with_canister (wd : World) (s : Backend.Actor) : World :=
  {| canister := s; object_urls := object_urls wd; next_url := next_url wd;
     prevEnhancedUrlRef := prevEnhancedUrlRef wd; reports := reports wd |}.

Definition reportProgress (p : UploadProgress) (wd : World) : World :=
  {| canister := canister wd; object_urls := object_urls wd; next_url := next_url wd;
     prevEnhancedUrlRef := prevEnhancedUrlRef wd; reports := reports wd ++ [p] |}.

(** [URL.revokeObjectURL] and [URL.createObjectURL] *)
Definition revokeObjectURL (url : nat) (wd : World) : World :=
  {| canister := canister wd; object_urls := delete url (object_urls wd);
     next_url := next_url wd;
     prevEnhancedUrlRef := prevEnhancedUrlRef wd; reports := reports wd |}.

Definition createObjectURL (blob : Blob) (wd : World) : nat * World :=
  (next_url wd,
   {| canister := canister wd;
      object_urls := <[next_url wd := blob]> (object_urls wd);
      next_url := S (next_url wd);
      prevEnhancedUrlRef := prevEnhancedUrlRef wd; reports := reports wd |}).

Definition set_prevEnhancedUrlRef (v : option nat) (wd : World) : World :=
  {| canister := canister wd; object_urls := object_urls wd; next_url := next_url wd;
     prevEnhancedUrlRef := v; reports := reports wd |}.

(** Create a blob URL from raw image bytes. *)
Definition createBlobUrlFromBytes (bytes : list N) (mimeType : string) (wd : World)
  : nat * World :=
  createObjectURL {| blob_bytes := bytes; blob_type := mimeType |} wd.

(** How a promise settles. *)
Inductive Settled (A : Type) : Type :=
| Resolved (a : A)
| Rejected (message : string).
Arguments Resolved {A} a.
Arguments Rejected {A} message.

Record Processed : Type := mkProcessed {
  imageId : string;
  enhancedUrl : nat
}.

(** One round of the loop of step 3: upload chunk [i] and report the
    progress.  A call that traps rejects with the message of the trap,
    and the rounds that would follow are not made. *)
Definition uploadChunk_round (sessionId : string) (chunks : list (list N))
    (totalChunks : nat) : World * option string → nat → World * option string :=
  λ '(wd, failure) i,
    match failure with
    | Some message => (wd, Some message)
    | None =>
        match chunks !! i with
        | None => (wd, Some "Invalid vec nat8 argument")
        | Some chunk =>
            match Backend.uploadChunk sessionId i chunk (canister wd) with
            | Backend.Trapped message => (wd, Some message)
            | Backend.Returned _ s =>
                (reportProgress
                   {| phase := uploading;
                      fraction := JS.of_Z (Z.of_nat i + 1) / JS.of_Z (Z.of_nat totalChunks) |}
                   (with_canister wd s), None)
            end
        end
    end.

(** Step 3 of the mutation: upload each chunk sequentially. *)
Definition uploadChunks (sessionId : string) (chunks : list (list N))
    (totalChunks : nat) (wd : World) : World * option string :=
  foldl (uploadChunk_round sessionId chunks totalChunks) (wd, None) (seq 0 totalChunks).

(** The [mutationFn] of [useProcessImage], run without other calls to
    the canister in between.  [actor] tells whether the actor is there;
    [None]: the promise does not settle. *)
Definition processImage (actor : bool) (imageBytes : list N) (fileType : string)
    (enhancementMode : Backend.EnhancementMode) (wd : World)
  : option (Settled Processed * World) :=
  if negb actor then Some (Rejected "Backend not available", wd)
  else
    (* Revoke the previous enhanced blob URL to free memory *)
    let wd :=
      match prevEnhancedUrlRef wd with
      | Some url => set_prevEnhancedUrlRef None (revokeObjectURL url wd)
      | None => wd
      end in
    (* Step 1: Split raw file bytes into chunks *)
    match splitIntoChunks imageBytes CHUNK_SIZE with
    | None => None
    | Some chunks =>
        let totalChunks := length chunks in
        let wd := reportProgress {| phase := uploading; fraction := 0 |} wd in
        (* Step 2: Initialise upload session on the backend *)
        match Backend.initUpload totalChunks fileType (canister wd) with
        | Backend.Trapped message => Some (Rejected message, wd)
        | Backend.Returned sessionId s =>
            let wd := with_canister wd s in
            (* Step 3: Upload each chunk sequentially *)
            match uploadChunks sessionId chunks totalChunks wd with
            | (wd, Some message) => Some (Rejected message, wd)
            | (wd, None) =>
                (* Step 4: Transition to enhancing phase *)
                let wd := reportProgress {| phase := enhancing; fraction := 1 |} wd in
                (* Step 5: Finalize upload *)
                match Backend.finalizeUpload sessionId enhancementMode (canister wd) with
                | Backend.Trapped message => Some (Rejected message, wd)
                | Backend.Returned result s =>
                    let wd := with_canister wd s in
                    match Backend.ok result with
                    | None =>
                        Some (Rejected (if decide (Backend.err result = "")
                                        then "Enhancement failed on the backend"
                                        else Backend.err result), wd)
                    | Some enhanced =>
                        (* Step 6: Validate we got non-empty bytes back *)
                        let enhancedBytes := Backend.enhancedImage enhanced in
                        if (length enhancedBytes =? 0)%nat then
                          Some (Rejected "Backend returned empty image data", wd)
                        else
                          (* Step 7: Create a blob URL from the returned bytes *)
                          let detectedMime := detectMimeType enhancedBytes in
                          let mimeType :=
                            if decide (detectedMime ≠ "image/png") then detectedMime
                            else fileType in
                          let '(enhancedUrl, wd) :=
                            createBlobUrlFromBytes enhancedBytes mimeType wd in
                          (* Track for cleanup on next run *)
                          let wd := set_prevEnhancedUrlRef (Some enhancedUrl) wd in
                          Some (Resolved {| imageId := Backend.imageId enhanced;
                                            enhancedUrl := enhancedUrl |}, wd)
                    end
                end
            end
        end
    end.

End Upload.

(** Every object URL of the hook that is alive is the one that
    [prevEnhancedUrlRef] holds. *)
Definition urls_tracked (wd : Upload.World) : Prop :=
  ∀ url, is_Some (Upload.object_urls wd !! url) →
         Upload.prevEnhancedUrlRef wd = Some url.

(* ===================================================================== *)
(** ** utils/imageProcessing: what the filters keep *)
(* ===================================================================== *)

(** Two bitmaps of the same size with the same alpha channel. *)
Definition same_alpha (a b : ImageData) : Prop :=
  ∀ k, (0 ≤ k < width b * height b)%Z →
       Arr.lookup (data a) (4 * k + 3) = Arr.lookup (data b) (4 * k + 3).

(** A bitmap of a single colour: every pixel has the channels
    [colour 0 .. colour 3]. *)
Definition uniform (img : ImageData) (colour : Z → Z) : Prop :=
  ∀ k c, (0 ≤ k < width img * height img)%Z → (0 ≤ c < 4)%Z →
         Arr.lookup (data img) (4 * k + c) = Some (colour c).

(** What a filter has to keep for the next one to work on: the shape,
    bytes in the array, and the alpha channel. *)
Definition kept (out img : ImageData) : Prop :=
  same_shape out img ∧ byte_image out ∧ same_alpha out img.

(** A byte as a level between 0 and 1: [v / 255]. *)
Definition level (v : Z) : Q := Qred (inject_Z v / inject_Z 255).

(* ===================================================================== *)
(** ** components/ImageComparison: the control events *)
(* ===================================================================== *)

(** [handleReset] *)
Definition handleReset (ed : Editor) : Editor :=
  {| baseCanvasRef := baseCanvasRef ed;
     values := DEFAULT_ENHANCEMENT_VALUES;
     appliedCrop := None;
     crop := Crop.cancelCrop (crop ed) |}.

(** What the control surface can ask for: a slider emits a value for
    its key ([onChange], bound to [setValues]), or the Reset button is
    pressed ([onReset], bound to [handleReset]). *)
Inductive ControlEvent : Type :=
| Slide (key : Controls.Key) (v : JS.number)
| ResetAll.

Definition control (ed : Editor) (ev : ControlEvent) : Editor :=
  match ev with
  | Slide key v =>
      {| baseCanvasRef := baseCanvasRef ed;
         values := Controls.set (values ed) key v;
         appliedCrop := appliedCrop ed;
         crop := crop ed |}
  | ResetAll => handleReset ed
  end.

(** The value a slider emits lies between its [min] and its [max]. *)
Definition from_slider (ev : ControlEvent) : Prop :=
  match ev with
  | Slide key v => Controls.within key v = true
  | ResetAll => True
  end.


(* ===================================================================== *)
(** * Properties *)
(* ===================================================================== *)

(** ** Facts about the number model *)

Section NumberFacts.

Lemma Qlt_bool_iff (a b : Q) : JS.Qlt_bool a b = true ↔ (a < b)%Q.
Proof.
  unfold JS.Qlt_bool. rewrite negb_true_iff, <- not_true_iff_false, Qle_bool_iff.
  split; [apply Qnot_le_lt | apply Qlt_not_le].
Qed.

Lemma Qlt_bool_false_iff (a b : Q) : JS.Qlt_bool a b = false ↔ (b <= a)%Q.
Proof.
  unfold JS.Qlt_bool. rewrite negb_false_iff. apply Qle_bool_iff.
Qed.

Lemma Qlt_bool_spec (a b : Q) :
  reflect (a < b)%Q (JS.Qlt_bool a b).
Proof.
  destruct (JS.Qlt_bool a b) eqn:E; constructor.
  - by apply Qlt_bool_iff.
  - apply Qlt_bool_false_iff in E. by apply Qle_not_lt.
Qed.

Lemma Math_min_fin (a b : Q) :
  JS.Math_min (JS.Fin a) (JS.Fin b) = JS.Fin (if JS.Qlt_bool b a then b else a).
Proof. cbn. by destruct (JS.Qlt_bool b a). Qed.

Lemma Math_max_fin (a b : Q) :
  JS.Math_max (JS.Fin a) (JS.Fin b) = JS.Fin (if JS.Qlt_bool a b then b else a).
Proof. cbn. by destruct (JS.Qlt_bool a b). Qed.

(** [Math.max(0, Math.min(hi, v))] on finite arguments lies in
    [[0, hi]] and only moves a value that is outside that interval. *)
Lemma clamp_range (a b : Q) :
  (0 <= a)%Q →
  ∃ r, JS.Math_max 0 (JS.Math_min (JS.Fin a) (JS.Fin b)) = JS.Fin r
       ∧ (0 <= r <= a)%Q
       ∧ ((b < 0)%Q → r == 0)%Q
       ∧ ((a < b)%Q → r == a)%Q
       ∧ ((0 <= b <= a)%Q → r == b)%Q.
Proof.
  intros Ha. unfold JS.of_Z. rewrite Math_min_fin, Math_max_fin.
  eexists; split; [reflexivity|].
  destruct (Qlt_bool_spec b a) as [Hab|Hab];
    match goal with |- context [JS.Qlt_bool ?u ?v] =>
      destruct (Qlt_bool_spec u v) as [H0|H0] end;
    change (inject_Z 0) with 0%Q in *; repeat split; intros; lra.
Qed.

End NumberFacts.

(* ===================================================================== *)
(** ** Crop selection (hooks/useCropSelection) *)
(* ===================================================================== *)

Section CropFacts.
Import Crop.

(** The pointer position of an event with finite coordinates. *)
Lemma getRelativePos_mouse (dw dh cx cy : JS.number) (el : HTMLElement) :
  getRelativePos dw dh (MouseEvent cx cy) el =
    Some {| pos_x := JS.Math_max 0 (JS.Math_min dw (cx - bounds_left el));
            pos_y := JS.Math_max 0 (JS.Math_min dh (cy - bounds_top el)) |}.
Proof. reflexivity. Qed.

(** A touch event is located by its first touch point. *)
Lemma getRelativePos_touch (dw dh : JS.number) (t : Touch) (ts : list Touch)
    (el : HTMLElement) :
  getRelativePos dw dh (TouchEvent (t :: ts)) el =
    getRelativePos dw dh (MouseEvent (touch_clientX t) (touch_clientY t)) el.
Proof. reflexivity. Qed.

(** A zero display dimension is replaced by 1 in the scale factors. *)
Lemma scaleX_zero_display (nw : JS.number) : scaleX 0 nw = nw / 1.
Proof. reflexivity. Qed.

Lemma scaleX_nonzero_display (dw nw : JS.number) :
  JS.truthy dw = true → scaleX dw nw = nw / dw.
Proof. unfold scaleX, JS.or. by intros ->. Qed.

(** While inactive, or while no element carries [overlayRef], a
    pointer-down is ignored. *)
Lemma handleMouseDown_ignored (dw dh nw nh : JS.number) (e : PointerEvent) (s : State) :
  isActive s = false ∨ overlayRef s = None →
  handleMouseDown dw dh nw nh e s = s.
Proof.
  unfold handleMouseDown. intros [-> | ->]; [done|]. by destruct (isActive s).
Qed.

(** The scale factor takes the display extent onto the image extent, or
    within it. *)
Lemma scale_bound (dw nw : Q) :
  (0 <= dw)%Q → (0 <= nw)%Q →
  ∃ k, scaleX (JS.Fin dw) (JS.Fin nw) = JS.Fin k ∧ (0 <= k)%Q ∧ (dw * k <= nw)%Q.
Proof.
  intros Hdw Hnw. unfold scaleX, JS.or, JS.truthy.
  destruct (Qeq_bool dw 0) eqn:E; cbn [negb].
  - apply Qeq_bool_iff in E. eexists. split; [reflexivity|].
    rewrite Qred_correct. change (inject_Z 1) with 1%Q.
    split; [|rewrite E; lra].
    unfold Qdiv. change (/ 1)%Q with 1%Q. lra.
  - unfold JS.div. rewrite E. apply Qeq_bool_neq in E.
    eexists. split; [reflexivity|].
    rewrite Qred_correct.
    assert (0 < dw)%Q by (apply Qle_lt_or_eq in Hdw as [?|Heq]; [done|by rewrite Heq in E]).
    split.
    + apply Qle_shift_div_l; [done|]. lra.
    + assert (dw * (nw / dw) == nw)%Q as -> by (field; lra). lra.
Qed.

Lemma drag_extent (sx px k dw nw : Q) :
  (0 <= sx <= dw)%Q → (0 <= px <= dw)%Q → (0 <= k)%Q → (dw * k <= nw)%Q →
  ∃ qx qw,
    (JS.Math_min (JS.Fin sx) (JS.Fin px) * JS.Fin k)%js = JS.Fin qx
    ∧ (JS.Math_abs (JS.Fin px - JS.Fin sx) * JS.Fin k)%js = JS.Fin qw
    ∧ (0 <= qx)%Q ∧ (0 <= qw)%Q ∧ (qx + qw <= nw)%Q.
Proof.
  intros Hs Hp Hk Hkn. rewrite Math_min_fin.
  unfold JS.sub, JS.neg, JS.add, JS.Math_abs, JS.mul.
  destruct (Qlt_bool_spec px sx) as [Hlt|Hge];
    destruct (Qlt_bool_spec (Qred (px + Qred (- sx))) 0) as [Hneg|Hpos];
    rewrite !Qred_correct in *;
    (eexists _, _; split; [reflexivity|]; split; [reflexivity|]);
    rewrite !Qred_correct; repeat split; nra.
Qed.

End CropFacts.

(** C2 (as amended). [confirmCrop] returns null and leaves the whole
    selection state unchanged when there is no rect or the rect has
    [w < 4] or [h < 4]; otherwise it returns the rect, sets [isActive]
    and [isDragging] to false (the machine is Inert) and forgets the drag
    anchor, while the stored rect itself stays in place. *)
Theorem confirmCrop_spec (s : Crop.State) :
  match Crop.rect s with
  | None => Crop.confirmCrop s = (None, s)
  | Some r =>
      if orb (w r <? 4) (h r <? 4)
      then Crop.confirmCrop s = (None, s)
      else ∃ s', Crop.confirmCrop s = (Some r, s')
                 ∧ Crop.isActive s' = false
                 ∧ Crop.isDragging s' = false
                 ∧ Crop.phase s' = Crop.Inert
                 ∧ Crop.startRef s' = None
                 ∧ Crop.rect s' = Some r
                 ∧ Crop.overlayRef s' = Crop.overlayRef s
  end.
Proof.
  unfold Crop.confirmCrop.
  destruct (Crop.rect s) as [r|] eqn:Hr; [|done].
  destruct (w r <? 4) eqn:Hw; cbn [orb]; [done|].
  destruct (h r <? 4) eqn:Hh; [done|].
  eexists. split; [reflexivity|]. done.
Qed.

(** C2, the claim as stated fails: after a successful confirm the rect
    is still stored, it is not cleared to null. *)
Lemma confirmCrop_keeps_rect :
  let r := {| x := 0; y := 0; w := 10; h := 10 |} in
  let s := {| Crop.isActive := true; Crop.rect := Some r; Crop.isDragging := false;
              Crop.startRef := None; Crop.overlayRef := None |} in
  fst (Crop.confirmCrop s) = Some r ∧
  Crop.rect (snd (Crop.confirmCrop s)) ≠ None.
Proof. cbn. split; [reflexivity | discriminate]. Qed.



(* ===================================================================== *)
(** ** The control surface (components/ImageEnhancementControls) *)
(* ===================================================================== *)

Section ControlFacts.
Import Controls.

Lemma get_set_same (values : EnhancementValues) (key : Key) (v : JS.number) :
  get (set values key v) key = v.
Proof. by destruct key. Qed.

Lemma get_set_other (values : EnhancementValues) (key key' : Key) (v : JS.number) :
  key ≠ key' → get (set values key v) key' = get values key'.
Proof. by destruct key, key'. Qed.

Lemma in_range_spec (values : EnhancementValues) :
  in_range values = true ↔ ∀ key, within key (get values key) = true.
Proof.
  unfold in_range. rewrite forallb_forall. split.
  - intros H key. apply H. destruct key; cbn; tauto.
  - intros H key _. apply H.
Qed.

Lemma default_in_range : in_range DEFAULT_ENHANCEMENT_VALUES = true.
Proof. reflexivity. Qed.

End ControlFacts.




(* ===================================================================== *)
(** ** The upload actor (backend/main.mo) *)
(* ===================================================================== *)

Section BackendFacts.
Import Backend.

Implicit Types (session : UploadSession) (s : Actor).

Lemma finalize_check_None session n i :
  finalize_check session n i = None ↔
  ∀ j, (i ≤ j < i + n)%nat → is_Some (receivedChunks session !! j).
Proof.
  revert i. induction n as [|n IH]; intros i; cbn.
  - split; [intros _ j ?; lia | done].
  - destruct (receivedChunks session !! i) as [c|] eqn:Hi.
    + rewrite IH. split; intros H j Hj.
      * destruct (decide (j = i)) as [->|]; [by rewrite Hi | apply H; lia].
      * apply H; lia.
    + split; [done|]. intros H. destruct (H i ltac:(lia)) as [c Hc]. congruence.
Qed.

(** When the checking loop stops early, it stops at the least index
    without a chunk. *)
Lemma finalize_check_Some session n i k :
  finalize_check session n i = Some k →
  (i ≤ k < i + n)%nat ∧ receivedChunks session !! k = None ∧
  ∀ j, (i ≤ j < k)%nat → is_Some (receivedChunks session !! j).
Proof.
  revert i. induction n as [|n IH]; intros i; cbn; [done|].
  destruct (receivedChunks session !! i) as [c|] eqn:Hi.
  - intros (Hk & Hnone & Hlt)%IH. split; [lia|]. split; [done|].
    intros j Hj. destruct (decide (j = i)) as [->|]; [by rewrite Hi | apply Hlt; lia].
  - intros [= <-]. split; [lia|]. split; [done|]. intros j ?; lia.
Qed.

Lemma assembleChunks_loop_complete session n i acc :
  (∀ j, (i ≤ j < i + n)%nat → is_Some (receivedChunks session !! j)) →
  assembleChunks_loop session n i acc
    = inl (acc ++ ((λ j, default [] (receivedChunks session !! j)) <$> seq i n)).
Proof.
  revert i acc. induction n as [|n IH]; intros i acc H; cbn.
  - by rewrite app_nil_r.
  - destruct (H i ltac:(lia)) as [c Hc]. rewrite Hc.
    rewrite IH by (intros j ?; apply H; lia).
    rewrite <- app_assoc. cbn. by rewrite Nat.add_1_r.
Qed.

Lemma foldl_app_concat (acc : list N) (l : list (list N)) :
  foldl (λ result chunk, result ++ chunk) acc l = acc ++ concat l.
Proof.
  revert acc. induction l as [|c l IH]; intros acc; cbn.
  - by rewrite app_nil_r.
  - by rewrite IH, app_assoc.
Qed.

(** On a complete session [assembleChunks] does not trap and yields the
    chunks in index order. *)
Lemma assembleChunks_complete session :
  complete session → assembleChunks session = inl (reassembled session).
Proof.
  intros H. unfold assembleChunks.
  rewrite assembleChunks_loop_complete by (intros j ?; apply H; lia).
  rewrite foldl_app_concat. cbn. unfold reassembled.
  by rewrite Nat.sub_0_r.
Qed.

(** The pass-through enhancement never changes the bytes. *)
Lemma enhancement_pass_through (finalImage : list N) (mode : EnhancementMode) :
  (if negb (isEmpty finalImage) then
     let processed := applyEnhancement finalImage mode in
     if negb (isEmpty processed) then processed else finalImage
   else []) = finalImage.
Proof. by destruct finalImage. Qed.

Lemma ids_below_counter_step c s :
  ids_below_counter s → ids_below_counter (step c s).
Proof.
  intros Hinv. destruct c as [n ft|sid i d|sid m]; cbn.
  - intros k Hk. destruct (Hinv k Hk) as (j & ? & ->). exists j. cbn. split; [lia|done].
  - unfold uploadChunk. destruct (uploadSessions s !! sid); [|done].
    intros k Hk. destruct (Hinv k Hk) as (j & ? & ->). by exists j.
  - unfold finalizeUpload. destruct (uploadSessions s !! sid) as [session|]; [|done].
    destruct (negb _); [done|].
    destruct (finalize_check _ _ _); [done|].
    destruct (assembleChunks session) as [finalImage|]; [|done].
    intros k. cbn. rewrite lookup_insert. case_decide as Hk.
    + intros _. exists (nextImageId s). split; [lia|done].
    + intros Hs. destruct (Hinv k Hs) as (j & ? & ->). exists j. split; [lia|done].
Qed.

Lemma reachable_ids_below_counter s : reachable s → ids_below_counter s.
Proof.
  induction 1 as [|c s _ IH].
  - intros k [v Hv]. cbn in Hv. by rewrite lookup_empty in Hv.
  - by apply ids_below_counter_step.
Qed.

(** The id of the next image is not in use. *)
Lemma next_image_id_fresh s :
  reachable s → images s !! ("image-" +:+ toText (nextImageId s)) = None.
Proof.
  intros Hr. destruct (images s !! _) eqn:E; [|done].
  destruct (reachable_ids_below_counter s Hr _ (mk_is_Some _ _ E)) as (n & Hn & Heq).
  cbn in Heq. injection Heq as Heq. unfold toText in Heq.
  apply pretty_nat_inj in Heq. exfalso. lia.
Qed.

End BackendFacts.

(** C9 (as amended). [finalizeUpload] answers with an error string and
    no [ok] value, and leaves the actor (hence the stored images)
    unchanged, when the session does not exist, when the number of
    chunks received differs from [totalChunks], or when some index in
    [[0, totalChunks)] has no chunk.  Otherwise it answers with the
    chunks concatenated in increasing index order (the enhancement is a
    pass-through), stores these bytes under the id ["image-n"] for the
    current counter value [n], which no stored image of a reachable
    actor uses, removes the session and advances the counter. *)
Theorem finalizeUpload_spec (sessionId : string) (mode : Backend.EnhancementMode)
    (s : Backend.Actor) :
  match Backend.uploadSessions s !! sessionId with
  | None =>
      Backend.finalizeUpload sessionId mode s
      = Backend.Returned
          {| Backend.ok := None; Backend.err := "no upload session found" |} s
  | Some session =>
      let received := Backend.receivedChunks session in
      let total := Backend.totalChunks session in
      (size received ≠ total →
         Backend.finalizeUpload sessionId mode s
         = Backend.Returned
             {| Backend.ok := None; Backend.err := "all chunks not received yet" |} s)
      ∧ (size received = total → ¬ complete session →
         ∃ i, (i < total)%nat ∧ received !! i = None
              ∧ (∀ j, (j < i)%nat → is_Some (received !! j))
              ∧ Backend.finalizeUpload sessionId mode s
                = Backend.Returned
                    {| Backend.ok := None;
                       Backend.err := "missing chunk at index " +:+ Backend.toText i |} s)
      ∧ (size received = total → complete session →
         let imageId := "image-" +:+ Backend.toText (Backend.nextImageId s) in
         Backend.finalizeUpload sessionId mode s
         = Backend.Returned
             {| Backend.ok := Some {| Backend.imageId := imageId;
                                      Backend.enhancedImage := reassembled session |};
                Backend.err := "" |}
             {| Backend.images := <[imageId := reassembled session]> (Backend.images s);
                Backend.uploadSessions := delete sessionId (Backend.uploadSessions s);
                Backend.nextImageId := Backend.nextImageId s + 1 |}
         ∧ (Backend.reachable s → Backend.images s !! imageId = None))
  end.
Proof.
  unfold Backend.finalizeUpload.
  destruct (Backend.uploadSessions s !! sessionId) as [session|]; [|done].
  cbn zeta. split; [|split].
  - intros Hne. apply Nat.eqb_neq in Hne. by rewrite Hne.
  - intros Heq Hnc. apply Nat.eqb_eq in Heq. rewrite Heq. cbn [negb].
    destruct (Backend.finalize_check session _ 0) as [i|] eqn:Hck.
    + apply finalize_check_Some in Hck as (Hi & Hnone & Hlt).
      exists i. rewrite Nat.sub_0_r in Hi.
      repeat split; [lia | done | intros j ?; apply Hlt; lia].
    + exfalso. apply Hnc. intros j Hj.
      eapply finalize_check_None; [exact Hck | lia].
  - intros Heq Hc. apply Nat.eqb_eq in Heq. rewrite Heq. cbn [negb].
    assert (Backend.finalize_check session (Backend.totalChunks session - 0) 0 = None)
      as -> by (apply finalize_check_None; intros j ?; apply Hc; lia).
    rewrite assembleChunks_complete by done.
    rewrite enhancement_pass_through.
    split; [done | apply next_image_id_fresh].
Qed.

(** A complete upload of two chunks, finalized. *)
Lemma finalizeUpload_spec_witness :
  let s := Backend.step (Backend.CallUploadChunk "Session-0" 0 [7%N; 8%N])
             (Backend.step (Backend.CallUploadChunk "Session-0" 1 [9%N])
                (Backend.step (Backend.CallInitUpload 2 "image/png") Backend.init)) in
  ∃ session,
    Backend.uploadSessions s !! "Session-0" = Some session
    ∧ size (Backend.receivedChunks session) = Backend.totalChunks session
    ∧ complete session
    ∧ Backend.reachable s
    ∧ Backend.finalizeUpload "Session-0" Backend.standard s
      = Backend.Returned
          {| Backend.ok := Some {| Backend.imageId := "image-1";
                                   Backend.enhancedImage := [7%N; 8%N; 9%N] |};
             Backend.err := "" |}
          {| Backend.images := {[ "image-1" := [7%N; 8%N; 9%N] ]};
             Backend.uploadSessions := ∅;
             Backend.nextImageId := 2 |}.
Proof.
  intros s.
  pose proof (finalizeUpload_spec "Session-0" Backend.standard s) as H.
  destruct (Backend.uploadSessions s !! "Session-0") as [session|] eqn:Hs;
    [|by vm_compute in Hs].
  exists session. vm_compute in Hs. injection Hs as <-.
  cbv zeta in H.
  match type of H with
  | _ ∧ _ ∧ (?P → complete ?sess → _) =>
      assert (Hsize : P) by reflexivity;
      assert (Hc : complete sess)
        by (intros [|[|i]] Hi; [by eexists | by eexists | cbn in Hi; lia])
  end.
  assert (Hr : Backend.reachable s) by (repeat constructor).
  destruct H as (_ & _ & H). destruct (H Hsize Hc) as [Hf _].
  split; [reflexivity|]. split; [exact Hsize|]. split; [exact Hc|].
  split; [exact Hr|]. rewrite Hf. reflexivity.
Defined.

(** C9, the claim as stated fails: with chunk 0 of a one-chunk session
    received, every index in [[0, totalChunks)] is there, and yet a
    stray chunk makes [finalizeUpload] answer with an error. *)
Lemma finalizeUpload_stray_chunk :
  ∃ session,
    Backend.uploadSessions overfull_actor !! "Session-0" = Some session
    ∧ Backend.totalChunks session = 1%nat
    ∧ Backend.receivedChunks session !! 0%nat = Some [1%N]
    ∧ Backend.finalizeUpload "Session-0" Backend.standard overfull_actor
      = Backend.Returned
          {| Backend.ok := None; Backend.err := "all chunks not received yet" |}
          overfull_actor.
Proof. eexists. repeat split; reflexivity. Qed.

(* ===================================================================== *)
(** ** Arrays and loops *)
(* ===================================================================== *)

Local Close Scope js_scope.

Section ArrayFacts.

Lemma range_from_seqZ (start : Z) (n : nat) :
  range_from start n = seqZ start (Z.of_nat n).
Proof.
  revert start. induction n as [|n IH]; intros start; [done|].
  rewrite seqZ_cons by lia. cbn [range_from]. rewrite IH.
  f_equal. f_equal; lia.
Qed.

Lemma range_seqZ (start len : Z) : range start len = seqZ start len.
Proof.
  unfold range. rewrite range_from_seqZ.
  destruct (decide (0 ≤ len)%Z).
  - by rewrite Z2Nat.id.
  - rewrite Z2Nat.nonpos by lia. by rewrite !seqZ_nil by lia.
Qed.

Lemma range_snoc (start k : Z) :
  (0 ≤ k)%Z → range start (k + 1) = range start k ++ [(start + k)%Z].
Proof.
  intros Hk. rewrite !range_seqZ. rewrite seqZ_app by lia.
  f_equal.
Qed.

Lemma length_range (start len : Z) : length (range start len) = Z.to_nat len.
Proof. rewrite range_seqZ. apply length_seqZ. Qed.

Lemma lookup_range (start len i : Z) :
  (0 ≤ i < len)%Z → range start len !! Z.to_nat i = Some (start + i)%Z.
Proof.
  intros Hi. rewrite range_seqZ.
  rewrite lookup_seqZ. split; [f_equal; lia | lia].
Qed.

Lemma Arr_length_set (arr : list Z) (i : Z) (v : JS.number) :
  length (Arr.set arr i v) = length arr.
Proof. unfold Arr.set. case_decide; [apply length_insert | done]. Qed.

Lemma Arr_lookup_set_eq (arr : list Z) (i : Z) (v : JS.number) :
  (0 ≤ i < Z.of_nat (length arr))%Z →
  Arr.lookup (Arr.set arr i v) i = Some (JS.ToUint8Clamp v).
Proof.
  intros Hi. unfold Arr.lookup, Arr.set. rewrite !decide_True by lia.
  apply list_lookup_insert_eq. lia.
Qed.

Lemma Arr_lookup_set_ne (arr : list Z) (i j : Z) (v : JS.number) :
  i ≠ j → Arr.lookup (Arr.set arr i v) j = Arr.lookup arr j.
Proof.
  intros Hne. unfold Arr.lookup, Arr.set.
  destruct (decide (0 ≤ j)%Z); [|done].
  destruct (decide (0 ≤ i)%Z); [|done].
  apply list_lookup_insert_ne. lia.
Qed.

Lemma Arr_lookup_Some_lt (arr : list Z) (i v : Z) :
  Arr.lookup arr i = Some v → (0 ≤ i < Z.of_nat (length arr))%Z.
Proof.
  unfold Arr.lookup. case_decide; [|done].
  intros Hl%lookup_lt_Some. lia.
Qed.

Lemma Arr_lookup_lt (arr : list Z) (i : Z) :
  (0 ≤ i < Z.of_nat (length arr))%Z → is_Some (Arr.lookup arr i).
Proof.
  intros Hi. unfold Arr.lookup. rewrite decide_True by lia.
  apply lookup_lt_is_Some. lia.
Qed.

Lemma length_zeros (n : nat) : length (Arr.zeros n) = n.
Proof. apply length_replicate. Qed.

(** A byte survives the conversion of a store unchanged. *)
Lemma ToUint8Clamp_byte (v : Z) :
  (0 ≤ v ≤ 255)%Z → JS.ToUint8Clamp (JS.of_Z v) = v.
Proof.
  intros Hv. unfold JS.ToUint8Clamp, JS.of_Z.
  destruct (Qle_bool (inject_Z v) 0) eqn:H0.
  { apply Qle_bool_iff in H0. change 0%Q with (inject_Z 0) in H0.
    rewrite <- Zle_Qle in H0. lia. }
  destruct (Qle_bool 255 (inject_Z v)) eqn:H255.
  { apply Qle_bool_iff in H255. change 255%Q with (inject_Z 255) in H255.
    rewrite <- Zle_Qle in H255. lia. }
  unfold JS.round_half_even. rewrite Qfloor_Z.
  assert (inject_Z v - inject_Z v == 0)%Q as E by ring.
  rewrite E. reflexivity.
Qed.

(** Row-major indexing is injective on the columns of a row. *)
Lemma row_major_inj (w x y x' y' : Z) :
  0 ≤ x < w → 0 ≤ x' < w → y' * w + x' = y * w + x → x' = x ∧ y' = y.
Proof.
  intros Hx Hx' Heq.
  destruct (Z.div_mod_unique w y' y x' x) as [-> ->]; [lia | lia | lia | done].
Qed.

End ArrayFacts.

(* ===================================================================== *)
(** ** The convolution (applyConvolution) *)
(* ===================================================================== *)

Section ConvolutionFacts.

Lemma JS_mul_comm (u v : JS.number) : (u * v = v * u)%js.
Proof.
  destruct u as [p| | |], v as [q| | |]; try reflexivity.
  cbn. f_equal. apply Qred_complete. ring.
Qed.

Variable img : ImageData.
Variable kernel : list JS.number.
Variable divisor : JS.number.

(** The two inner loops add up the nine weighted samples of each colour
    channel. *)
Lemma kernel_loops (x y : Z) :
  foldl (λ rgb ky,
    foldl (λ '(r, g, b) kx,
      let px := Z.min (width img - 1) (Z.max 0 (x + kx)) in
      let py := Z.min (height img - 1) (Z.max 0 (y + ky)) in
      let idx := (py * width img + px) * 4 in
      let kIdx := (ky + 1) * 3 + (kx + 1) in
      (r + Arr.get (data img) idx * Arr.kernel_get kernel kIdx,
       g + Arr.get (data img) (idx + 1) * Arr.kernel_get kernel kIdx,
       b + Arr.get (data img) (idx + 2) * Arr.kernel_get kernel kIdx)%js)
      rgb kernel_offsets)
    (0, 0, 0)%js kernel_offsets
  = (weighted_sum img kernel x y 0, weighted_sum img kernel x y 1,
     weighted_sum img kernel x y 2).
Proof.
  unfold weighted_sum, sample, clamp_coord.
  change (range 0 9) with [0; 1; 2; 3; 4; 5; 6; 7; 8]%Z.
  cbn [foldl kernel_offsets].
  rewrite !Z.add_0_r.
  repeat (rewrite (JS_mul_comm (Arr.kernel_get kernel _) _)).
  reflexivity.
Qed.

(** One pass of the loop body, at pixel [(x, y)]. *)
Lemma convolution_step (x y : Z) (output : list Z) :
  wf_image img → (0 ≤ x < width img)%Z → (0 ≤ y < height img)%Z →
  convolved_upto img kernel divisor (y * width img + x) output →
  convolved_upto img kernel divisor (y * width img + x + 1)
    (let '(r, g, b) := (weighted_sum img kernel x y 0, weighted_sum img kernel x y 1,
                        weighted_sum img kernel x y 2) in
     let outIdx := ((y * width img + x) * 4)%Z in
     let output := Arr.set output outIdx (clamp (r / divisor)%js) in
     let output := Arr.set output (outIdx + 1) (clamp (g / divisor)%js) in
     let output := Arr.set output (outIdx + 2) (clamp (b / divisor)%js) in
     let output := Arr.set output (outIdx + 3) (Arr.get (data img) (outIdx + 3)) in
     output).
Proof.
  intros (Hw & Hh & Hlen) Hx Hy [Hl Hinv]. cbn zeta.
  set (o := ((y * width img + x) * 4)%Z).
  assert (0 ≤ o ∧ o + 3 < Z.of_nat (length output))%Z as Ho by (subst o; nia).
  split; [by rewrite !Arr_length_set|].
  intros x' y' ch Hx' Hy' Hn Hch.
  destruct (decide (y' * width img + x' = y * width img + x)) as [Heq|Hne].
  - destruct (row_major_inj (width img) x y x' y') as [-> ->]; [lia..|]. fold o.
    unfold convolved, convolved_channel, clamp, clamp_0_255.
    assert (ch = 0 ∨ ch = 1 ∨ ch = 2 ∨ ch = 3)%Z as [-> | [-> | [-> | ->]]] by lia.
    + rewrite Z.add_0_r.
      rewrite !Arr_lookup_set_ne by lia.
      rewrite Arr_lookup_set_eq by lia. by rewrite decide_False by lia.
    + rewrite !Arr_lookup_set_ne by lia.
      rewrite Arr_lookup_set_eq by (rewrite ?Arr_length_set; lia).
      by rewrite decide_False by lia.
    + rewrite !Arr_lookup_set_ne by lia.
      rewrite Arr_lookup_set_eq by (rewrite ?Arr_length_set; lia).
      by rewrite decide_False by lia.
    + rewrite Arr_lookup_set_eq by (rewrite ?Arr_length_set; lia).
      by rewrite decide_True by lia.
  - rewrite !Arr_lookup_set_ne by (subst o; lia).
    apply Hinv; lia.
Qed.

Lemma applyConvolution_unfold :
  applyConvolution img kernel divisor
  = {| width := width img; height := height img;
       data := foldl (λ output y,
                 foldl (convolution_body img kernel divisor y) output
                   (range 0 (width img)))
                 (Arr.zeros (length (data img))) (range 0 (height img)) |}.
Proof. reflexivity. Qed.

Lemma convolution_body_step (x y : Z) (output : list Z) :
  wf_image img → 0 ≤ x < width img → 0 ≤ y < height img →
  convolved_upto img kernel divisor (y * width img + x) output →
  convolved_upto img kernel divisor (y * width img + x + 1)
    (convolution_body img kernel divisor y output x).
Proof.
  intros Hwf Hx Hy Hinv. unfold convolution_body. cbv zeta.
  rewrite kernel_loops. by apply convolution_step.
Qed.

(** The inner pixel loop completes one row. *)
Lemma convolution_row (y : Z) (k : nat) (output : list Z) :
  wf_image img → 0 ≤ y < height img → Z.of_nat k ≤ width img →
  convolved_upto img kernel divisor (y * width img) output →
  convolved_upto img kernel divisor (y * width img + Z.of_nat k)
    (foldl (convolution_body img kernel divisor y) output (range 0 (Z.of_nat k))).
Proof.
  intros Hwf Hy. induction k as [|k IH]; intros Hk Hinv.
  - by rewrite Z.add_0_r.
  - rewrite Nat2Z.inj_succ, <- Z.add_1_r, range_snoc, foldl_app by lia.
    cbn [foldl]. rewrite Z.add_0_l, Z.add_assoc.
    apply convolution_body_step; [done | lia | done |].
    apply IH; [lia | done].
Qed.

(** The outer loop completes the rows one after the other. *)
Lemma convolution_rows (j : nat) (output : list Z) :
  wf_image img → Z.of_nat j ≤ height img →
  convolved_upto img kernel divisor 0 output →
  convolved_upto img kernel divisor (Z.of_nat j * width img)
    (foldl (λ output y,
       foldl (convolution_body img kernel divisor y) output (range 0 (width img)))
       output (range 0 (Z.of_nat j))).
Proof.
  intros Hwf. induction j as [|j IH]; intros Hj Hinv.
  - done.
  - rewrite Nat2Z.inj_succ, <- Z.add_1_r, range_snoc, foldl_app by lia.
    cbn [foldl]. rewrite Z.add_0_l.
    pose proof (convolution_row (Z.of_nat j) (Z.to_nat (width img))) as Hrow.
    rewrite Z2Nat.id in Hrow by (destruct Hwf; lia).
    replace ((Z.of_nat j + 1) * width img)
      with (Z.of_nat j * width img + width img) by lia.
    apply Hrow; [done | lia | lia |].
    apply IH; [lia | done].
Qed.

End ConvolutionFacts.



(** C4. Each filter returns its input, as it is, at its neutral
    parameter: the numeric path is not run. *)
Theorem neutral_filters_identity (img : ImageData) :
  applyBrightness img 0%js = img
  ∧ applyContrast img 0%js = img
  ∧ applySaturation img 100%js = img
  ∧ applySharpen img 0%js = img
  ∧ applyNoiseReduction img 0%js = Some img.
Proof. repeat split. Qed.

(** Sharpening and noise reduction are skipped for every intensity that
    is not positive. *)
Lemma applySharpen_nonpositive (img : ImageData) (intensity : JS.number) :
  (intensity <=? 0)%js = true → applySharpen img intensity = img.
Proof. unfold applySharpen. by intros ->. Qed.

Lemma applyNoiseReduction_nonpositive (img : ImageData) (intensity : JS.number) :
  (intensity <=? 0)%js = true → applyNoiseReduction img intensity = Some img.
Proof. unfold applyNoiseReduction. by intros ->. Qed.

(* ===================================================================== *)
(** ** Bitmaps *)
(* ===================================================================== *)

Section BitmapFacts.
Import Canvas.

Lemma length_render (w h : Z) (f : Z → Z → Z → Z) :
  length (render w h f) = Z.to_nat (4 * w * h).
Proof. unfold render. by rewrite length_fmap, length_range. Qed.

(** The pixel and the channel of a position in the byte array. *)
Lemma unflatten (w x y ch : Z) :
  0 ≤ x < w → 0 ≤ ch < 4 →
  (4 * (y * w + x) + ch) `mod` 4 = ch
  ∧ ((4 * (y * w + x) + ch) `div` 4) `mod` w = x
  ∧ ((4 * (y * w + x) + ch) `div` 4) `div` w = y.
Proof.
  intros Hx Hch.
  assert ((4 * (y * w + x) + ch) `div` 4 = y * w + x) as ->
    by (symmetry; apply (Z.div_unique _ 4 _ ch); lia).
  split; [symmetry; apply (Z.mod_unique _ 4 (y * w + x) ch); lia|].
  split.
  - symmetry. apply (Z.mod_unique _ w y x); lia.
  - symmetry. apply (Z.div_unique _ w y x); lia.
Qed.

Lemma lookup_render (w h : Z) (f : Z → Z → Z → Z) (x y ch : Z) :
  0 ≤ x < w → 0 ≤ y < h → 0 ≤ ch < 4 →
  Arr.lookup (render w h f) (4 * (y * w + x) + ch) = Some (f x y ch).
Proof.
  intros Hx Hy Hch. unfold Arr.lookup, render.
  rewrite decide_True by nia.
  rewrite list_lookup_fmap, lookup_range by nia. cbn [fmap option_fmap option_map].
  rewrite Z.add_0_l.
  by destruct (unflatten w x y ch Hx Hch) as (-> & -> & ->).
Qed.

(** Two renderings agree when their pixels do. *)
Lemma render_ext (w h : Z) (f g : Z → Z → Z → Z) :
  0 ≤ w →
  (∀ x y ch, 0 ≤ x < w → 0 ≤ y < h → 0 ≤ ch < 4 → f x y ch = g x y ch) →
  render w h f = render w h g.
Proof.
  intros Hw Hfg. unfold render. apply list_fmap_ext.
  intros i k Hk. rewrite range_seqZ in Hk. apply lookup_seqZ in Hk as [-> Hi].
  assert (0 < w) by (destruct (decide (w = 0)) as [->|]; lia).
  apply Hfg.
  - apply Z.mod_pos_bound. lia.
  - split; [apply Z.div_pos; [apply Z.div_pos|]; lia|].
    apply Z.div_lt_upper_bound; [lia|].
    apply Z.div_lt_upper_bound; lia.
  - apply Z.mod_pos_bound. lia.
Qed.

Lemma wf_render (w h : Z) (f : Z → Z → Z → Z) :
  0 ≤ w → 0 ≤ h → wf_image {| width := w; height := h; data := render w h f |}.
Proof.
  intros Hw Hh. repeat split; cbn; [done | done |].
  rewrite length_render. nia.
Qed.

Lemma pixel_render (w h : Z) (f : Z → Z → Z → Z) (x y ch : Z) :
  pixel {| width := w; height := h; data := render w h f |} x y ch
  = if decide (0 ≤ x < w ∧ 0 ≤ y < h ∧ 0 ≤ ch < 4) then f x y ch else 0.
Proof.
  unfold pixel. cbn [width height data].
  case_decide as Hr; [|done].
  by rewrite lookup_render by lia.
Qed.

(** A well-formed bitmap is the rendering of its own pixels. *)
Lemma render_pixel (img : ImageData) :
  wf_image img → render (width img) (height img) (pixel img) = data img.
Proof.
  intros (Hw & Hh & Hlen).
  apply (list_eq_same_length _ _ (length (data img)));
    [done | rewrite length_render; lia |].
  intros i u v Hi Hu Hv.
  unfold render in Hu. rewrite list_lookup_fmap, range_seqZ in Hu.
  destruct (seqZ 0 (4 * width img * height img) !! i) as [k|] eqn:Hk; [|done].
  apply lookup_seqZ in Hk as [-> Hk]. cbn in Hu. injection Hu as <-.
  rewrite Z.add_0_l.
  assert (0 < width img) by (destruct (decide (width img = 0)) as [E|]; [rewrite E in Hk|]; lia).
  set (p := Z.of_nat i `div` 4).
  assert (0 ≤ p < width img * height img)
    by (subst p; split; [apply Z.div_pos; lia | apply Z.div_lt_upper_bound; lia]).
  pose proof (Z.mod_pos_bound p (width img) ltac:(lia)).
  pose proof (Z.mod_pos_bound (Z.of_nat i) 4 ltac:(lia)).
  pose proof (Z.div_mod p (width img) ltac:(lia)).
  pose proof (Z.div_mod (Z.of_nat i) 4 ltac:(lia)).
  assert (0 ≤ p `div` width img < height img)
    by (split; [apply Z.div_pos; lia | apply Z.div_lt_upper_bound; lia]).
  unfold pixel. rewrite decide_True by lia.
  replace (4 * (p `div` width img * width img + p `mod` width img)
           + Z.of_nat i `mod` 4) with (Z.of_nat i) by (fold p in H4; lia).
  unfold Arr.lookup. rewrite decide_True by lia.
  by rewrite Nat2Z.id, Hv.
Qed.

(** Drawing never changes the size of the destination canvas. *)
Lemma draw_dimensions rasterize (cv : Canvas) (image : ImageData)
    (sx sy sw sh dx dy dw dh : JS.number) :
  width (draw rasterize cv image sx sy sw sh dx dy dw dh) = width (bitmap cv)
  ∧ height (draw rasterize cv image sx sy sw sh dx dy dw dh) = height (bitmap cv).
Proof.
  unfold draw. destruct (negb _); [done|].
  repeat (match goal with
          | |- context [match ?o with Some _ => _ | None => _ end] => destruct o
          | |- context [decide ?P] => destruct (decide P)
          end); done.
Qed.

Lemma wf_blank (w h : Z) : 0 ≤ w → 0 ≤ h → wf_image (blank w h).
Proof. apply wf_render. Qed.

Lemma wf_draw rasterize (cv : Canvas) (image : ImageData)
    (sx sy sw sh dx dy dw dh : JS.number) :
  wf_image (bitmap cv) →
  wf_image (draw rasterize cv image sx sy sw sh dx dy dw dh).
Proof.
  intros Hwf. unfold draw. destruct (negb _); [done|].
  destruct Hwf as (Hw & Hh & _).
  repeat (match goal with
          | |- context [match ?o with Some _ => _ | None => _ end] => destruct o
          | |- context [decide ?P] => destruct (decide P)
          end); by apply wf_render.
Qed.

Lemma int_of_of_Z (z : Z) : int_of (JS.of_Z z) = Some z.
Proof.
  unfold int_of, JS.of_Z. rewrite Qfloor_Z.
  by rewrite (proj2 (Qeq_bool_iff _ _) (Qeq_refl _)).
Qed.

Lemma to_dimension_of_Z (z : Z) : 0 ≤ z → JS.to_dimension (JS.of_Z z) = z.
Proof. intros Hz. unfold JS.to_dimension, JS.of_Z. rewrite Qfloor_Z. lia. Qed.

(** An unscaled draw at the origin of a canvas of the size of the image
    copies the image. *)
Lemma draw_copy rasterize (img : ImageData) :
  wf_image img →
  draw rasterize (fresh (width img) (height img)) img
    0%js 0%js (JS.of_Z (width img)) (JS.of_Z (height img))
    0%js 0%js (JS.of_Z (width img)) (JS.of_Z (height img))
  = img.
Proof.
  intros Hwf. pose proof Hwf as (Hw & Hh & Hlen).
  unfold draw. cbn [forallb finite JS.of_Z negb andb fresh transform bitmap
                    grid_transform foldl].
  change 0%js with (JS.of_Z 0).
  rewrite !int_of_of_Z. rewrite decide_True by lia.
  destruct img as [w h d]. cbn [width height data blank] in *. f_equal.
  etransitivity; [|exact (render_pixel {| width := w; height := h; data := d |} Hwf)].
  apply render_ext; [done|]. intros x y ch Hx Hy Hch.
  unfold user_pixel. cbn [ma mb mc md me mf identity width height].
  replace (((1 * 1 - 0 * 0) * (1 * (2 * x + 1 - 2 * 0) - 0 * (2 * y + 1 - 2 * 0))) `div` 2)
    with x by (apply (Z.div_unique _ 2 x 1); lia).
  replace (((1 * 1 - 0 * 0) * (1 * (2 * y + 1 - 2 * 0) - 0 * (2 * x + 1 - 2 * 0))) `div` 2)
    with y by (apply (Z.div_unique _ 2 y 1); lia).
  cbn [width height] in Hx, Hy.
  rewrite decide_True by lia. f_equal; lia.
Qed.

End BitmapFacts.

(* ===================================================================== *)
(** ** Running canvas programs *)
(* ===================================================================== *)

(** Programs are run on a store [σ ++ l]: [σ] holds the canvases that
    exist when the program starts, [l] the ones it has created so far,
    whose handles are [length σ + 0], [length σ + 1], ... *)

Section StoreFacts.
Import Canvas.

Context {A : Type}.
Implicit Types (σ l : Store) (cv : Canvas).

Lemma run_ret {B : Type} (b : B) (k : B → M A) (τ : Store) :
  (mret b ≫= k) τ = k b τ.
Proof. reflexivity. Qed.

Lemma run_assoc {B C : Type} (m : M B) (f : B → M C) (k : C → M A) (τ : Store) :
  ((m ≫= f) ≫= k) τ = (m ≫= λ b, f b ≫= k) τ.
Proof.
  unfold mbind, M_bind. by destruct (m τ) as [[b τ']|].
Qed.

Lemma run_lift {B : Type} (o : option B) (b : B) (k : B → M A) (τ : Store) :
  o = Some b → (lift o ≫= k) τ = k b τ.
Proof. by intros ->. Qed.

Lemma run_create (k : Handle → M A) σ l :
  (createElement_canvas ≫= k) (σ ++ l)
  = k (length σ + length l)%nat (σ ++ (l ++ [fresh 300 150])).
Proof.
  unfold mbind, M_bind, createElement_canvas.
  by rewrite length_app, app_assoc.
Qed.

Lemma run_read_new (k : Canvas → M A) σ l (i : nat) cv :
  l !! i = Some cv → (read (length σ + i)%nat ≫= k) (σ ++ l) = k cv (σ ++ l).
Proof.
  intros Hi. unfold mbind, M_bind, read.
  by rewrite lookup_app_r, Nat.add_comm, Nat.add_sub, Hi by lia.
Qed.

Lemma run_read_old (k : Canvas → M A) σ l (c : Handle) cv :
  σ !! c = Some cv → (read c ≫= k) (σ ++ l) = k cv (σ ++ l).
Proof.
  intros Hc. unfold mbind, M_bind, read.
  by rewrite lookup_app_l, Hc by (by eapply lookup_lt_Some).
Qed.

Lemma run_write_new (k : unit → M A) σ l (i : nat) cv cv' :
  l !! i = Some cv →
  (write (length σ + i)%nat cv' ≫= k) (σ ++ l) = k tt (σ ++ <[i := cv']> l).
Proof.
  intros Hi. unfold mbind, M_bind, write.
  rewrite lookup_app_r by lia.
  replace (length σ + i - length σ)%nat with i by lia. rewrite Hi.
  by rewrite insert_app_r.
Qed.

End StoreFacts.

(** Run the next call of a canvas program. *)
Ltac run_step :=
  first
    [ rewrite run_ret
    | rewrite run_assoc
    | rewrite run_create; cbn [length app Nat.add]
    | erewrite run_read_new by reflexivity
    | erewrite run_read_old by eassumption
    | erewrite run_write_new by reflexivity; cbn [list_insert insert]
    | erewrite run_lift by first [eassumption | reflexivity]
    | progress unfold Canvas.get_width, Canvas.get_height, Canvas.set_width,
        Canvas.set_height, Canvas.set_imageSmoothingEnabled,
        Canvas.set_imageSmoothingQuality, Canvas.translate, Canvas.rotate,
        Canvas.push_xform, Canvas.drawImage3, Canvas.drawImage5,
        Canvas.drawImage9, Canvas.getImageData, Canvas.putImageData ].

Ltac run := repeat run_step; cbn [Canvas.bitmap Canvas.transform
  Canvas.imageSmoothingEnabled Canvas.imageSmoothingQuality Canvas.fresh
  Canvas.with_bitmap Canvas.blank width height app].

Section RotateFacts.
Import Canvas.

Variable rasterize :
  bool → Quality → list Xform → ImageData →
  JS.number → JS.number → JS.number → JS.number →
  JS.number → JS.number → JS.number → JS.number →
  ImageData → Z → Z → Z → Z.

Lemma quarter_turns_cw : quarter_turns (Math_PI / 2)%js = Some 1.
Proof. reflexivity. Qed.

Lemma quarter_turns_ccw : quarter_turns (JS.neg Math_PI / 2)%js = Some (-1).
Proof. reflexivity. Qed.

(** Drawing under the transform that [rotate90] sets up turns the image
    by a quarter. *)
Lemma draw_quarter_turn (img : ImageData) (clockwise : bool) (e : bool) (q : Quality) :
  wf_image img →
  draw rasterize
    {| bitmap := blank (height img) (width img);
       transform :=
         if clockwise
         then [Translate (JS.of_Z (height img)) 0%js; Rotate (Math_PI / 2)%js]
         else [Translate 0%js (JS.of_Z (width img)); Rotate (JS.neg Math_PI / 2)%js];
       imageSmoothingEnabled := e; imageSmoothingQuality := q |}
    img 0%js 0%js (JS.of_Z (width img)) (JS.of_Z (height img))
    0%js 0%js (JS.of_Z (width img)) (JS.of_Z (height img))
  = quarter_turn img clockwise.
Proof.
  intros (Hw & Hh & Hlen).
  unfold draw, quarter_turn.
  cbn [forallb finite JS.of_Z negb andb transform bitmap blank width height].
  change 0%js with (JS.of_Z 0).
  assert (grid_transform
            (if clockwise
             then [Translate (JS.of_Z (height img)) (JS.of_Z 0); Rotate (Math_PI / 2)%js]
             else [Translate (JS.of_Z 0) (JS.of_Z (width img)); Rotate (JS.neg Math_PI / 2)%js])
          = Some (if clockwise
                  then {| ma := 0; mb := 1; mc := -1; md := 0; me := height img; mf := 0 |}
                  else {| ma := 0; mb := -1; mc := 1; md := 0; me := 0; mf := width img |}))
    as ->.
  { destruct clockwise; unfold grid_transform; cbn [foldl mbind option_bind apply_xform];
      rewrite !int_of_of_Z; cbn [identity ma mb mc md me mf];
      rewrite ?quarter_turns_cw, ?quarter_turns_ccw;
      cbn [mbind option_bind ma mb mc md me mf]; f_equal; f_equal; lia. }
  rewrite !int_of_of_Z. rewrite decide_True by lia.
  f_equal. apply render_ext; [done|]. intros X Y ch HX HY Hch.
  unfold user_pixel. destruct clockwise; cbn [ma mb mc md me mf].
  - replace (((0 * 0 - 1 * -1) * (0 * (2 * X + 1 - 2 * height img) - -1 * (2 * Y + 1 - 2 * 0))) `div` 2)
      with Y by (apply (Z.div_unique _ 2 Y 1); lia).
    replace (((0 * 0 - 1 * -1) * (0 * (2 * Y + 1 - 2 * 0) - 1 * (2 * X + 1 - 2 * height img))) `div` 2)
      with (height img - 1 - X) by (apply (Z.div_unique _ 2 _ 1); lia).
    rewrite decide_True by lia. f_equal; lia.
  - replace (((0 * 0 - -1 * 1) * (0 * (2 * X + 1 - 2 * 0) - 1 * (2 * Y + 1 - 2 * width img))) `div` 2)
      with (width img - 1 - Y) by (apply (Z.div_unique _ 2 _ 1); lia).
    replace (((0 * 0 - -1 * 1) * (0 * (2 * Y + 1 - 2 * width img) - -1 * (2 * X + 1 - 2 * 0))) `div` 2)
      with X by (apply (Z.div_unique _ 2 X 1); lia).
    rewrite decide_True by lia. f_equal; lia.
Qed.

(** [rotate90] creates one canvas, which holds the quarter turn of the
    bitmap of its argument, and touches no other canvas. *)
Lemma rotate90_run (σ : Store) (canvas : Handle) (cv : Canvas) (clockwise : bool) :
  σ !! canvas = Some cv → wf_image (bitmap cv) →
  ∃ out, rotate90 rasterize canvas clockwise σ = Some (length σ, σ ++ [out])
         ∧ bitmap out = quarter_turn (bitmap cv) clockwise.
Proof.
  intros Hc Hwf. pose proof Hwf as (Hw & Hh & Hlen).
  replace (rotate90 rasterize canvas clockwise σ)
    with (rotate90 rasterize canvas clockwise (σ ++ [])) by (by rewrite app_nil_r).
  unfold rotate90. run. destruct clockwise; run.
  all: rewrite !to_dimension_of_Z by done.
  all: unfold mret, M_ret; rewrite Nat.add_0_r; eexists; split; [reflexivity|].
  all: cbn [bitmap].
  - exact (draw_quarter_turn (bitmap cv) true _ _ Hwf).
  - exact (draw_quarter_turn (bitmap cv) false _ _ Hwf).
Qed.

Lemma wf_quarter_turn (img : ImageData) (clockwise : bool) :
  wf_image img → wf_image (quarter_turn img clockwise).
Proof. intros (Hw & Hh & _). by apply wf_render. Qed.

Lemma pixel_quarter_turn (img : ImageData) (clockwise : bool) (X Y ch : Z) :
  pixel (quarter_turn img clockwise) X Y ch
  = if clockwise then pixel img Y (height img - 1 - X) ch
    else pixel img (width img - 1 - Y) X ch.
Proof.
  unfold quarter_turn. rewrite pixel_render.
  case_decide as Hr; [done|].
  destruct clockwise; unfold pixel; by rewrite decide_False by lia.
Qed.

(** Four quarter turns in the same direction give the bitmap back. *)
Lemma quarter_turn_four (img : ImageData) (clockwise : bool) :
  wf_image img →
  quarter_turn (quarter_turn (quarter_turn (quarter_turn img clockwise) clockwise)
                  clockwise) clockwise = img.
Proof.
  intros Hwf. pose proof Hwf as (Hw & Hh & Hlen).
  destruct img as [w h d]. cbn [width height data] in *.
  unfold quarter_turn at 1. cbn [width height quarter_turn].
  f_equal.
  etransitivity; [|exact (render_pixel {| width := w; height := h; data := d |} Hwf)].
  cbn [width height].
  apply render_ext; [done|]. intros X Y ch HX HY Hch.
  destruct clockwise; rewrite !pixel_quarter_turn; cbn [width height quarter_turn].
  all: replace (w - 1 - (w - 1 - X)) with X by lia.
  all: by replace (h - 1 - (h - 1 - Y)) with Y by lia.
Qed.

Lemma bind_Some {B C : Type} (m : M B) (k : B → M C) (τ τ' : Store) (b : B) :
  m τ = Some (b, τ') → (m ≫= k) τ = k b τ'.
Proof. unfold mbind, M_bind. by intros ->. Qed.

End RotateFacts.

(** C6. A single [rotate90], in either direction, swaps the dimensions,
    and four of them in the same direction give back a bitmap of the
    original dimensions and pixel values. *)
Theorem rotate90_spec rasterize (σ : Canvas.Store) (canvas : Canvas.Handle)
    (cv : Canvas.Canvas) (clockwise : bool) :
  σ !! canvas = Some cv → wf_image (Canvas.bitmap cv) →
  (∃ out σ1 cv1,
      rotate90 rasterize canvas clockwise σ = Some (out, σ1)
      ∧ σ1 !! out = Some cv1
      ∧ width (Canvas.bitmap cv1) = height (Canvas.bitmap cv)
      ∧ height (Canvas.bitmap cv1) = width (Canvas.bitmap cv)
      ∧ Canvas.bitmap cv1 = quarter_turn (Canvas.bitmap cv) clockwise)
  ∧ (∃ out σ4 cv4,
      (c1 ← rotate90 rasterize canvas clockwise;
       c2 ← rotate90 rasterize c1 clockwise;
       c3 ← rotate90 rasterize c2 clockwise;
       rotate90 rasterize c3 clockwise) σ = Some (out, σ4)
      ∧ σ4 !! out = Some cv4
      ∧ width (Canvas.bitmap cv4) = width (Canvas.bitmap cv)
      ∧ height (Canvas.bitmap cv4) = height (Canvas.bitmap cv)
      ∧ Canvas.bitmap cv4 = Canvas.bitmap cv
      ∧ σ4 !! canvas = Some cv).
Proof.
  intros Hc Hwf.
  destruct (rotate90_run rasterize σ canvas cv clockwise Hc Hwf) as (o1 & Hr1 & Hb1).
  assert (H1 : (σ ++ [o1]) !! length σ = Some o1) by apply list_lookup_middle, eq_refl.
  split.
  { exists (length σ), (σ ++ [o1]), o1. rewrite Hb1. by repeat split. }
  assert (Hwf1 : wf_image (Canvas.bitmap o1)) by (rewrite Hb1; by apply wf_quarter_turn).
  destruct (rotate90_run rasterize _ _ _ clockwise H1 Hwf1) as (o2 & Hr2 & Hb2).
  assert (H2 : ((σ ++ [o1]) ++ [o2]) !! length (σ ++ [o1]) = Some o2)
    by apply list_lookup_middle, eq_refl.
  assert (Hwf2 : wf_image (Canvas.bitmap o2)) by (rewrite Hb2; by apply wf_quarter_turn).
  destruct (rotate90_run rasterize _ _ _ clockwise H2 Hwf2) as (o3 & Hr3 & Hb3).
  assert (H3 : (((σ ++ [o1]) ++ [o2]) ++ [o3]) !! length ((σ ++ [o1]) ++ [o2]) = Some o3)
    by apply list_lookup_middle, eq_refl.
  assert (Hwf3 : wf_image (Canvas.bitmap o3)) by (rewrite Hb3; by apply wf_quarter_turn).
  destruct (rotate90_run rasterize _ _ _ clockwise H3 Hwf3) as (o4 & Hr4 & Hb4).
  assert (Hb : Canvas.bitmap o4 = Canvas.bitmap cv).
  { rewrite Hb4, Hb3, Hb2, Hb1. by apply quarter_turn_four. }
  eexists _, _, o4.
  split.
  { erewrite bind_Some by exact Hr1. erewrite bind_Some by exact Hr2.
    erewrite bind_Some by exact Hr3. exact Hr4. }
  split; [apply list_lookup_middle, eq_refl|].
  rewrite Hb. repeat split.
  rewrite <- !app_assoc. apply lookup_app_l_Some, Hc.
Qed.


Lemma rotate90_spec_witness :
  test_store !! 0%nat = Some {| Canvas.bitmap := test_image; Canvas.transform := [];
                                Canvas.imageSmoothingEnabled := true;
                                Canvas.imageSmoothingQuality := Canvas.low |}
  ∧ wf_image test_image
  ∧ ∃ out σ4 cv4,
      (c1 ← rotate90 no_rasterizer 0%nat true;
       c2 ← rotate90 no_rasterizer c1 true;
       c3 ← rotate90 no_rasterizer c2 true;
       rotate90 no_rasterizer c3 true) test_store = Some (out, σ4)
      ∧ σ4 !! out = Some cv4
      ∧ Canvas.bitmap cv4 = test_image.
Proof.
  assert (Hwf : wf_image test_image) by (repeat split; cbn; lia).
  split; [reflexivity|]. split; [exact Hwf|].
  destruct (rotate90_spec no_rasterizer test_store 0%nat _ true eq_refl Hwf)
    as [_ (out & σ4 & cv4 & Hrun & Hout & _ & _ & Hb & _)].
  exists out, σ4, cv4. by repeat split.
Defined.

(* ===================================================================== *)
(** ** Upscaling (upscaleImage) *)
(* ===================================================================== *)

Section UpscaleFacts.
Import Canvas.

(** [Math.round(n * 1.5)] is [(3 n + 1) / 2] rounded down. *)
Lemma round_one_and_half (n : Z) :
  JS.Math_round (JS.of_Z n * JS.Fin (3 # 2))%js = JS.of_Z ((3 * n + 1) `div` 2).
Proof.
  unfold JS.Math_round, JS.of_Z, JS.mul. do 2 f_equal.
  assert (Qred (inject_Z n * (3 # 2)) + (1 # 2) == (3 * n + 1) # 2)%Q as ->.
  { rewrite Qred_correct. unfold Qeq, inject_Z. cbn. lia. }
  reflexivity.
Qed.

End UpscaleFacts.

(** C5. [upscaleImage] returns a new canvas of exactly twice the width
    and twice the height of the source, obtained in two resampling
    passes: the source resampled to 1.5 times its size (rounded to whole
    pixels), and that intermediate bitmap resampled to twice the
    original size. *)
Theorem upscaleImage_spec rasterize loadImage (src : string) (img : ImageData)
    (σ : Canvas.Store) :
  loadImage src = Some img → 0 ≤ width img → 0 ≤ height img →
  ∃ out σ' cv,
    upscaleImage rasterize loadImage src σ = Some (out, σ')
    ∧ σ !! out = None
    ∧ σ' !! out = Some cv
    ∧ (∀ c cv0, σ !! c = Some cv0 → σ' !! c = Some cv0)
    ∧ width (Canvas.bitmap cv) = 2 * width img
    ∧ height (Canvas.bitmap cv) = 2 * height img
    ∧ let step1 := resample rasterize img
                     ((3 * width img + 1) `div` 2) ((3 * height img + 1) `div` 2) in
      width step1 = (3 * width img + 1) `div` 2
      ∧ height step1 = (3 * height img + 1) `div` 2
      ∧ Canvas.bitmap cv = resample rasterize step1 (2 * width img) (2 * height img).
Proof.
  intros Hload Hw Hh.
  replace (upscaleImage rasterize loadImage src σ)
    with (upscaleImage rasterize loadImage src (σ ++ [])) by (by rewrite app_nil_r).
  unfold upscaleImage. run.
  rewrite !round_one_and_half.
  rewrite !to_dimension_of_Z by (try apply Z.div_pos; lia).
  unfold mret, Canvas.M_ret.
  eexists _, _, _. split; [reflexivity|].
  split; [apply lookup_ge_None; lia|].
  split; [rewrite lookup_app_r by lia; by replace (length σ + 1 - length σ)%nat with 1%nat by lia|].
  split; [intros c cv0 Hc; by apply lookup_app_l_Some|].
  cbn [Canvas.bitmap Canvas.with_bitmap].
  fold (resample rasterize img ((3 * width img + 1) `div` 2) ((3 * height img + 1) `div` 2)).
  set (step1 := resample rasterize img _ _).
  fold (resample rasterize step1 (width img * 2) (height img * 2)).
  replace (width img * 2) with (2 * width img) by lia.
  replace (height img * 2) with (2 * height img) by lia.
  unfold resample at 1 2.
  destruct (draw_dimensions rasterize
              {| Canvas.bitmap := Canvas.blank (2 * width img) (2 * height img);
                 Canvas.transform := [];
                 Canvas.imageSmoothingEnabled := true;
                 Canvas.imageSmoothingQuality := Canvas.high |}
              step1 0%js 0%js (JS.of_Z (width step1)) (JS.of_Z (height step1))
              0%js 0%js (JS.of_Z (2 * width img)) (JS.of_Z (2 * height img)))
    as [-> ->].
  split; [done|]. split; [done|]. cbv zeta.
  subst step1. unfold resample at 1 2.
  match goal with
  | |- width (Canvas.draw ?r ?cv ?i ?a ?b ?c ?d ?e ?f ?g ?h) = _ ∧ _ =>
      destruct (draw_dimensions r cv i a b c d e f g h) as [-> ->]
  end.
  done.
Qed.

Lemma upscaleImage_spec_witness :
  let loadImage := λ _ : string, Some test_image in
  loadImage "blob:1" = Some test_image ∧ 0 ≤ width test_image ∧ 0 ≤ height test_image
  ∧ ∃ out σ' cv,
      upscaleImage no_rasterizer loadImage "blob:1" [] = Some (out, σ')
      ∧ σ' !! out = Some cv
      ∧ width (Canvas.bitmap cv) = 4 ∧ height (Canvas.bitmap cv) = 4.
Proof.
  intros loadImage.
  assert (H0 : 0 ≤ 2) by lia.
  split; [reflexivity|]. split; [exact H0|]. split; [exact H0|].
  destruct (upscaleImage_spec no_rasterizer loadImage "blob:1" test_image [] eq_refl H0 H0)
    as (out & σ' & cv & Hrun & _ & Hout & _ & Hw & Hh & _).
  exists out, σ', cv. by repeat split.
Defined.

(* ===================================================================== *)
(** ** The pixel filters keep the shape of the bitmap *)
(* ===================================================================== *)

Section ShapeFacts.

Lemma same_shape_refl (a : ImageData) : same_shape a a.
Proof. by repeat split. Qed.

Lemma same_shape_trans (a b c : ImageData) :
  same_shape a b → same_shape b c → same_shape a c.
Proof. intros (? & ? & ?) (? & ? & ?). repeat split; congruence. Qed.

Lemma same_shape_wf (a b : ImageData) : same_shape a b → wf_image b → wf_image a.
Proof. intros (Hw & Hh & Hl) (? & ? & ?). unfold wf_image. by rewrite Hw, Hh, Hl. Qed.

(** A loop whose body only stores into the array keeps its length. *)
Lemma foldl_length {K : Type} (step : list Z → K → list Z) (ks : list K) (out : list Z) :
  (∀ o k, length (step o k) = length o) →
  length (foldl step out ks) = length out.
Proof.
  intros Hstep. revert out. induction ks as [|k ks IH]; intros out; [done|].
  cbn. by rewrite IH.
Qed.

Lemma applyConvolution_shape (img : ImageData) kernel divisor :
  same_shape (applyConvolution img kernel divisor) img.
Proof.
  rewrite applyConvolution_unfold. repeat split. cbn [data].
  rewrite foldl_length; [apply length_zeros|].
  intros o y. apply foldl_length. intros o' x.
  unfold convolution_body. cbv zeta.
  destruct (foldl _ _ _) as [[r g] b]. by rewrite !Arr_length_set.
Qed.

Lemma applySharpen_shape (img : ImageData) intensity :
  same_shape (applySharpen img intensity) img.
Proof.
  unfold applySharpen. destruct (_ <=? _)%js; [apply same_shape_refl|].
  apply applyConvolution_shape.
Qed.

Lemma iter_convolution_shape (img : ImageData) kernel divisor (n : nat) :
  same_shape (Nat.iter n (λ result, applyConvolution result kernel divisor) img) img.
Proof.
  induction n as [|n IH]; [apply same_shape_refl|].
  cbn. eapply same_shape_trans; [apply applyConvolution_shape | exact IH].
Qed.

Lemma applyNoiseReduction_shape (img result : ImageData) intensity :
  applyNoiseReduction img intensity = Some result → same_shape result img.
Proof.
  unfold applyNoiseReduction. destruct (_ <=? _)%js.
  - intros [= <-]. apply same_shape_refl.
  - destruct (loop_count _); [|done]. intros [= <-]. apply iter_convolution_shape.
Qed.

(** Noise reduction returns for every intensity but [Infinity]. *)
Lemma applyNoiseReduction_total (img : ImageData) intensity :
  intensity ≠ JS.PosInf → is_Some (applyNoiseReduction img intensity).
Proof.
  intros Hne. unfold applyNoiseReduction.
  destruct intensity as [q| | |]; try done; cbn.
  destruct (Qle_bool q _); by eexists.
Qed.

Lemma applyBrightness_shape (img : ImageData) brightness :
  same_shape (applyBrightness img brightness) img.
Proof.
  unfold applyBrightness. destruct (_ === _)%js; [apply same_shape_refl|].
  repeat split. cbn [data]. rewrite foldl_length; [apply length_zeros|].
  intros o i. by rewrite !Arr_length_set.
Qed.

Lemma applyContrast_shape (img : ImageData) contrast :
  same_shape (applyContrast img contrast) img.
Proof.
  unfold applyContrast. destruct (_ === _)%js; [apply same_shape_refl|].
  repeat split. cbn [data]. rewrite foldl_length; [apply length_zeros|].
  intros o i. by rewrite !Arr_length_set.
Qed.

Lemma applySaturation_shape (img : ImageData) saturation :
  same_shape (applySaturation img saturation) img.
Proof.
  unfold applySaturation. destruct (_ === _)%js; [apply same_shape_refl|].
  repeat split. cbn [data]. rewrite foldl_length; [apply length_zeros|].
  intros o i. destruct (rgbToHsl _ _ _) as [[hh ss] ll].
  destruct (hslToRgb _ _ _) as [[r g] b]. by rewrite !Arr_length_set.
Qed.

Lemma filters_shape (img result : ImageData) (opts : EnhancementValues) :
  filters img opts = Some result → same_shape result img.
Proof.
  unfold filters. destruct (applyNoiseReduction _ _) as [den|] eqn:Hden; [|done].
  cbn. intros [= <-].
  eapply same_shape_trans; [apply applySharpen_shape|].
  eapply same_shape_trans; [apply applySaturation_shape|].
  eapply same_shape_trans; [apply applyContrast_shape|].
  eapply same_shape_trans; [apply applyBrightness_shape|].
  by eapply applyNoiseReduction_shape.
Qed.

End ShapeFacts.

(* ===================================================================== *)
(** ** The compositor (applyAdjustments) *)
(* ===================================================================== *)

Section CompositorFacts.
Import Canvas.

Variable rasterize :
  bool → Quality → list Xform → ImageData →
  JS.number → JS.number → JS.number → JS.number →
  JS.number → JS.number → JS.number → JS.number →
  ImageData → Z → Z → Z → Z.
Variables Math_sin Math_cos : JS.number → JS.number.

(** Reading the whole bitmap of a canvas gives the bitmap. *)
Lemma getImageData_whole (b : ImageData) :
  wf_image b →
  {| width := width b; height := height b;
     data := render (width b) (height b) (λ X Y c, pixel b (0 + X) (0 + Y) c) |} = b.
Proof.
  intros Hwf. destruct b as [w h d]. cbn [width height]. f_equal.
  etransitivity; [|exact (render_pixel _ Hwf)]. cbn [width height].
  apply render_ext; [by destruct Hwf|]. intros. by rewrite !Z.add_0_l.
Qed.

(** Writing a bitmap of the size of the canvas replaces the bitmap. *)
Lemma putImageData_whole (dest img : ImageData) :
  wf_image img → width img = width dest → height img = height dest →
  {| width := width dest; height := height dest;
     data := render (width dest) (height dest) (λ X Y c,
       if decide (0 ≤ X - 0 < width img ∧ 0 ≤ Y - 0 < height img)
       then pixel img (X - 0) (Y - 0) c
       else pixel dest X Y c) |} = img.
Proof.
  intros Hwf <- <-. destruct img as [w h d]. cbn [width height]. f_equal.
  etransitivity; [|exact (render_pixel _ Hwf)]. cbn [width height].
  apply render_ext; [by destruct Hwf|]. intros X Y c HX HY Hc.
  rewrite decide_True by lia. by rewrite !Z.sub_0_r.
Qed.

Lemma wf_Crop_stage (img : ImageData) (rect : CropRect) :
  wf_image (Crop_stage rasterize img rect).
Proof.
  apply wf_draw. apply wf_blank.
  - unfold JS.to_dimension. destruct (JS.Math_round _); lia.
  - unfold JS.to_dimension. destruct (JS.Math_round _); lia.
Qed.

Lemma wf_FreeRotate_stage (img : ImageData) (degrees : JS.number) :
  wf_image (FreeRotate_stage rasterize Math_sin Math_cos img degrees).
Proof.
  apply wf_draw. apply wf_blank.
  - unfold JS.to_dimension. destruct (JS.Math_round _); lia.
  - unfold JS.to_dimension. destruct (JS.Math_round _); lia.
Qed.

Lemma wf_geometry (base : ImageData) (opts : EnhancementValues)
    (cropRect : option CropRect) :
  wf_image base → wf_image (geometry rasterize Math_sin Math_cos base opts cropRect).
Proof.
  intros Hwf. unfold geometry.
  destruct (negb _); [apply wf_FreeRotate_stage|].
  destruct cropRect as [r|]; [|done].
  destruct (_ && _); [apply wf_Crop_stage | done].
Qed.

Lemma FreeRotate_stage_unfold (img : ImageData) (degrees : JS.number) :
  FreeRotate_stage rasterize Math_sin Math_cos img degrees
  = draw rasterize
      {| bitmap :=
           blank
             (JS.to_dimension
                (JS.Math_round
                   (JS.of_Z (width img) * JS.Math_abs (Math_cos (degrees * Math_PI / 180))
                    + JS.of_Z (height img) * JS.Math_abs (Math_sin (degrees * Math_PI / 180)))%js))
             (JS.to_dimension
                (JS.Math_round
                   (JS.of_Z (width img) * JS.Math_abs (Math_sin (degrees * Math_PI / 180))
                    + JS.of_Z (height img) * JS.Math_abs (Math_cos (degrees * Math_PI / 180)))%js));
         transform :=
           [Translate
              (JS.Math_round
                 (JS.of_Z (width img) * JS.Math_abs (Math_cos (degrees * Math_PI / 180))
                  + JS.of_Z (height img) * JS.Math_abs (Math_sin (degrees * Math_PI / 180))) / 2)%js
              (JS.Math_round
                 (JS.of_Z (width img) * JS.Math_abs (Math_sin (degrees * Math_PI / 180))
                  + JS.of_Z (height img) * JS.Math_abs (Math_cos (degrees * Math_PI / 180))) / 2)%js;
            Rotate (degrees * Math_PI / 180)%js];
         imageSmoothingEnabled := true;
         imageSmoothingQuality := low |}
      img 0%js 0%js (JS.of_Z (width img)) (JS.of_Z (height img))
      (JS.neg (JS.of_Z (width img)) / 2)%js (JS.neg (JS.of_Z (height img)) / 2)%js
      (JS.of_Z (width img)) (JS.of_Z (height img)).
Proof. reflexivity. Qed.

Lemma applyAdjustments_run (σ : Store) (sourceCanvas : Handle) (cv : Canvas)
    (opts : EnhancementValues) (cropRect : option CropRect) (result : ImageData) :
  σ !! sourceCanvas = Some cv → wf_image (bitmap cv) →
  filters (geometry rasterize Math_sin Math_cos (bitmap cv) opts cropRect) opts
    = Some result →
  ∃ out l cvout,
    applyAdjustments rasterize Math_sin Math_cos sourceCanvas opts cropRect σ
      = Some (out, σ ++ l)
    ∧ (length σ ≤ out)%nat
    ∧ (σ ++ l) !! out = Some cvout
    ∧ bitmap cvout = result.
Proof.
  intros Hsrc Hwf Hres. pose proof Hwf as (Hw & Hh & Hlen).
  replace (applyAdjustments rasterize Math_sin Math_cos sourceCanvas opts cropRect σ)
    with (applyAdjustments rasterize Math_sin Math_cos sourceCanvas opts cropRect (σ ++ []))
    by (by rewrite app_nil_r).
  unfold applyAdjustments. run.
  rewrite !to_dimension_of_Z by done. rewrite draw_copy by done.
  unfold filters, geometry in Hres.
  destruct cropRect as [r|]; [destruct ((w r >? 0)%js && (h r >? 0)%js) eqn:Hcrop|]; run;
  (destruct (negb (rotation opts === 0)%js) eqn:Hrot; run).
  all: try fold (Crop_stage rasterize (bitmap cv) r).
  all: try rewrite <- FreeRotate_stage_unfold.
  all: match type of Hres with
       | (applyNoiseReduction ?G _ ≫= _) = _ =>
           assert (HwfG : wf_image G)
             by first [ apply wf_FreeRotate_stage | apply wf_Crop_stage | exact Hwf ];
           rewrite (getImageData_whole G HwfG);
           destruct (applyNoiseReduction G (noiseReduction opts)) as [den|] eqn:Hden;
             [|done]
       end.
  all: run.
  all: cbn [mbind option_bind] in Hres; injection Hres as Hres.
  all: rewrite Hres.
  all: assert (Hshape : same_shape result _)
         by (eapply filters_shape; unfold filters; rewrite Hden; cbn [mbind option_bind];
             by rewrite Hres).
  all: assert (HwfR : wf_image result) by (eapply same_shape_wf; [exact Hshape | exact HwfG]).
  all: destruct Hshape as (HwR & HhR & HlR).
  all: unfold mret, M_ret; eexists _, _, _; (split; [reflexivity|]).
  all: (split; [lia|]).
  all: (split; [rewrite lookup_app_r by lia;
                match goal with
                | |- _ !! (?a + ?i - ?a)%nat = _ =>
                    replace (a + i - a)%nat with i by lia
                end; reflexivity|]).
  all: cbn [bitmap with_bitmap].
  all: by apply putImageData_whole.
Qed.

End CompositorFacts.




(* ===================================================================== *)
(** ** Zero-area outputs *)
(* ===================================================================== *)

Section ZeroAreaFacts.
Import Canvas.

Variable rasterize :
  bool → Quality → list Xform → ImageData →
  JS.number → JS.number → JS.number → JS.number →
  JS.number → JS.number → JS.number → JS.number →
  ImageData → Z → Z → Z → Z.
Variables Math_sin Math_cos : JS.number → JS.number.

Lemma Crop_stage_dimensions (img : ImageData) (rect : CropRect) :
  width (Crop_stage rasterize img rect) = JS.to_dimension (JS.Math_round (w rect))
  ∧ height (Crop_stage rasterize img rect) = JS.to_dimension (JS.Math_round (h rect)).
Proof. unfold Crop_stage. by destruct (draw_dimensions rasterize
  (fresh (JS.to_dimension (JS.Math_round (w rect)))
     (JS.to_dimension (JS.Math_round (h rect)))) img
  (JS.Math_round (x rect)) (JS.Math_round (y rect))
  (JS.Math_round (w rect)) (JS.Math_round (h rect)) 0%js 0%js
  (JS.Math_round (w rect)) (JS.Math_round (h rect))) as [-> ->].
Qed.

Lemma FreeRotate_stage_dimensions (img : ImageData) (degrees : JS.number) :
  let rad := (degrees * Math_PI / 180)%js in
  let sin := JS.Math_abs (Math_sin rad) in
  let cos := JS.Math_abs (Math_cos rad) in
  width (FreeRotate_stage rasterize Math_sin Math_cos img degrees)
  = JS.to_dimension
      (JS.Math_round (JS.of_Z (width img) * cos + JS.of_Z (height img) * sin)%js)
  ∧ height (FreeRotate_stage rasterize Math_sin Math_cos img degrees)
    = JS.to_dimension
        (JS.Math_round (JS.of_Z (width img) * sin + JS.of_Z (height img) * cos)%js).
Proof.
  cbv zeta. rewrite FreeRotate_stage_unfold.
  match goal with
  | |- width (draw ?r ?cv ?i ?a ?b ?c ?d ?e ?f ?g ?h) = _ ∧ _ =>
      by destruct (draw_dimensions r cv i a b c d e f g h) as [-> ->]
  end.
Qed.

(** A finite value of at least 4 rounds to at least 4 pixels. *)
Lemma to_dimension_round_ge_4 (v : JS.number) :
  JS.is_finite v → (v <? 4)%js = false →
  4 ≤ JS.to_dimension (JS.Math_round v).
Proof.
  destruct v as [q| | |]; try done. intros _ Hv. cbn in Hv.
  apply Qlt_bool_false_iff in Hv.
  unfold JS.Math_round, JS.to_dimension. rewrite Qfloor_Z.
  assert (4 ≤ Qfloor (q + (1 # 2))); [|lia].
  rewrite <- (Qfloor_Z 4).
  apply Qfloor_resp_le. change (inject_Z 4) with 4%Q in *. lra.
Qed.

(** A pending rect without positive width and height is skipped. *)
Lemma applyAdjustments_skips_crop (sourceCanvas : Handle) (opts : EnhancementValues)
    (rect : CropRect) (σ : Store) :
  ((w rect >? 0) && (h rect >? 0))%js = false →
  applyAdjustments rasterize Math_sin Math_cos sourceCanvas opts (Some rect) σ
  = applyAdjustments rasterize Math_sin Math_cos sourceCanvas opts None σ.
Proof. intros Hskip. unfold applyAdjustments. by rewrite Hskip. Qed.

(** [handleCropConfirm] when [confirmCrop] accepts the rect. *)
Lemma handleCropConfirm_commit (ed : Editor) (σ : Store) (rect : CropRect)
    (base : Handle) (cvb : Canvas) :
  fst (Crop.confirmCrop (crop ed)) = Some rect →
  baseCanvasRef ed = Some base → σ !! base = Some cvb →
  ∃ new cvn,
    handleCropConfirm rasterize ed σ
    = Some ({| baseCanvasRef := Some new; values := values ed;
               appliedCrop := None; crop := snd (Crop.confirmCrop (crop ed)) |},
            σ ++ [cvn])
    ∧ new = length σ
    ∧ bitmap cvn = Crop_stage rasterize (bitmap cvb) rect.
Proof.
  intros Hrect Hbase Hcvb. unfold handleCropConfirm.
  destruct (Crop.confirmCrop (crop ed)) as [o crop']. cbn in Hrect. subst o.
  rewrite Hbase. eexists _, _. split.
  - rewrite <- (app_nil_r σ) at 1.
    run. unfold mret, M_ret. rewrite Nat.add_0_r. reflexivity.
  - split; reflexivity.
Qed.

(** [handleCropConfirm] when [confirmCrop] rejects: nothing is drawn and
    the base canvas stays. *)
Lemma handleCropConfirm_reject (ed : Editor) (σ : Store) :
  fst (Crop.confirmCrop (crop ed)) = None →
  handleCropConfirm rasterize ed σ = Some (ed, σ).
Proof.
  intros Hrect. unfold handleCropConfirm.
  assert (Crop.confirmCrop (crop ed) = (None, crop ed)) as ->.
  { revert Hrect. unfold Crop.confirmCrop.
    destruct (Crop.rect (crop ed)) as [r|]; [|done].
    destruct (w r <? 4)%js; [done|]. by destruct (h r <? 4)%js. }
  by destruct ed.
Qed.

End ZeroAreaFacts.

Lemma confirmCrop_accepted (s : Crop.State) (r : CropRect) :
  fst (Crop.confirmCrop s) = Some r →
  (w r <? 4)%js = false ∧ (h r <? 4)%js = false.
Proof.
  unfold Crop.confirmCrop. destruct (Crop.rect s) as [r'|]; [|done].
  destruct (w r' <? 4)%js eqn:Hw; [done|].
  destruct (h r' <? 4)%js eqn:Hh; [done|].
  by intros [= <-].
Qed.





(* ===================================================================== *)
(** ** More on the upload actor (backend/main.mo) *)
(* ===================================================================== *)

Section BackendMore.
Import Backend.

Implicit Types (session : UploadSession) (s : Actor).

(** What [finalizeUpload] does on a session that holds exactly the
    chunks [[0, totalChunks)]. *)
Lemma finalizeUpload_complete (sessionId : string) (mode : EnhancementMode) s session :
  uploadSessions s !! sessionId = Some session →
  size (receivedChunks session) = totalChunks session → complete session →
  finalizeUpload sessionId mode s
  = Returned
      {| ok := Some {| imageId := "image-" +:+ toText (nextImageId s);
                       enhancedImage := reassembled session |};
         err := "" |}
      {| images := <["image-" +:+ toText (nextImageId s) := reassembled session]> (images s);
         uploadSessions := delete sessionId (uploadSessions s);
         nextImageId := nextImageId s + 1 |}.
Proof.
  intros Hs Hsize Hc. unfold finalizeUpload. rewrite Hs.
  apply Nat.eqb_eq in Hsize. rewrite Hsize. cbn [negb].
  assert (finalize_check session (totalChunks session - 0) 0 = None) as ->
    by (apply finalize_check_None; intros j ?; apply Hc; lia).
  rewrite assembleChunks_complete by done.
  by rewrite enhancement_pass_through.
Qed.

Lemma sessions_below_counter_step c s :
  sessions_below_counter s → sessions_below_counter (step c s).
Proof.
  intros Hinv. destruct c as [n ft|sid i d|sid m]; cbn.
  - intros k. cbn. rewrite lookup_insert. case_decide as Hk.
    + intros _. exists (nextImageId s). split; [lia|done].
    + intros Hs. destruct (Hinv k Hs) as (j & ? & ->). exists j. split; [lia|done].
  - unfold uploadChunk. destruct (uploadSessions s !! sid) as [session|] eqn:Hsid; [|done].
    intros k. cbn. rewrite lookup_insert. case_decide as Hk.
    + intros _. subst k. apply Hinv. by rewrite Hsid.
    + apply Hinv.
  - unfold finalizeUpload. destruct (uploadSessions s !! sid) as [session|]; [|done].
    destruct (negb _); [done|].
    destruct (finalize_check _ _ _); [done|].
    destruct (assembleChunks session) as [finalImage|]; [|done].
    intros k. cbn. intros Hk.
    destruct (decide (sid = k)) as [->|Hne].
    + rewrite lookup_delete_eq in Hk. by destruct Hk.
    + rewrite lookup_delete_ne in Hk by done.
      destruct (Hinv k Hk) as (j & ? & ->). exists j. split; [lia|done].
Qed.

Lemma reachable_sessions_below_counter s : reachable s → sessions_below_counter s.
Proof.
  induction 1 as [|c s _ IH].
  - intros k [v Hv]. cbn in Hv. by rewrite lookup_empty in Hv.
  - by apply sessions_below_counter_step.
Qed.

(** The id of the next session is not in use. *)
Lemma next_session_id_fresh s :
  reachable s → uploadSessions s !! ("Session-" +:+ toText (nextImageId s)) = None.
Proof.
  intros Hr. destruct (uploadSessions s !! _) eqn:E; [|done].
  destruct (reachable_sessions_below_counter s Hr _ (mk_is_Some _ _ E))
    as (n & Hn & Heq).
  cbn in Heq. injection Heq as Heq. unfold toText in Heq.
  apply pretty_nat_inj in Heq. exfalso. lia.
Qed.

End BackendMore.
(** X1. [finalizeUpload] never traps: the missing-chunk trap of
    [assembleChunks] is out of reach behind the checks made first, and an
    answer without [ok] leaves the actor as it was. *)
Theorem finalizeUpload_never_traps (sessionId : string) (mode : Backend.EnhancementMode)
    (s : Backend.Actor) :
  ∃ result s',
    Backend.finalizeUpload sessionId mode s = Backend.Returned result s'
    ∧ (Backend.ok result = None → s' = s ∧ Backend.err result ≠ "").
Proof.
  unfold Backend.finalizeUpload.
  destruct (Backend.uploadSessions s !! sessionId) as [session|]; [|by eexists _, _].
  destruct (negb _); [by eexists _, _|].
  destruct (Backend.finalize_check session _ 0) as [i|] eqn:Hck; [by eexists _, _|].
  rewrite assembleChunks_complete; [by eexists _, _|].
  intros j Hj. eapply finalize_check_None; [exact Hck | lia].
Qed.

(** X2. No call removes or overwrites a stored image, and the id counter
    never goes down. *)
Theorem stored_images_persist (c : Backend.Call) (s : Backend.Actor)
    (k : string) (image : list N) :
  Backend.reachable s →
  Backend.images s !! k = Some image →
  Backend.images (Backend.step c s) !! k = Some image
  ∧ (Backend.nextImageId s ≤ Backend.nextImageId (Backend.step c s))%nat.
Proof.
  intros Hr Hk. destruct c as [n ft|sid i d|sid m]; cbn.
  - split; [done | lia].
  - unfold Backend.uploadChunk. by destruct (Backend.uploadSessions s !! sid).
  - unfold Backend.finalizeUpload.
    destruct (Backend.uploadSessions s !! sid) as [session|]; [|done].
    destruct (negb _); [done|].
    destruct (Backend.finalize_check _ _ _); [done|].
    destruct (Backend.assembleChunks session) as [finalImage|]; [|done].
    cbn. split; [|lia].
    rewrite lookup_insert_ne; [done|].
    intros <-. rewrite next_image_id_fresh in Hk by done. done.
Qed.

Lemma stored_images_persist_witness :
  let s := Backend.step (Backend.CallFinalizeUpload "Session-0" Backend.standard)
             (Backend.step (Backend.CallUploadChunk "Session-0" 0 [7%N])
                (Backend.step (Backend.CallInitUpload 1 "image/png") Backend.init)) in
  Backend.images s !! "image-1" = Some [7%N]
  ∧ Backend.images
      (Backend.step (Backend.CallFinalizeUpload "Session-2" Backend.anime)
         (Backend.step (Backend.CallInitUpload 0 "image/png") s)) !! "image-1"
    = Some [7%N].
Proof.
  intros s.
  assert (Hr : Backend.reachable s) by (repeat constructor).
  assert (Hk : Backend.images s !! "image-1" = Some [7%N]) by reflexivity.
  split; [exact Hk|].
  apply stored_images_persist; [by constructor|].
  by apply stored_images_persist.
Defined.
(** X3. After [finalizeUpload] has answered with an image, [getImageRaw]
    returns that image under the id handed out, and the session is
    gone: finalizing it a second time reports that there is no such
    session. *)
Theorem getImageRaw_after_finalize (sessionId : string)
    (mode mode' : Backend.EnhancementMode) (s s' : Backend.Actor)
    (result : Backend.Response) (enhanced : Backend.Enhanced) :
  Backend.finalizeUpload sessionId mode s = Backend.Returned result s' →
  Backend.ok result = Some enhanced →
  Backend.getImageRaw (Backend.imageId enhanced) s'
    = Backend.Returned (Backend.enhancedImage enhanced) s'
  ∧ Backend.uploadSessions s' !! sessionId = None
  ∧ Backend.finalizeUpload sessionId mode' s'
    = Backend.Returned
        {| Backend.ok := None; Backend.err := "no upload session found" |} s'.
Proof.
  unfold Backend.finalizeUpload at 1.
  destruct (Backend.uploadSessions s !! sessionId) as [session|];
    [|by intros [= <- <-]].
  destruct (negb _); [by intros [= <- <-]|].
  destruct (Backend.finalize_check _ _ _); [by intros [= <- <-]|].
  destruct (Backend.assembleChunks session) as [finalImage|]; [|done].
  intros [= <- <-] [= <-]. cbn.
  unfold Backend.getImageRaw, Backend.finalizeUpload. cbn.
  rewrite lookup_insert_eq, lookup_delete_eq. done.
Qed.

Lemma getImageRaw_after_finalize_witness :
  let s := Backend.step (Backend.CallUploadChunk "Session-0" 0 [7%N; 8%N])
             (Backend.step (Backend.CallInitUpload 1 "image/png") Backend.init) in
  ∃ s', Backend.getImageRaw "image-1" s' = Backend.Returned [7%N; 8%N] s'
        ∧ Backend.uploadSessions s' !! "Session-0" = None.
Proof.
  intros s.
  destruct (Backend.finalizeUpload "Session-0" Backend.standard s)
    as [result s'|] eqn:Hf; [|by vm_compute in Hf].
  exists s'.
  destruct (getImageRaw_after_finalize "Session-0" Backend.standard Backend.standard
              s s' result {| Backend.imageId := "image-1";
                             Backend.enhancedImage := [7%N; 8%N] |} Hf)
    as (Hget & Hgone & _).
  - vm_compute in Hf. by injection Hf as <- <-.
  - split; [exact Hget | exact Hgone].
Defined.

(** X4. On a reachable actor [initUpload] hands out a session id that no
    open session uses: it opens an empty session and replaces none, and
    it leaves the other sessions and the stored images alone. *)
Theorem initUpload_fresh_session (totalChunks : nat) (fileType : string)
    (s : Backend.Actor) :
  Backend.reachable s →
  ∃ sessionId s',
    Backend.initUpload totalChunks fileType s = Backend.Returned sessionId s'
    ∧ Backend.uploadSessions s !! sessionId = None
    ∧ Backend.uploadSessions s' !! sessionId
      = Some {| Backend.totalChunks := totalChunks; Backend.receivedChunks := ∅;
                Backend.fileType := fileType |}
    ∧ (∀ k, k ≠ sessionId →
            Backend.uploadSessions s' !! k = Backend.uploadSessions s !! k)
    ∧ Backend.images s' = Backend.images s.
Proof.
  intros Hr. eexists _, _. split; [reflexivity|]. cbn.
  split; [|split; [by rewrite lookup_insert_eq|split; [|done]]].
  - by apply next_session_id_fresh.
  - intros k Hk. by rewrite lookup_insert_ne.
Qed.

Lemma initUpload_fresh_session_witness :
  let s := Backend.step (Backend.CallInitUpload 3 "image/png") Backend.init in
  ∃ s', Backend.initUpload 2 "image/jpeg" s = Backend.Returned "Session-1" s'
        ∧ Backend.uploadSessions s !! "Session-1" = None.
Proof.
  intros s.
  destruct (initUpload_fresh_session 2 "image/jpeg" s) as (sid & s' & Hrun & Hfresh & _).
  - repeat constructor.
  - exists s'. vm_compute in Hrun. injection Hrun as <- <-.
    split; [reflexivity | exact Hfresh].
Defined.

(** X5. [uploadChunk] traps when the session does not exist; otherwise it
    stores the chunk under its index whatever the index is (it is not
    compared with [totalChunks]), replacing a chunk uploaded at that
    index before, and keeps the other chunks, the other sessions, the
    images and the counter. *)
Theorem uploadChunk_spec (sessionId : string) (chunkIndex : nat) (data : list N)
    (s : Backend.Actor) :
  match Backend.uploadSessions s !! sessionId with
  | None =>
      Backend.uploadChunk sessionId chunkIndex data s
      = Backend.Trapped "Upload session not found"
  | Some session =>
      ∃ s' session',
        Backend.uploadChunk sessionId chunkIndex data s = Backend.Returned tt s'
        ∧ Backend.uploadSessions s' !! sessionId = Some session'
        ∧ Backend.receivedChunks session' !! chunkIndex = Some data
        ∧ (∀ j, j ≠ chunkIndex →
                Backend.receivedChunks session' !! j
                = Backend.receivedChunks session !! j)
        ∧ Backend.totalChunks session' = Backend.totalChunks session
        ∧ (∀ k, k ≠ sessionId →
                Backend.uploadSessions s' !! k = Backend.uploadSessions s !! k)
        ∧ Backend.images s' = Backend.images s
        ∧ Backend.nextImageId s' = Backend.nextImageId s
        ∧ ∀ data', Backend.uploadChunk sessionId chunkIndex data' s'
                   = Backend.uploadChunk sessionId chunkIndex data' s
  end.
Proof.
  unfold Backend.uploadChunk.
  destruct (Backend.uploadSessions s !! sessionId) as [session|] eqn:Hs; [|done].
  eexists _, _. split; [reflexivity|]. cbn.
  rewrite lookup_insert_eq. split; [reflexivity|]. cbn.
  split; [by rewrite lookup_insert_eq|].
  split; [intros j Hj; by rewrite lookup_insert_ne|].
  split; [done|].
  split; [intros k Hk; by rewrite lookup_insert_ne|].
  split; [done|]. split; [done|].
  intros data'. cbn. by rewrite !insert_insert_eq.
Qed.

Section StrayChunk.
Import Backend.

Lemma stray_chunk_no_answer (s : Actor) (sessionId : string) (mode : EnhancementMode) :
  has_stray_chunk s sessionId →
  ∃ message, finalizeUpload sessionId mode s
             = Returned {| ok := None; err := message |} s.
Proof.
  intros (session & i & Hs & Hi & Hin). unfold finalizeUpload. rewrite Hs.
  destruct (size (receivedChunks session) =? totalChunks session)%nat eqn:Hsize;
    cbn [negb]; [|by eexists].
  destruct (finalize_check session _ 0) as [j|] eqn:Hck; [by eexists|].
  exfalso. apply Nat.eqb_eq in Hsize.
  assert (set_seq 0 (totalChunks session) ∪ {[i]} ⊆ dom (receivedChunks session))
    as Hsub.
  { intros j. rewrite elem_of_union, elem_of_set_seq, elem_of_singleton, elem_of_dom.
    intros [Hj | ->]; [|done].
    eapply finalize_check_None; [exact Hck | lia]. }
  apply subseteq_size in Hsub.
  rewrite size_union in Hsub
    by (intros j; rewrite elem_of_set_seq, elem_of_singleton; lia).
  rewrite size_set_seq, size_singleton, size_dom in Hsub. lia.
Qed.

Lemma has_stray_chunk_step (c : Call) (s : Actor) (sessionId : string) :
  reachable s → has_stray_chunk s sessionId → has_stray_chunk (step c s) sessionId.
Proof.
  intros Hr (session & i & Hs & Hi & Hin).
  destruct c as [n ft|sid j d|sid m]; cbn.
  - exists session, i. split; [|done]. cbn.
    rewrite lookup_insert_ne; [done|]. intros <-.
    rewrite next_session_id_fresh in Hs by done. done.
  - unfold uploadChunk. destruct (uploadSessions s !! sid) as [session'|] eqn:Hsid;
      [|by exists session, i].
    destruct (decide (sid = sessionId)) as [->|Hne].
    + eexists _, i. cbn. rewrite lookup_insert_eq. split; [reflexivity|]. cbn.
      assert (session' = session) as -> by congruence.
      split; [done|]. rewrite lookup_insert. case_decide; [done|exact Hin].
    + exists session, i. cbn. by rewrite lookup_insert_ne.
  - destruct (decide (sid = sessionId)) as [->|Hne].
    + destruct (stray_chunk_no_answer s sessionId m) as [msg ->]; [by exists session, i|].
      by exists session, i.
    + unfold finalizeUpload. destruct (uploadSessions s !! sid) as [session'|];
        [|by exists session, i].
      destruct (negb _); [by exists session, i|].
      destruct (finalize_check _ _ _); [by exists session, i|].
      destruct (assembleChunks session'); [|by exists session, i].
      exists session, i. cbn. by rewrite lookup_delete_ne.
Qed.

Lemma reachable_steps (calls : list Call) (s : Actor) :
  reachable s → reachable (steps calls s).
Proof.
  revert s. induction calls as [|c calls IH]; intros s Hr; [done|].
  cbn. apply IH. by constructor.
Qed.

End StrayChunk.

(** X6. A chunk uploaded under an index that is not below [totalChunks]
    spoils its session for good: whatever calls follow, [finalizeUpload]
    never answers with an image for that session. *)
Theorem stray_chunk_spoils_session (calls : list Backend.Call) (s : Backend.Actor)
    (sessionId : string) (mode : Backend.EnhancementMode) :
  Backend.reachable s → has_stray_chunk s sessionId →
  ∃ message,
    Backend.finalizeUpload sessionId mode (steps calls s)
    = Backend.Returned {| Backend.ok := None; Backend.err := message |} (steps calls s).
Proof.
  intros Hr Hstray. apply stray_chunk_no_answer.
  revert s Hr Hstray. induction calls as [|c calls IH]; intros s Hr Hstray; [done|].
  cbn. apply IH; [by constructor | by apply has_stray_chunk_step].
Qed.

Lemma stray_chunk_spoils_session_witness :
  ∃ message,
    Backend.finalizeUpload "Session-0" Backend.standard
      (steps [Backend.CallUploadChunk "Session-0" 0 [3%N];
              Backend.CallUploadChunk "Session-0" 5 [4%N]] overfull_actor)
    = Backend.Returned {| Backend.ok := None; Backend.err := message |}
        (steps [Backend.CallUploadChunk "Session-0" 0 [3%N];
                Backend.CallUploadChunk "Session-0" 5 [4%N]] overfull_actor).
Proof.
  apply stray_chunk_spoils_session.
  - repeat constructor.
  - eexists _, 5%nat. split; [reflexivity|]. split; [cbn; lia | by eexists].
Defined.
(* ===================================================================== *)
(** ** The upload client (hooks/useQueries) *)
(* ===================================================================== *)

Section UploadFacts.
Import Upload.

Lemma slice_chunk (data : list N) (chunkSize offset : Z) :
  1 ≤ chunkSize → 0 ≤ offset →
  slice data offset (offset + chunkSize)
  = take (Z.to_nat chunkSize) (drop (Z.to_nat offset) data).
Proof.
  intros Hc Ho. unfold slice.
  rewrite (proj2 (Z.ltb_ge offset 0)) by lia.
  rewrite (proj2 (Z.ltb_ge (offset + chunkSize) 0)) by lia.
  destruct (decide (offset + chunkSize ≤ Z.of_nat (length data))) as [Hle|Hgt].
  - rewrite !Z.min_l by lia. f_equal; lia.
  - rewrite (Z.min_r (offset + chunkSize)) by lia.
    destruct (decide (offset ≤ Z.of_nat (length data))).
    + rewrite Z.min_l by lia.
      rewrite !take_ge; [done | |]; rewrite length_drop; lia.
    + rewrite !drop_ge by lia. by rewrite !take_nil.
Qed.

(** The number of chunks of [n] bytes: [n / chunkSize], rounded up. *)
Lemma splitIntoChunks_loop_spec (fuel : nat) (data : list N) (chunkSize offset : Z)
    (chunks : list (list N)) :
  1 ≤ chunkSize → 0 ≤ offset → Z.of_nat (length data) - offset ≤ Z.of_nat fuel →
  ∃ rest,
    splitIntoChunks_loop fuel data chunkSize offset chunks = Some (chunks ++ rest)
    ∧ concat rest = drop (Z.to_nat offset) data
    ∧ Forall (λ chunk, 1 ≤ Z.of_nat (length chunk) ≤ chunkSize) rest
    ∧ Z.of_nat (length rest)
      = Z.max 0 ((Z.of_nat (length data) - offset + chunkSize - 1) `div` chunkSize)
    ∧ ∀ i chunk, rest !! i = Some chunk → (S i < length rest)%nat →
                 Z.of_nat (length chunk) = chunkSize.
Proof.
  intros Hc. revert offset chunks.
  induction fuel as [|fuel IH]; intros offset chunks Ho Hfuel.
  - exists []. cbn [splitIntoChunks_loop].
    rewrite (proj2 (Z.ltb_ge offset _)) by lia.
    rewrite app_nil_r, drop_ge by lia.
    repeat split; [done | |intros i chunk; by rewrite lookup_nil].
    cbn.
    assert ((Z.of_nat (length data) - offset + chunkSize - 1) `div` chunkSize < 1)
      by (apply Z.div_lt_upper_bound; lia).
    lia.
  - cbn [splitIntoChunks_loop].
    destruct (offset <? Z.of_nat (length data)) eqn:Hlt.
    + apply Z.ltb_lt in Hlt.
      destruct (IH (offset + chunkSize)
                  (chunks ++ [slice data offset (offset + chunkSize)]))
        as (rest & Hrun & Hcat & Hall & Hlen & Hfull); [lia..|].
      exists (slice data offset (offset + chunkSize) :: rest).
      rewrite Hrun, <- app_assoc. split; [done|].
      rewrite slice_chunk in * by lia.
      assert (Hchunk : Z.of_nat (length (take (Z.to_nat chunkSize)
                                           (drop (Z.to_nat offset) data)))
                       = Z.min chunkSize (Z.of_nat (length data) - offset))
        by (rewrite length_take, length_drop; lia).
      assert (Hdiv : (Z.of_nat (length data) - offset + chunkSize - 1) `div` chunkSize
                     = (Z.of_nat (length data) - (offset + chunkSize) + chunkSize - 1)
                         `div` chunkSize + 1).
      { rewrite <- (Z.div_add _ 1 chunkSize) by lia. f_equal. lia. }
      assert (0 ≤ (Z.of_nat (length data) - (offset + chunkSize) + chunkSize - 1)
                    `div` chunkSize)
        by (apply Z.div_pos; lia).
      split; [|split; [|split]].
      * cbn [concat]. rewrite Hcat.
        replace (Z.to_nat (offset + chunkSize))
          with (Z.to_nat offset + Z.to_nat chunkSize)%nat by lia.
        rewrite <- drop_drop. apply take_drop.
      * constructor; [lia | done].
      * cbn [length]. rewrite Nat2Z.inj_succ, Hlen. lia.
      * intros [|i] chunk; cbn [lookup list_lookup length].
        -- intros [= <-] Hi.
           assert (0 < (Z.of_nat (length data) - (offset + chunkSize) + chunkSize - 1)
                         `div` chunkSize) as Hpos by lia.
           destruct (decide (Z.of_nat (length data) - (offset + chunkSize) + chunkSize - 1
                             < chunkSize)); [|lia].
           rewrite Z.div_small in Hpos by lia. lia.
        -- intros Hi Hlast. apply (Hfull i); [done | lia].
    + apply Z.ltb_ge in Hlt. exists [].
      rewrite app_nil_r, drop_ge by lia.
      repeat split; [done | |intros i chunk; by rewrite lookup_nil].
      cbn.
    assert ((Z.of_nat (length data) - offset + chunkSize - 1) `div` chunkSize < 1)
      by (apply Z.div_lt_upper_bound; lia).
    lia.
Qed.

Lemma splitIntoChunks_loop_runs_on (fuel : nat) (data : list N) (chunkSize offset : Z)
    (chunks : list (list N)) :
  chunkSize ≤ 0 → offset < Z.of_nat (length data) →
  splitIntoChunks_loop fuel data chunkSize offset chunks = None.
Proof.
  intros Hc. revert offset chunks.
  induction fuel as [|fuel IH]; intros offset chunks Ho; cbn [splitIntoChunks_loop];
    rewrite (proj2 (Z.ltb_lt offset _)) by lia; [done|].
  apply IH. lia.
Qed.

End UploadFacts.

(** X7. For a chunk size of at least one byte [splitIntoChunks] returns:
    the chunks, put together in order, are the data; no chunk is empty
    or longer than the chunk size, every chunk but the last one is
    full, and there are [length / chunkSize] of them, rounded up (none
    for empty data). *)
Theorem splitIntoChunks_spec (data : list N) (chunkSize : Z) :
  1 ≤ chunkSize →
  ∃ chunks,
    Upload.splitIntoChunks data chunkSize = Some chunks
    ∧ concat chunks = data
    ∧ Forall (λ chunk, 1 ≤ Z.of_nat (length chunk) ≤ chunkSize) chunks
    ∧ (∀ i chunk, chunks !! i = Some chunk → (S i < length chunks)%nat →
                  Z.of_nat (length chunk) = chunkSize)
    ∧ Z.of_nat (length chunks)
      = (Z.of_nat (length data) + chunkSize - 1) `div` chunkSize.
Proof.
  intros Hc. unfold Upload.splitIntoChunks.
  destruct (splitIntoChunks_loop_spec (length data) data chunkSize 0 [])
    as (chunks & Hrun & Hcat & Hall & Hlen & Hfull); [lia..|].
  exists chunks. split; [exact Hrun|]. split; [exact Hcat|]. split; [exact Hall|].
  split; [exact Hfull|]. rewrite Hlen, Z.sub_0_r. apply Z.max_r.
  apply Z.div_pos; lia.
Qed.

Lemma splitIntoChunks_spec_witness :
  1 ≤ 2 ∧ ∃ chunks, Upload.splitIntoChunks [1; 2; 3; 4; 5]%N 2 = Some chunks
                    ∧ concat chunks = [1; 2; 3; 4; 5]%N
                    ∧ Z.of_nat (length chunks) = 3.
Proof.
  split; [lia|].
  destruct (splitIntoChunks_spec [1; 2; 3; 4; 5]%N 2 ltac:(lia))
    as (chunks & Hrun & Hcat & _ & _ & Hlen).
  exists chunks. split; [exact Hrun|]. split; [exact Hcat | exact Hlen].
Defined.

(** X8. For a chunk size of zero or less and data that are not empty the
    loop of [splitIntoChunks] never ends: whatever the number of rounds
    allowed, it is still running. *)
Theorem splitIntoChunks_runs_on (fuel : nat) (data : list N) (chunkSize : Z) :
  chunkSize ≤ 0 → data ≠ [] →
  Upload.splitIntoChunks_loop fuel data chunkSize 0 [] = None
  ∧ Upload.splitIntoChunks data chunkSize = None.
Proof.
  intros Hc Hd.
  assert (0 < Z.of_nat (length data)) by (destruct data; [done | cbn; lia]).
  split; by apply splitIntoChunks_loop_runs_on.
Qed.

Lemma splitIntoChunks_runs_on_witness :
  Upload.splitIntoChunks_loop 1000 [1; 2; 3]%N 0 0 [] = None.
Proof.
  apply (splitIntoChunks_runs_on 1000 [1; 2; 3]%N 0); [lia | done].
Defined.
Section ProcessFacts.
Import Upload.

Lemma size_map_seq_0 (xs : list (list N)) :
  size (map_seq 0 xs : gmap nat (list N)) = length xs.
Proof.
  induction xs as [|x xs IH] using rev_ind; [done|].
  rewrite map_seq_snoc, length_app, map_size_insert_None, IH; [cbn; lia|].
  apply lookup_map_seq_None. right. cbn. lia.
Qed.

Lemma reassembled_map_seq (chunks : list (list N)) (fileType : string) :
  reassembled {| Backend.totalChunks := length chunks;
                 Backend.receivedChunks := map_seq 0 chunks;
                 Backend.fileType := fileType |}
  = concat chunks.
Proof.
  unfold reassembled. cbn. f_equal.
  apply list_eq. intros i. rewrite list_lookup_fmap.
  destruct (decide (i < length chunks)%nat) as [Hi|Hi].
  - rewrite lookup_seq_lt by done. cbn. rewrite lookup_map_seq_0.
    destruct (lookup_lt_is_Some_2 chunks i Hi) as [c ->]. done.
  - rewrite lookup_seq_ge by lia. cbn. symmetry. apply lookup_ge_None. lia.
Qed.

(** The state of the canister while the chunks of a session just opened
    are being uploaded. *)
Lemma uploadChunks_rounds (sessionId fileType : string) (chunks : list (list N))
    (totalChunks k : nat) (wd : World) (sessions : gmap string Backend.UploadSession) :
  (k ≤ length chunks)%nat →
  Backend.uploadSessions (canister wd)
  = <[sessionId := {| Backend.totalChunks := totalChunks;
                      Backend.receivedChunks := ∅;
                      Backend.fileType := fileType |}]> sessions →
  foldl (uploadChunk_round sessionId chunks totalChunks) (wd, None) (seq 0 k)
  = ({| canister :=
          {| Backend.images := Backend.images (canister wd);
             Backend.uploadSessions :=
               <[sessionId := {| Backend.totalChunks := totalChunks;
                                 Backend.receivedChunks := map_seq 0 (take k chunks);
                                 Backend.fileType := fileType |}]> sessions;
             Backend.nextImageId := Backend.nextImageId (canister wd) |};
        object_urls := object_urls wd; next_url := next_url wd;
        prevEnhancedUrlRef := prevEnhancedUrlRef wd;
        reports := reports wd
                   ++ ((λ i, {| phase := uploading;
                                fraction := (JS.of_Z (Z.of_nat i + 1)
                                             / JS.of_Z (Z.of_nat totalChunks))%js |})
                         <$> seq 0 k) |}, None).
Proof.
  intros Hk Hs. induction k as [|k IH].
  - cbn. rewrite app_nil_r. destruct wd as [[im us nx] ou nu pr rp].
    cbn in *. by rewrite Hs.
  - rewrite seq_S, foldl_app, IH by lia. cbn [foldl Nat.add].
    destruct (lookup_lt_is_Some_2 chunks k ltac:(lia)) as [chunk Hchunk].
    unfold uploadChunk_round at 1. rewrite Hchunk.
    unfold Backend.uploadChunk. cbn. rewrite lookup_insert_eq.
    unfold reportProgress, with_canister. cbn.
    rewrite insert_insert_eq.
    rewrite (take_S_r _ _ _ Hchunk), map_seq_snoc, length_take_le by lia.
    rewrite fmap_app, <- app_assoc. reflexivity.
Qed.

(** A complete account of a run of the mutation. *)
Lemma processImage_run (imageBytes : list N) (fileType : string)
    (mode : Backend.EnhancementMode) (wd : World) :
  let s := canister wd in
  let n := Backend.nextImageId s in
  let id := "image-" +:+ Backend.toText (n + 1) in
  let k := Z.to_nat ((Z.of_nat (length imageBytes) + CHUNK_SIZE - 1) `div` CHUNK_SIZE) in
  let urls := match prevEnhancedUrlRef wd with
              | Some url => delete url (object_urls wd)
              | None => object_urls wd
              end in
  let blob := {| blob_bytes := imageBytes;
                 blob_type := if decide (detectMimeType imageBytes ≠ "image/png")
                              then detectMimeType imageBytes else fileType |} in
  ∃ wd',
    processImage true imageBytes fileType mode wd
    = Some (if decide (imageBytes = [])
            then Rejected "Backend returned empty image data"
            else Resolved {| imageId := id; enhancedUrl := next_url wd |}, wd')
    ∧ canister wd'
      = {| Backend.images := <[id := imageBytes]> (Backend.images s);
           Backend.uploadSessions :=
             delete ("Session-" +:+ Backend.toText n) (Backend.uploadSessions s);
           Backend.nextImageId := n + 2 |}
    ∧ reports wd'
      = reports wd
        ++ [ {| phase := uploading; fraction := 0%js |} ]
        ++ ((λ i, {| phase := uploading;
                     fraction := (JS.of_Z (Z.of_nat i + 1) / JS.of_Z (Z.of_nat k))%js |})
              <$> seq 0 k)
        ++ [ {| phase := enhancing; fraction := 1%js |} ]
    ∧ object_urls wd'
      = (if decide (imageBytes = []) then urls else <[next_url wd := blob]> urls)
    ∧ prevEnhancedUrlRef wd'
      = (if decide (imageBytes = []) then None else Some (next_url wd)).
Proof.
  intros s n id k urls blob.
  unfold processImage. cbn [negb].
  set (wd1 := match prevEnhancedUrlRef wd with
              | Some url => set_prevEnhancedUrlRef None (revokeObjectURL url wd)
              | None => wd
              end).
  assert (Hcan : canister wd1 = s) by (subst wd1; by destruct (prevEnhancedUrlRef wd)).
  assert (Hrep : reports wd1 = reports wd)
    by (subst wd1; by destruct (prevEnhancedUrlRef wd)).
  assert (Hnext : next_url wd1 = next_url wd)
    by (subst wd1; by destruct (prevEnhancedUrlRef wd)).
  assert (Hurls : object_urls wd1 = urls)
    by (subst wd1 urls; by destruct (prevEnhancedUrlRef wd)).
  assert (Hprev : imageBytes = [] → prevEnhancedUrlRef wd1 = None).
  { intros ->. subst wd1. destruct (prevEnhancedUrlRef wd) eqn:E; [done|exact E]. }
  clearbody wd1.
  unfold splitIntoChunks.
  destruct (splitIntoChunks_loop_spec (length imageBytes) imageBytes CHUNK_SIZE 0 [])
    as (chunks & -> & Hcat & _ & Hlen & _); [unfold CHUNK_SIZE; lia..|].
  cbn [app] in *. rewrite Z.sub_0_r in Hlen.
  change (drop (Z.to_nat 0) imageBytes) with imageBytes in Hcat.
  assert (Hk : length chunks = k).
  { subst k. rewrite Z.max_r in Hlen by (apply Z.div_pos; unfold CHUNK_SIZE; lia). lia. }
  unfold Backend.initUpload. cbn [canister reportProgress with_canister].
  unfold uploadChunks.
  erewrite uploadChunks_rounds; [|reflexivity|cbn; reflexivity].
  rewrite firstn_all. cbn [canister reportProgress].
  erewrite finalizeUpload_complete; cycle 1.
  - cbn. apply lookup_insert_eq.
  - cbn. apply size_map_seq_0.
  - intros i Hi. cbn in *. rewrite lookup_map_seq_0. by apply lookup_lt_is_Some_2.
  - cbn [Backend.ok Backend.enhancedImage Backend.imageId with_canister canister
         Backend.nextImageId Backend.images Backend.uploadSessions].
    rewrite reassembled_map_seq, Hcat.
    rewrite Hcan. fold s n. rewrite delete_insert_eq.
    replace ("image-" +:+ Backend.toText (n + 1)) with id by done.
    destruct imageBytes as [|b bytes].
    + cbn [length Nat.eqb]. destruct (decide ([] = [])) as [_|?]; [|done].
      eexists. split; [reflexivity|].
      cbn [canister reports object_urls prevEnhancedUrlRef next_url
           with_canister reportProgress].
      rewrite Hrep, Hurls, <- Hk, Hprev by done.
      replace (n + 1 + 1)%nat with (n + 2)%nat by lia.
      repeat split. by rewrite <- !app_assoc.
    + cbn [length Nat.eqb]. destruct (decide (b :: bytes = [])) as [?|_]; [done|].
      unfold createBlobUrlFromBytes, createObjectURL.
      cbn [canister reports object_urls prevEnhancedUrlRef next_url
           with_canister reportProgress].
      eexists. split; [rewrite Hnext; reflexivity|].
      cbn [canister reports object_urls prevEnhancedUrlRef next_url
           set_prevEnhancedUrlRef].
      rewrite Hrep, Hurls, <- Hk.
      replace (n + 1 + 1)%nat with (n + 2)%nat by lia.
      repeat split. by rewrite <- !app_assoc.
Qed.

End ProcessFacts.
(** X9. Upload round trip.  For image bytes that are not empty the
    mutation resolves: the canister has stored exactly the bytes that
    were sent, [getImageRaw] returns them under the id that is handed
    back, and the URL that is handed back names a blob of these bytes,
    typed [image/jpeg] when they start with the JPEG magic bytes and by
    the type of the file otherwise.  The upload session is gone again,
    and on a reachable canister no image stored before is touched. *)
Theorem processImage_round_trip (imageBytes : list N) (fileType : string)
    (mode : Backend.EnhancementMode) (wd : Upload.World) :
  imageBytes ≠ [] →
  ∃ id url wd',
    Upload.processImage true imageBytes fileType mode wd
    = Some (Upload.Resolved {| Upload.imageId := id; Upload.enhancedUrl := url |}, wd')
    ∧ Upload.object_urls wd' !! url
      = Some {| Upload.blob_bytes := imageBytes;
                Upload.blob_type :=
                  if decide (Upload.detectMimeType imageBytes ≠ "image/png")
                  then Upload.detectMimeType imageBytes else fileType |}
    ∧ Upload.prevEnhancedUrlRef wd' = Some url
    ∧ Backend.getImageRaw id (Upload.canister wd')
      = Backend.Returned imageBytes (Upload.canister wd')
    ∧ Backend.images (Upload.canister wd')
      = <[id := imageBytes]> (Backend.images (Upload.canister wd))
    ∧ (Backend.reachable (Upload.canister wd) →
       Backend.images (Upload.canister wd) !! id = None
       ∧ Backend.uploadSessions (Upload.canister wd')
         = Backend.uploadSessions (Upload.canister wd)).
Proof.
  intros Hne.
  pose proof (processImage_run imageBytes fileType mode wd) as H. cbv zeta in H.
  destruct (decide (imageBytes = [])) as [?|_]; [done|].
  destruct H as (wd' & Hrun & Hcan & _ & Hurls & Hprev).
  eexists _, _, wd'. split; [exact Hrun|].
  split; [rewrite Hurls; apply lookup_insert_eq|].
  split; [exact Hprev|].
  rewrite Hcan. unfold Backend.getImageRaw. cbn.
  rewrite lookup_insert_eq. split; [done|]. split; [done|].
  intros Hr. split.
  - pose proof (reachable_ids_below_counter _ Hr) as Hinv.
    destruct (Backend.images (Upload.canister wd) !! _) eqn:E; [|done].
    destruct (Hinv _ (mk_is_Some _ _ E)) as (m & Hm & Heq).
    cbn in Heq. injection Heq as Heq. unfold Backend.toText in Heq.
    apply pretty_nat_inj in Heq. exfalso. lia.
  - apply delete_id. by apply next_session_id_fresh.
Qed.

Lemma processImage_round_trip_witness :
  [255; 216; 255; 224; 0]%N ≠ [] ∧
  ∃ wd',
    Upload.processImage true [255; 216; 255; 224; 0]%N "image/png" Backend.anime
      (Upload.initial_world Backend.init)
    = Some (Upload.Resolved {| Upload.imageId := "image-1"; Upload.enhancedUrl := 0 |}, wd')
    ∧ Upload.object_urls wd' !! 0%nat
      = Some {| Upload.blob_bytes := [255; 216; 255; 224; 0]%N;
                Upload.blob_type := "image/jpeg" |}.
Proof.
  split; [done|].
  destruct (processImage_round_trip [255; 216; 255; 224; 0]%N "image/png" Backend.anime
              (Upload.initial_world Backend.init) ltac:(done))
    as (id & url & wd' & Hrun & Hurl & _).
  exists wd'.
  assert (Hid : id = "image-1" ∧ url = 0%nat).
  { destruct (Upload.processImage _ _ _ _ _) as [[[p|] w]|] eqn:E in Hrun; [|done..].
    vm_compute in E. injection E as <- _. by injection Hrun as <- <-. }
  destruct Hid as [-> ->]. split; [exact Hrun | exact Hurl].
Defined.

(** X10. For an empty file the mutation rejects with
    ["Backend returned empty image data"]; no URL is created (the
    previous one is revoked all the same), and yet the canister has gone
    through the whole protocol: it has stored an empty image and used up
    two ids. *)
Theorem processImage_empty_file (fileType : string) (mode : Backend.EnhancementMode)
    (wd : Upload.World) :
  let n := Backend.nextImageId (Upload.canister wd) in
  ∃ wd',
    Upload.processImage true [] fileType mode wd
    = Some (Upload.Rejected "Backend returned empty image data", wd')
    ∧ Backend.images (Upload.canister wd')
      = <["image-" +:+ Backend.toText (n + 1) := []]> (Backend.images (Upload.canister wd))
    ∧ Backend.nextImageId (Upload.canister wd') = (n + 2)%nat
    ∧ Upload.prevEnhancedUrlRef wd' = None
    ∧ Upload.object_urls wd'
      = match Upload.prevEnhancedUrlRef wd with
        | Some url => delete url (Upload.object_urls wd)
        | None => Upload.object_urls wd
        end
    ∧ Upload.reports wd'
      = Upload.reports wd
        ++ [ {| Upload.phase := Upload.uploading; Upload.fraction := 0%js |};
             {| Upload.phase := Upload.enhancing; Upload.fraction := 1%js |} ].
Proof.
  intros n.
  destruct (processImage_run [] fileType mode wd)
    as (wd' & Hrun & Hcan & Hrep & Hurls & Hprev).
  exists wd'. split; [exact Hrun|]. rewrite Hcan. cbn.
  split; [done|]. split; [done|]. split; [exact Hprev|].
  split; [exact Hurls | exact Hrep].
Qed.

(** X11. The progress reported by a run: first [uploading] with fraction
    0, then, chunk after chunk, [uploading] with the fraction
    [(i + 1) / totalChunks] of the chunks sent, and at last [enhancing]
    with fraction 1; the number of chunks is the length of the data
    divided by the chunk size of 1.5 MB, rounded up. *)
Theorem processImage_progress (imageBytes : list N) (fileType : string)
    (mode : Backend.EnhancementMode) (wd : Upload.World) :
  let totalChunks :=
    Z.to_nat ((Z.of_nat (length imageBytes) + 1572864 - 1) `div` 1572864) in
  ∃ outcome wd',
    Upload.processImage true imageBytes fileType mode wd = Some (outcome, wd')
    ∧ Upload.reports wd'
      = Upload.reports wd
        ++ [ {| Upload.phase := Upload.uploading; Upload.fraction := 0%js |} ]
        ++ ((λ i, {| Upload.phase := Upload.uploading;
                     Upload.fraction := (JS.of_Z (Z.of_nat i + 1)
                                         / JS.of_Z (Z.of_nat totalChunks))%js |})
              <$> seq 0 totalChunks)
        ++ [ {| Upload.phase := Upload.enhancing; Upload.fraction := 1%js |} ].
Proof.
  intros totalChunks.
  destruct (processImage_run imageBytes fileType mode wd)
    as (wd' & Hrun & _ & Hrep & _).
  eexists _, wd'. split; [exact Hrun | exact Hrep].
Qed.

(** X12. The hook keeps at most one of its object URLs alive: if every
    live URL is the one held in [prevEnhancedUrlRef] before a run, the
    same is true after it, however the run settles. *)
Theorem processImage_urls_tracked (actor : bool) (imageBytes : list N)
    (fileType : string) (mode : Backend.EnhancementMode) (wd wd' : Upload.World)
    (outcome : Upload.Settled Upload.Processed) :
  urls_tracked wd →
  Upload.processImage actor imageBytes fileType mode wd = Some (outcome, wd') →
  urls_tracked wd'.
Proof.
  intros Hinv. destruct actor; [|by intros [= <- <-]].
  destruct (processImage_run imageBytes fileType mode wd)
    as (wd0 & -> & _ & _ & Hurls & Hprev).
  intros [= <- <-] url. rewrite Hurls, Hprev.
  assert (Hold : ¬ is_Some (match Upload.prevEnhancedUrlRef wd with
                            | Some url0 => delete url0 (Upload.object_urls wd)
                            | None => Upload.object_urls wd
                            end !! url)).
  { intros Hs. destruct (Upload.prevEnhancedUrlRef wd) as [url0|] eqn:E.
    - destruct (decide (url0 = url)) as [->|Hne].
      + rewrite lookup_delete_eq in Hs. by destruct Hs.
      + rewrite lookup_delete_ne in Hs by done. apply Hinv in Hs. congruence.
    - apply Hinv in Hs. congruence. }
  destruct (decide (imageBytes = [])); [done|].
  rewrite lookup_insert.
  by destruct (decide (Upload.next_url wd = url)) as [->|?].
Qed.

Lemma processImage_urls_tracked_witness :
  urls_tracked (Upload.initial_world Backend.init)
  ∧ ∃ outcome wd',
      Upload.processImage true [1; 2]%N "image/png" Backend.standard
        (Upload.initial_world Backend.init) = Some (outcome, wd')
      ∧ urls_tracked wd'.
Proof.
  assert (H0 : urls_tracked (Upload.initial_world Backend.init))
    by (intros url [b Hb]; cbn in Hb; by rewrite lookup_empty in Hb).
  split; [exact H0|].
  destruct (Upload.processImage true [1; 2]%N "image/png" Backend.standard
              (Upload.initial_world Backend.init)) as [[outcome wd']|] eqn:E;
    [|by vm_compute in E].
  exists outcome, wd'. split; [reflexivity|].
  exact (processImage_urls_tracked _ _ _ _ _ _ _ H0 E).
Defined.

(** X13. [detectMimeType] answers [image/jpeg] exactly for the data that
    start with the bytes FF D8 FF, and [image/png] for everything else,
    whether the PNG signature is there or not. *)
Theorem detectMimeType_spec (bytes : list N) :
  (Upload.detectMimeType bytes = "image/jpeg"
   ↔ ∃ rest, bytes = [255; 216; 255]%N ++ rest)
  ∧ (Upload.detectMimeType bytes = "image/jpeg"
     ∨ Upload.detectMimeType bytes = "image/png").
Proof.
  unfold Upload.detectMimeType, Upload.byte_is.
  destruct bytes as [|b0 [|b1 [|b2 rest]]]; cbn.
  1-3: split; [split; [done | by intros [rest' ?]] | by right].
  repeat (case_bool_decide; cbn [andb]);
    repeat match goal with | |- context [if ?b then _ else _] => destruct b end;
    (split; [split; [try done; intros _; by simplify_eq; eexists
                    | intros [rest' ?]; try done; simplify_eq]
            | (by left) || (by right)]).
Qed.
(* ===================================================================== *)
(** ** More on the pixel filters (utils/imageProcessing) *)
(* ===================================================================== *)

Section RoundingFacts.

Lemma Qfloor_unique (x : Q) (n : Z) :
  (inject_Z n <= x)%Q → (x < inject_Z (n + 1))%Q → Qfloor x = n.
Proof.
  intros Hle Hlt.
  pose proof (Qfloor_le x) as H1. pose proof (Qlt_floor x) as H2.
  assert (inject_Z n < inject_Z (Qfloor x + 1))%Q as H3 by (eapply Qle_lt_trans; eauto).
  assert (inject_Z (Qfloor x) < inject_Z (n + 1))%Q as H4 by (eapply Qle_lt_trans; eauto).
  rewrite <- Zlt_Qlt in H3, H4. lia.
Qed.

Lemma Qfloor_add_Z (z : Z) (x : Q) : Qfloor (inject_Z z + x) = z + Qfloor x.
Proof.
  apply Qfloor_unique.
  - rewrite inject_Z_plus. pose proof (Qfloor_le x). lra.
  - rewrite <- Z.add_assoc, inject_Z_plus. pose proof (Qlt_floor x). lra.
Qed.

Lemma Math_min_of_Z (a b : Z) :
  JS.Math_min (JS.of_Z a) (JS.of_Z b) = JS.of_Z (Z.min a b).
Proof.
  unfold JS.of_Z. rewrite Math_min_fin.
  destruct (Qlt_bool_spec (inject_Z b) (inject_Z a)) as [H|H].
  - rewrite <- Zlt_Qlt in H. by rewrite Z.min_r by lia.
  - apply Qnot_lt_le in H. rewrite <- Zle_Qle in H. by rewrite Z.min_l by lia.
Qed.

Lemma Math_max_of_Z (a b : Z) :
  JS.Math_max (JS.of_Z a) (JS.of_Z b) = JS.of_Z (Z.max a b).
Proof.
  unfold JS.of_Z. rewrite Math_max_fin.
  destruct (Qlt_bool_spec (inject_Z a) (inject_Z b)) as [H|H].
  - rewrite <- Zlt_Qlt in H. by rewrite Z.max_r by lia.
  - apply Qnot_lt_le in H. rewrite <- Zle_Qle in H. by rewrite Z.max_l by lia.
Qed.

(** [clamp] on a finite number, and the byte that is stored for it. *)
Lemma clamp_fin (q : Q) :
  clamp (JS.Fin q) = JS.of_Z (Z.max 0 (Z.min 255 (Qfloor (q + (1 # 2))))).
Proof.
  unfold clamp. cbn [JS.Math_round].
  change (JS.Fin (inject_Z ?z)) with (JS.of_Z z).
  change 255%js with (JS.of_Z 255). change 0%js with (JS.of_Z 0).
  by rewrite Math_min_of_Z, Math_max_of_Z.
Qed.

Lemma stored_clamp_fin (q : Q) :
  JS.ToUint8Clamp (clamp (JS.Fin q)) = Z.max 0 (Z.min 255 (Qfloor (q + (1 # 2)))).
Proof. rewrite clamp_fin. apply ToUint8Clamp_byte. lia. Qed.

Lemma ToUint8Clamp_range (a : JS.number) : 0 ≤ JS.ToUint8Clamp a ≤ 255.
Proof.
  destruct a as [q| | |]; cbn; try lia.
  destruct (Qle_bool q 0) eqn:H0; [lia|].
  destruct (Qle_bool 255 q) eqn:H1; [lia|].
  assert (0 < q)%Q as Hq0.
  { apply Qnot_le_lt. intros H. apply Qle_bool_iff in H. congruence. }
  assert (q < 255)%Q as Hq1.
  { apply Qnot_le_lt. intros H. apply Qle_bool_iff in H. congruence. }
  assert (0 ≤ Qfloor q < 255).
  { split.
    - change 0 with (Qfloor 0). apply Qfloor_resp_le. lra.
    - rewrite Zlt_Qlt. pose proof (Qfloor_le q). change (inject_Z 255) with 255%Q. lra. }
  unfold JS.round_half_even.
  destruct (_ ?= _)%Q; [destruct (Z.even _)|..]; lia.
Qed.

End RoundingFacts.

Section PixelLoop.

Variables f0 f1 f2 f3 : Z → JS.number.

Lemma foldl_ext_eq {A B : Type} (f g : A → B → A) (a : A) (l : list B) :
  (∀ a b, f a b = g a b) → foldl f a l = foldl g a l.
Proof.
  intros H. revert a. induction l as [|b l IH]; intros a; cbn; [done|].
  by rewrite H, IH.
Qed.

(** A loop over the pixels that stores four values per pixel leaves,
    at every pixel, the bytes these values are converted to. *)
Lemma pixel_loop_lookup (n : nat) (m k c : Z) :
  Z.of_nat n = 4 * m → 0 ≤ k < m → 0 ≤ c < 4 →
  Arr.lookup
    (foldl (λ output i,
       Arr.set (Arr.set (Arr.set (Arr.set output i (f0 i)) (i + 1) (f1 i))
                  (i + 2) (f2 i)) (i + 3) (f3 i))
       (Arr.zeros n) (pixel_starts n))
    (4 * k + c)
  = Some (JS.ToUint8Clamp
            (if decide (c = 0) then f0 (4 * k)
             else if decide (c = 1) then f1 (4 * k)
             else if decide (c = 2) then f2 (4 * k)
             else f3 (4 * k))).
Proof.
  intros Hn Hk Hc. unfold pixel_starts.
  replace ((Z.of_nat n + 3) `div` 4) with m
    by (apply (Z.div_unique _ 4 m 3); lia).
  set (body := λ output i,
       Arr.set (Arr.set (Arr.set (Arr.set output i (f0 i)) (i + 1) (f1 i))
                  (i + 2) (f2 i)) (i + 3) (f3 i)).
  assert (Hinv : ∀ j : nat, Z.of_nat j ≤ m →
    let out := foldl body (Arr.zeros n) ((λ k, 4 * k) <$> range 0 (Z.of_nat j)) in
    length out = n ∧
    ∀ k c, 0 ≤ k < Z.of_nat j → 0 ≤ c < 4 →
      Arr.lookup out (4 * k + c)
      = Some (JS.ToUint8Clamp
                (if decide (c = 0) then f0 (4 * k)
                 else if decide (c = 1) then f1 (4 * k)
                 else if decide (c = 2) then f2 (4 * k)
                 else f3 (4 * k)))).
  { induction j as [|j IH]; intros Hj out.
    - split; [apply length_zeros | intros; lia].
    - destruct IH as [Hlen Hprev]; [lia|].
      subst out. rewrite Nat2Z.inj_succ, <- Z.add_1_r, range_snoc by lia.
      rewrite fmap_app, foldl_app. cbn [fmap list_fmap foldl].
      set (prev := foldl body (Arr.zeros n) ((λ k, 4 * k) <$> range 0 (Z.of_nat j))) in *.
      rewrite Z.add_0_l.
      split; [unfold body; by rewrite !Arr_length_set|].
      intros k' c' Hk' Hc'. unfold body. cbv beta.
      destruct (decide (k' = Z.of_nat j)) as [->|Hne].
      + assert (c' = 0 ∨ c' = 1 ∨ c' = 2 ∨ c' = 3) as [-> | [-> | [-> | ->]]] by lia;
          repeat (rewrite decide_False by lia); rewrite ?decide_True by lia.
        * rewrite Z.add_0_r. rewrite !Arr_lookup_set_ne by lia.
          by rewrite Arr_lookup_set_eq by lia.
        * rewrite !Arr_lookup_set_ne by lia.
          by rewrite Arr_lookup_set_eq by (rewrite ?Arr_length_set; lia).
        * rewrite !Arr_lookup_set_ne by lia.
          by rewrite Arr_lookup_set_eq by (rewrite ?Arr_length_set; lia).
        * by rewrite Arr_lookup_set_eq by (rewrite ?Arr_length_set; lia).
      + rewrite !Arr_lookup_set_ne by lia. apply Hprev; lia. }
  destruct (Hinv (Z.to_nat m) ltac:(lia)) as [_ H].
  rewrite Z2Nat.id in H by lia. by apply H.
Qed.

End PixelLoop.
Section FilterFacts.

Lemma byte_lookup (img : ImageData) (i v : Z) :
  byte_image img → Arr.lookup (data img) i = Some v → 0 ≤ v ≤ 255.
Proof.
  unfold byte_image, Arr.lookup. rewrite Forall_lookup. intros Hb Hv.
  case_decide; [|done]. by eapply Hb.
Qed.

Lemma Arr_get_lookup (arr : list Z) (i v : Z) :
  Arr.lookup arr i = Some v → Arr.get arr i = JS.of_Z v.
Proof. unfold Arr.get. by intros ->. Qed.

Lemma wf_pixels (img : ImageData) :
  wf_image img → Z.of_nat (length (data img)) = 4 * (width img * height img).
Proof. intros (_ & _ & ->). lia. Qed.

(** The position of a pixel, for a position in the array. *)
Lemma pixel_of_index (img : ImageData) (i : Z) :
  wf_image img → 0 ≤ i < Z.of_nat (length (data img)) →
  ∃ k c, i = 4 * k + c ∧ 0 ≤ k < width img * height img ∧ 0 ≤ c < 4.
Proof.
  intros Hwf Hi. rewrite (wf_pixels img Hwf) in Hi.
  exists (i `div` 4), (i `mod` 4).
  pose proof (Z.div_mod i 4 ltac:(lia)). pose proof (Z.mod_pos_bound i 4 ltac:(lia)).
  split; [lia|]. split; [|lia]. split; [apply Z.div_pos; lia|].
  apply Z.div_lt_upper_bound; lia.
Qed.

(** Two arrays of the same length with the same elements are equal. *)
Lemma Arr_ext (a b : list Z) :
  length a = length b →
  (∀ i, 0 ≤ i < Z.of_nat (length a) → Arr.lookup a i = Arr.lookup b i) →
  a = b.
Proof.
  intros Hlen H. apply list_eq_same_length with (length a); [done..|].
  intros i x y Hi Hx Hy.
  specialize (H (Z.of_nat i) ltac:(lia)). unfold Arr.lookup in H.
  rewrite !decide_True, !Nat2Z.id in H by lia. congruence.
Qed.

Lemma applyBrightness_lookup (img : ImageData) (brightness : JS.number) (k c : Z) :
  wf_image img → (brightness === 0)%js = false →
  0 ≤ k < width img * height img → 0 ≤ c < 4 →
  Arr.lookup (data (applyBrightness img brightness)) (4 * k + c)
  = Some (JS.ToUint8Clamp
            (if decide (c = 3) then Arr.get (data img) (4 * k + 3)
             else clamp (Arr.get (data img) (4 * k + c) + brightness / 100 * 128)%js)).
Proof.
  intros Hwf Hb Hk Hc. unfold applyBrightness. rewrite Hb. cbn [data].
  rewrite (pixel_loop_lookup
             (λ i, clamp (Arr.get (data img) i + brightness / 100 * 128)%js)
             (λ i, clamp (Arr.get (data img) (i + 1) + brightness / 100 * 128)%js)
             (λ i, clamp (Arr.get (data img) (i + 2) + brightness / 100 * 128)%js)
             (λ i, Arr.get (data img) (i + 3))
             _ (width img * height img)) by (try apply wf_pixels; done).
  assert (c = 0 ∨ c = 1 ∨ c = 2 ∨ c = 3) as [-> | [-> | [-> | ->]]] by lia;
    repeat (rewrite decide_False by lia); rewrite ?decide_True by lia;
    by rewrite ?Z.add_0_r.
Qed.

Lemma applyContrast_lookup (img : ImageData) (contrast : JS.number) (k c : Z) :
  wf_image img → (contrast === 0)%js = false →
  0 ≤ k < width img * height img → 0 ≤ c < 4 →
  Arr.lookup (data (applyContrast img contrast)) (4 * k + c)
  = Some (JS.ToUint8Clamp
            (if decide (c = 3) then Arr.get (data img) (4 * k + 3)
             else clamp (259 * (contrast + 255) / (255 * (259 - contrast))
                         * (Arr.get (data img) (4 * k + c) - 128) + 128)%js)).
Proof.
  intros Hwf Hb Hk Hc. unfold applyContrast. rewrite Hb. cbn [data].
  rewrite (pixel_loop_lookup
             (λ i, clamp (259 * (contrast + 255) / (255 * (259 - contrast))
                          * (Arr.get (data img) i - 128) + 128)%js)
             (λ i, clamp (259 * (contrast + 255) / (255 * (259 - contrast))
                          * (Arr.get (data img) (i + 1) - 128) + 128)%js)
             (λ i, clamp (259 * (contrast + 255) / (255 * (259 - contrast))
                          * (Arr.get (data img) (i + 2) - 128) + 128)%js)
             (λ i, Arr.get (data img) (i + 3))
             _ (width img * height img)) by (try apply wf_pixels; done).
  assert (c = 0 ∨ c = 1 ∨ c = 2 ∨ c = 3) as [-> | [-> | [-> | ->]]] by lia;
    repeat (rewrite decide_False by lia); rewrite ?decide_True by lia;
    by rewrite ?Z.add_0_r.
Qed.

(** The colour [applySaturation] computes for the pixel that starts at
    [i]. *)
Lemma applySaturation_lookup (img : ImageData) (saturation : JS.number) (k c : Z) :
  wf_image img → (saturation === 100)%js = false →
  0 ≤ k < width img * height img → 0 ≤ c < 4 →
  Arr.lookup (data (applySaturation img saturation)) (4 * k + c)
  = Some (JS.ToUint8Clamp
            (let '(h, s, l) := rgbToHsl (Arr.get (data img) (4 * k))
                                 (Arr.get (data img) (4 * k + 1))
                                 (Arr.get (data img) (4 * k + 2)) in
             let '(r, g, b) :=
               hslToRgb h (JS.Math_min 1 (JS.Math_max 0 (s * (saturation / 100))))%js l in
             if decide (c = 0) then r
             else if decide (c = 1) then g
             else if decide (c = 2) then b
             else Arr.get (data img) (4 * k + 3))).
Proof.
  intros Hwf Hb Hk Hc. unfold applySaturation. rewrite Hb. cbn [data].
  set (colour := λ i,
         let '(h, s, l) := rgbToHsl (Arr.get (data img) i)
                             (Arr.get (data img) (i + 1))
                             (Arr.get (data img) (i + 2)) in
         hslToRgb h (JS.Math_min 1 (JS.Math_max 0 (s * (saturation / 100))))%js l).
  erewrite (foldl_ext_eq _
              (λ output i,
                 Arr.set (Arr.set (Arr.set (Arr.set output i (colour i).1.1)
                                     (i + 1) (colour i).1.2)
                            (i + 2) (colour i).2)
                   (i + 3) (Arr.get (data img) (i + 3)))); cycle 1.
  { intros o i. subst colour. cbv beta.
    destruct (rgbToHsl _ _ _) as [[h s] l].
    by destruct (hslToRgb _ _ _) as [[r g] b]. }
  rewrite (pixel_loop_lookup _ _ _ _ _ (width img * height img))
    by (try apply wf_pixels; done).
  subst colour. cbv beta.
  destruct (rgbToHsl _ _ _) as [[h s] l].
  destruct (hslToRgb _ _ _) as [[r g] b]. cbn [fst snd].
  by repeat case_decide.
Qed.

End FilterFacts.
Section AlphaFacts.

Lemma applyConvolution_lookup (img : ImageData) (kernel : list JS.number)
    (divisor : JS.number) (x y ch : Z) :
  wf_image img → 0 ≤ x < width img → 0 ≤ y < height img → 0 ≤ ch < 4 →
  Arr.lookup (data (applyConvolution img kernel divisor)) ((y * width img + x) * 4 + ch)
  = Some (convolved img kernel divisor x y ch).
Proof.
  intros Hwf Hx Hy Hch. rewrite applyConvolution_unfold. cbn [data].
  pose proof (convolution_rows img kernel divisor (Z.to_nat (height img))
                (Arr.zeros (length (data img))) Hwf) as Hrows.
  destruct Hwf as (Hw & Hh & Hlen).
  rewrite Z2Nat.id in Hrows by lia.
  destruct Hrows as [Hl Hinv]; [lia | |].
  { split; [apply length_zeros | intros; nia]. }
  apply Hinv; nia.
Qed.

(** The same, by the number of the pixel. *)
Lemma applyConvolution_lookup_pixel (img : ImageData) (kernel : list JS.number)
    (divisor : JS.number) (k ch : Z) :
  wf_image img → 0 ≤ k < width img * height img → 0 ≤ ch < 4 →
  Arr.lookup (data (applyConvolution img kernel divisor)) (4 * k + ch)
  = Some (convolved img kernel divisor (k `mod` width img) (k `div` width img) ch).
Proof.
  intros Hwf Hk Hch. pose proof Hwf as (Hw & Hh & _).
  assert (0 < width img) by nia.
  pose proof (Z.div_mod k (width img) ltac:(lia)).
  pose proof (Z.mod_pos_bound k (width img) ltac:(lia)).
  rewrite <- (applyConvolution_lookup img kernel divisor) ; [f_equal; lia|done|lia| |done].
  split; [apply Z.div_pos; lia|]. apply Z.div_lt_upper_bound; nia.
Qed.

Lemma bytes_of_lookups (out img : ImageData) :
  wf_image img → same_shape out img →
  (∀ k c, 0 ≤ k < width img * height img → 0 ≤ c < 4 →
          ∃ a, Arr.lookup (data out) (4 * k + c) = Some (JS.ToUint8Clamp a)) →
  byte_image out.
Proof.
  intros Hwf Hshape H. pose proof (same_shape_wf _ _ Hshape Hwf) as Hwf'.
  destruct Hshape as (Hw & Hh & Hl).
  unfold byte_image. rewrite Forall_lookup. intros i v Hv.
  destruct (pixel_of_index out (Z.of_nat i) Hwf') as (k & c & Hi & Hk & Hc).
  { apply lookup_lt_Some in Hv. lia. }
  destruct (H k c) as [a Ha]; [by rewrite <- Hw, <- Hh | done |].
  rewrite <- Hi in Ha. unfold Arr.lookup in Ha.
  rewrite decide_True, Nat2Z.id in Ha by lia.
  assert (v = JS.ToUint8Clamp a) as -> by congruence.
  apply ToUint8Clamp_range.
Qed.

Lemma alpha_byte (img : ImageData) (k : Z) :
  wf_image img → byte_image img → 0 ≤ k < width img * height img →
  Some (JS.ToUint8Clamp (Arr.get (data img) (4 * k + 3)))
  = Arr.lookup (data img) (4 * k + 3).
Proof.
  intros Hwf Hb Hk.
  destruct (Arr_lookup_lt (data img) (4 * k + 3)) as [v Hv];
    [rewrite (wf_pixels img Hwf); lia|].
  rewrite (Arr_get_lookup _ _ _ Hv), Hv. f_equal.
  apply ToUint8Clamp_byte. by eapply byte_lookup.
Qed.

Lemma kept_refl (img : ImageData) : byte_image img → kept img img.
Proof. intros Hb. split; [apply same_shape_refl|]. by split. Qed.

Lemma kept_trans (a b c : ImageData) : kept a b → kept b c → kept a c.
Proof.
  intros (Hs1 & Hb1 & Ha1) (Hs2 & Hb2 & Ha2).
  split; [by eapply same_shape_trans|]. split; [done|].
  intros k Hk. rewrite Ha1, Ha2; [done..|].
  destruct Hs2 as (-> & -> & _). done.
Qed.

Lemma applyConvolution_kept (img : ImageData) kernel divisor :
  wf_image img → byte_image img → kept (applyConvolution img kernel divisor) img.
Proof.
  intros Hwf Hb. split; [apply applyConvolution_shape|]. split.
  - apply (bytes_of_lookups _ img Hwf (applyConvolution_shape _ _ _)).
    intros k c Hk Hc. rewrite applyConvolution_lookup_pixel by done.
    unfold convolved, convolved_channel. case_decide; by eexists.
  - intros k Hk. rewrite applyConvolution_lookup_pixel by (done || lia).
    unfold convolved. rewrite decide_True by done.
    pose proof Hwf as (Hw & Hh & _). assert (0 < width img) by nia.
    replace ((k `div` width img * width img + k `mod` width img) * 4 + 3)
      with (4 * k + 3)
      by (pose proof (Z.div_mod k (width img) ltac:(lia)); lia).
    by apply alpha_byte.
Qed.

Lemma applySharpen_kept (img : ImageData) intensity :
  wf_image img → byte_image img → kept (applySharpen img intensity) img.
Proof.
  intros Hwf Hb. unfold applySharpen.
  destruct (_ <=? _)%js; [by apply kept_refl | by apply applyConvolution_kept].
Qed.

Lemma iter_convolution_kept (img : ImageData) kernel divisor (n : nat) :
  wf_image img → byte_image img →
  kept (Nat.iter n (λ result, applyConvolution result kernel divisor) img) img.
Proof.
  intros Hwf Hb. induction n as [|n IH]; [by apply kept_refl|].
  cbn [Nat.iter]. eapply kept_trans; [|exact IH].
  destruct IH as (Hs & Hb' & _).
  apply applyConvolution_kept; [by eapply same_shape_wf | done].
Qed.

Lemma applyNoiseReduction_kept (img result : ImageData) intensity :
  wf_image img → byte_image img →
  applyNoiseReduction img intensity = Some result → kept result img.
Proof.
  intros Hwf Hb. unfold applyNoiseReduction.
  destruct (_ <=? _)%js; [intros [= <-]; by apply kept_refl|].
  destruct (loop_count _) as [n|]; [|done].
  intros [= <-]. by apply iter_convolution_kept.
Qed.

Lemma applyBrightness_kept (img : ImageData) brightness :
  wf_image img → byte_image img → kept (applyBrightness img brightness) img.
Proof.
  intros Hwf Hb. destruct (brightness === 0)%js eqn:E.
  { unfold applyBrightness. rewrite E. by apply kept_refl. }
  split; [apply applyBrightness_shape|]. split.
  - apply (bytes_of_lookups _ img Hwf (applyBrightness_shape _ _)).
    intros k c Hk Hc. rewrite applyBrightness_lookup by done. by eexists.
  - intros k Hk. rewrite applyBrightness_lookup by (done || lia).
    rewrite decide_True by done. by apply alpha_byte.
Qed.

Lemma applyContrast_kept (img : ImageData) contrast :
  wf_image img → byte_image img → kept (applyContrast img contrast) img.
Proof.
  intros Hwf Hb. destruct (contrast === 0)%js eqn:E.
  { unfold applyContrast. rewrite E. by apply kept_refl. }
  split; [apply applyContrast_shape|]. split.
  - apply (bytes_of_lookups _ img Hwf (applyContrast_shape _ _)).
    intros k c Hk Hc. rewrite applyContrast_lookup by done. by eexists.
  - intros k Hk. rewrite applyContrast_lookup by (done || lia).
    rewrite decide_True by done. by apply alpha_byte.
Qed.

Lemma applySaturation_kept (img : ImageData) saturation :
  wf_image img → byte_image img → kept (applySaturation img saturation) img.
Proof.
  intros Hwf Hb. destruct (saturation === 100)%js eqn:E.
  { unfold applySaturation. rewrite E. by apply kept_refl. }
  split; [apply applySaturation_shape|]. split.
  - apply (bytes_of_lookups _ img Hwf (applySaturation_shape _ _)).
    intros k c Hk Hc. rewrite applySaturation_lookup by done. by eexists.
  - intros k Hk. rewrite applySaturation_lookup by (done || lia).
    destruct (rgbToHsl _ _ _) as [[h s] l].
    destruct (hslToRgb _ _ _) as [[r g] b].
    repeat (rewrite decide_False by lia). by apply alpha_byte.
Qed.

End AlphaFacts.


Section ToneFacts.

Lemma Qfloor_half_Z (x : Q) (z : Z) : (x == inject_Z z)%Q → Qfloor (x + (1 # 2)) = z.
Proof.
  intros Hx. apply Qfloor_unique; rewrite Hx, ?inject_Z_plus;
    change (inject_Z 1) with 1%Q; lra.
Qed.

(** A channel after [applyBrightness]: the offset is added and the sum
    rounded and clamped. *)
Lemma brightness_channel (v : Z) (q : Q) :
  JS.ToUint8Clamp (clamp (JS.of_Z v + JS.Fin q / 100 * 128)%js)
  = Z.max 0 (Z.min 255 (v + Qfloor (q / 100 * 128 + (1 # 2)))).
Proof.
  change (JS.Fin q / 100)%js with (JS.Fin (Qred (q / inject_Z 100))).
  cbn [JS.mul JS.add JS.of_Z]. rewrite stored_clamp_fin.
  rewrite <- Qfloor_add_Z. do 2 f_equal.
  apply Qfloor_comp. rewrite !Qred_correct.
  change (inject_Z 100) with 100%Q. change (inject_Z 128) with 128%Q. ring.
Qed.

(** A channel after [applyContrast]. *)
Lemma contrast_channel (v : Z) (q : Q) :
  ¬ (q == 259)%Q →
  JS.ToUint8Clamp
    (clamp (259 * (JS.Fin q + 255) / (255 * (259 - JS.Fin q)) * (JS.of_Z v - 128) + 128)%js)
  = Z.max 0 (Z.min 255
      (Qfloor (259 * (q + 255) / (255 * (259 - q)) * (inject_Z v - 128) + 128 + (1 # 2)))).
Proof.
  intros Hq.
  cbn [JS.mul JS.add JS.sub JS.neg JS.of_Z JS.div].
  destruct (Qeq_bool _ 0) eqn:E.
  { exfalso. apply Qeq_bool_iff in E. rewrite !Qred_correct in E. apply Hq.
    change (inject_Z 255) with 255%Q in E. change (inject_Z 259) with 259%Q in E. lra. }
  cbn [JS.mul JS.add]. rewrite stored_clamp_fin. do 2 f_equal.
  apply Qfloor_comp. rewrite !Qred_correct.
  change (inject_Z 255) with 255%Q. change (inject_Z 259) with 259%Q.
  change (inject_Z 128) with 128%Q. reflexivity.
Qed.

End ToneFacts.


(** X16. Contrast, channel by channel, for a value between -255 and 259:
    raising the contrast never moves a colour channel towards the
    mid-grey 128, and lowering it never moves one away from 128 nor
    across it; a channel at 128 stays there. *)
Theorem applyContrast_direction (img : ImageData) (q : Q) (k c v : Z) :
  wf_image img → byte_image img →
  0 ≤ k < width img * height img → 0 ≤ c < 3 →
  Arr.lookup (data img) (4 * k + c) = Some v →
  (-255 <= q)%Q → (q < 259)%Q →
  ∃ v',
    Arr.lookup (data (applyContrast img (JS.Fin q))) (4 * k + c) = Some v'
    ∧ 0 ≤ v' ≤ 255
    ∧ ((0 <= q)%Q → (128 ≤ v → v ≤ v') ∧ (v ≤ 128 → v' ≤ v))
    ∧ ((q <= 0)%Q → (128 ≤ v → 128 ≤ v' ≤ v) ∧ (v ≤ 128 → v ≤ v' ≤ 128)).
Proof.
  intros Hwf Hb Hk Hc Hv Hlo Hhi. pose proof (byte_lookup _ _ _ Hb Hv) as Hbyte.
  destruct (JS.Fin q === 0)%js eqn:E.
  - unfold applyContrast. rewrite E. exists v. split; [done|]. split; [done|].
    split; intros _; lia.
  - rewrite applyContrast_lookup by (done || lia).
    rewrite decide_False by lia. rewrite (Arr_get_lookup _ _ _ Hv).
    rewrite contrast_channel by lra.
    eexists. split; [reflexivity|]. split; [lia|].
    set (f := (259 * (q + 255) / (255 * (259 - q)))%Q).
    assert (0 < 255 * (259 - q))%Q as HD by lra.
    assert (0 <= f)%Q as Hf0 by (apply Qle_shift_div_l; lra).
    set (X := (f * (inject_Z v - 128) + 128)%Q).
    pose proof (Qfloor_le (X + (1 # 2))) as Hfl.
    pose proof (Qlt_floor (X + (1 # 2))) as Hfu.
    rewrite inject_Z_plus in Hfu. change (inject_Z 1) with 1%Q in Hfu.
    assert (Hup : ∀ z : Z, (inject_Z z <= X)%Q → z ≤ Qfloor (X + (1 # 2))).
    { intros z Hz. rewrite Zle_Qle.
      assert (inject_Z z < inject_Z (Qfloor (X + (1 # 2)) + 1))%Q as H
        by (rewrite inject_Z_plus; change (inject_Z 1) with 1%Q; lra).
      rewrite <- Zlt_Qlt in H. rewrite <- Zle_Qle. lia. }
    assert (Hdown : ∀ z : Z, (X <= inject_Z z)%Q → Qfloor (X + (1 # 2)) ≤ z).
    { intros z Hz.
      assert (inject_Z (Qfloor (X + (1 # 2))) < inject_Z (z + 1))%Q as H
        by (rewrite inject_Z_plus; change (inject_Z 1) with 1%Q; lra).
      rewrite <- Zlt_Qlt in H. lia. }
    assert (H128 : (inject_Z 128 == 128)%Q) by reflexivity.
    split.
    + intros Hq. assert (1 <= f)%Q as Hf1 by (apply Qle_shift_div_l; lra).
      split; intros Hv128; rewrite Zle_Qle, H128 in Hv128.
      * assert (v ≤ Qfloor (X + (1 # 2))) by (apply Hup; subst X; nra). lia.
      * assert (Qfloor (X + (1 # 2)) ≤ v) by (apply Hdown; subst X; nra). lia.
    + intros Hq. assert (f <= 1)%Q as Hf1 by (apply Qle_shift_div_r; lra).
      split; intros Hv128; rewrite Zle_Qle, H128 in Hv128.
      * assert (128 ≤ Qfloor (X + (1 # 2))) by (apply Hup; rewrite H128; subst X; nra).
        assert (Qfloor (X + (1 # 2)) ≤ v) by (apply Hdown; subst X; nra). lia.
      * assert (v ≤ Qfloor (X + (1 # 2))) by (apply Hup; subst X; nra).
        assert (Qfloor (X + (1 # 2)) ≤ 128)
          by (apply Hdown; rewrite H128; subst X; nra).
        lia.
Qed.

Lemma applyContrast_direction_witness :
  wf_image test_image ∧ byte_image test_image
  ∧ ∃ v', Arr.lookup (data (applyContrast test_image 60%js)) (4 * 1 + 1) = Some v'
          ∧ 200 ≤ v'.
Proof.
  assert (Hwf : wf_image test_image) by (repeat split; cbn; lia).
  assert (Hb : byte_image test_image) by (repeat constructor; lia).
  split; [exact Hwf|]. split; [exact Hb|].
  destruct (applyContrast_direction test_image 60 1 1 200 Hwf Hb
              ltac:(cbn; lia) ltac:(lia) eq_refl ltac:(done) ltac:(done))
    as (v' & Hv' & _ & Hup & _).
  exists v'. split; [exact Hv'|]. apply Hup; [done | lia].
Defined.
Section GreyFacts.

Lemma Math_max_same (a : Q) : JS.Math_max (JS.Fin a) (JS.Fin a) = JS.Fin a.
Proof. rewrite Math_max_fin. by destruct (JS.Qlt_bool a a). Qed.

Lemma Math_min_same (a : Q) : JS.Math_min (JS.Fin a) (JS.Fin a) = JS.Fin a.
Proof. rewrite Math_min_fin. by destruct (JS.Qlt_bool a a). Qed.

Lemma Qeq_bool_same (a : Q) : Qeq_bool a a = true.
Proof. by apply Qeq_bool_iff. Qed.

(** A grey pixel has no hue and no saturation, and its lightness is its
    level. *)
Lemma rgbToHsl_grey (v : Z) :
  ∃ l, rgbToHsl (JS.of_Z v) (JS.of_Z v) (JS.of_Z v) = (0, 0, JS.Fin l)%js
       ∧ (l * 255 == inject_Z v)%Q.
Proof.
  unfold rgbToHsl.
  change (JS.of_Z v / 255)%js with (JS.Fin (Qred (inject_Z v / inject_Z 255))).
  rewrite !Math_max_same, !Math_min_same.
  cbn [JS.eqb]. rewrite Qeq_bool_same. cbn [negb JS.add JS.div].
  change (Qeq_bool (inject_Z 2) 0) with false. cbv iota.
  eexists. split; [reflexivity|].
  rewrite !Qred_correct. change (inject_Z 255) with 255%Q.
  change (inject_Z 2) with 2%Q. field.
Qed.

(** Without saturation [hslToRgb] gives the grey of the lightness. *)
Lemma hslToRgb_grey (h : JS.number) (l : Q) (v : Z) :
  (l * 255 == inject_Z v)%Q →
  hslToRgb h 0%js (JS.Fin l) = (JS.of_Z v, JS.of_Z v, JS.of_Z v).
Proof.
  intros Hl. unfold hslToRgb. cbn [JS.eqb JS.mul JS.Math_round].
  change (Qeq_bool (inject_Z 0) (inject_Z 0)) with true. cbv iota.
  rewrite (Qfloor_half_Z _ v); [done|].
  rewrite Qred_correct. change (inject_Z 255) with 255%Q. exact Hl.
Qed.

Lemma zero_saturation (q : Q) :
  JS.Math_min 1 (JS.Math_max 0 (0 * (JS.Fin q / 100)))%js = 0%js.
Proof.
  change (JS.Fin q / 100)%js with (JS.Fin (Qred (q / inject_Z 100))).
  cbn [JS.mul JS.of_Z].
  match goal with
  | |- context [Qred (?a * ?b)] =>
      rewrite (Qred_complete (a * b) 0) by (change (inject_Z 0) with 0%Q; ring)
  end.
  reflexivity.
Qed.

End GreyFacts.

(** X17. Saturation leaves grey alone: a pixel whose three colour
    channels are equal comes out unchanged, alpha included, for every
    finite saturation value. *)
Theorem applySaturation_grey (img : ImageData) (q : Q) (k v : Z) :
  wf_image img → byte_image img → 0 ≤ k < width img * height img →
  (∀ c, 0 ≤ c < 3 → Arr.lookup (data img) (4 * k + c) = Some v) →
  ∀ c, 0 ≤ c < 4 →
    Arr.lookup (data (applySaturation img (JS.Fin q))) (4 * k + c)
    = Arr.lookup (data img) (4 * k + c).
Proof.
  intros Hwf Hb Hk Hgrey c Hc.
  destruct (JS.Fin q === 100)%js eqn:E.
  { unfold applySaturation. by rewrite E. }
  rewrite applySaturation_lookup by done.
  pose proof (Hgrey 0 ltac:(lia)) as H0. rewrite Z.add_0_r in H0.
  rewrite (Arr_get_lookup _ _ _ H0).
  rewrite (Arr_get_lookup _ _ _ (Hgrey 1 ltac:(lia))).
  rewrite (Arr_get_lookup _ _ _ (Hgrey 2 ltac:(lia))).
  destruct (rgbToHsl_grey v) as (l & -> & Hl).
  rewrite zero_saturation, (hslToRgb_grey _ l v Hl).
  pose proof (byte_lookup _ _ _ Hb H0) as Hbyte.
  assert (c = 0 ∨ c = 1 ∨ c = 2 ∨ c = 3) as [-> | [-> | [-> | ->]]] by lia;
    repeat (rewrite decide_False by lia); rewrite ?decide_True by lia.
  - rewrite Z.add_0_r, H0. f_equal. by apply ToUint8Clamp_byte.
  - rewrite (Hgrey 1) by lia. f_equal. by apply ToUint8Clamp_byte.
  - rewrite (Hgrey 2) by lia. f_equal. by apply ToUint8Clamp_byte.
  - by apply alpha_byte.
Qed.

Lemma applySaturation_grey_witness :
  wf_image test_image ∧ byte_image test_image
  ∧ Arr.lookup (data (applySaturation test_image 0%js)) (4 * 3 + 1) = Some 90.
Proof.
  assert (Hwf : wf_image test_image) by (repeat split; cbn; lia).
  assert (Hb : byte_image test_image) by (repeat constructor; lia).
  split; [exact Hwf|]. split; [exact Hb|].
  rewrite (applySaturation_grey test_image 0 3 90 Hwf Hb ltac:(cbn; lia)).
  - reflexivity.
  - intros c Hc.
    assert (c = 0 ∨ c = 1 ∨ c = 2) as [-> | [-> | ->]] by lia; reflexivity.
  - lia.
Defined.
Section FlatFacts.

Variable img : ImageData.
Variable colour : Z → Z.
Hypothesis Hwf : wf_image img.
Hypothesis Huni : uniform img colour.
Hypothesis Hcol : ∀ c, 0 ≤ c < 4 → 0 ≤ colour c ≤ 255.

(** Every sample of a neighbourhood is the colour of the bitmap. *)
Lemma uniform_sample (x y i ch : Z) :
  0 ≤ x < width img → 0 ≤ y < height img → 0 ≤ ch < 4 →
  sample img x y i ch = JS.of_Z (colour ch).
Proof.
  intros Hx Hy Hch. unfold sample, clamp_coord.
  apply Arr_get_lookup.
  match goal with
  | |- Arr.lookup _ ((?py * _ + ?px) * 4 + _) = _ =>
      replace ((py * width img + px) * 4 + ch) with (4 * (py * width img + px) + ch)
        by lia
  end.
  apply Huni; [nia | done].
Qed.

Lemma uniform_weighted_sum (kernel : list JS.number) (x y ch : Z) :
  0 ≤ x < width img → 0 ≤ y < height img → 0 ≤ ch < 4 →
  weighted_sum img kernel x y ch
  = foldl (λ acc i, acc + Arr.kernel_get kernel i * JS.of_Z (colour ch))%js 0%js
      (range 0 9).
Proof.
  intros Hx Hy Hch. unfold weighted_sum. apply foldl_ext_eq.
  intros acc i. by rewrite uniform_sample.
Qed.

(** A convolution whose weighted sum, divided, is the colour itself
    gives the bitmap back. *)
Lemma uniform_convolution_fixed (kernel : list JS.number) (divisor : JS.number) :
  (∀ v : Z, 0 ≤ v ≤ 255 →
     ∃ s, (foldl (λ acc i, acc + Arr.kernel_get kernel i * JS.of_Z v)%js 0%js (range 0 9)
           / divisor)%js = JS.Fin s
          ∧ (s == inject_Z v)%Q) →
  applyConvolution img kernel divisor = img.
Proof.
  intros Hsum.
  assert (data (applyConvolution img kernel divisor) = data img) as Hdata.
  { apply Arr_ext; [apply applyConvolution_shape|].
    intros i Hi.
    destruct (pixel_of_index img i Hwf) as (k & c & -> & Hk & Hc).
    { destruct (applyConvolution_shape img kernel divisor) as (_ & _ & <-). done. }
    rewrite applyConvolution_lookup_pixel, (Huni k c) by done. f_equal.
    pose proof Hwf as (Hw & Hh & _). assert (0 < width img) by nia.
    assert (0 ≤ k `mod` width img < width img) by (apply Z.mod_pos_bound; lia).
    assert (0 ≤ k `div` width img < height img)
      by (split; [apply Z.div_pos; lia | apply Z.div_lt_upper_bound; nia]).
    unfold convolved. case_decide as Hc3.
    - subst c.
      replace ((k `div` width img * width img + k `mod` width img) * 4 + 3)
        with (4 * k + 3)
        by (pose proof (Z.div_mod k (width img) ltac:(lia)); lia).
      rewrite (Arr_get_lookup _ _ _ (Huni k 3 Hk Hc)).
      apply ToUint8Clamp_byte. by apply Hcol.
    - unfold convolved_channel. rewrite uniform_weighted_sum by done.
      destruct (Hsum (colour c) (Hcol c Hc)) as (s & -> & Hs).
      cbn [JS.Math_round]. rewrite (Qfloor_half_Z _ _ Hs).
      change (JS.Fin (inject_Z ?z)) with (JS.of_Z z). unfold clamp_0_255.
      change 255%js with (JS.of_Z 255). change 0%js with (JS.of_Z 0).
      rewrite Math_min_of_Z, Math_max_of_Z.
      pose proof (Hcol c Hc). rewrite Z.min_r, Z.max_r by lia.
      by apply ToUint8Clamp_byte. }
  destruct img as [w h d]. unfold applyConvolution in *. cbn in *. by rewrite Hdata.
Qed.

End FlatFacts.
Section FlatKernels.

Lemma sharpen_sum (q : Q) (v : Z) :
  let t := (JS.Fin q / 100)%js in
  let center := (1 + 8 * t)%js in
  let edge := JS.neg t in
  ∃ s, (foldl (λ acc i,
          acc + Arr.kernel_get [edge; edge; edge; edge; center; edge; edge; edge; edge] i
                * JS.of_Z v)%js 0%js (range 0 9) / 1)%js = JS.Fin s
       ∧ (s == inject_Z v)%Q.
Proof.
  intros t center edge. subst t center edge.
  change (JS.Fin q / 100)%js with (JS.Fin (Qred (q / inject_Z 100))).
  change (range 0 9) with [0; 1; 2; 3; 4; 5; 6; 7; 8].
  cbn [foldl Arr.kernel_get]. cbn [JS.add JS.mul JS.neg JS.of_Z JS.div].
  change (Qeq_bool (inject_Z 1) 0) with false. cbv iota.
  eexists. split; [reflexivity|].
  rewrite !Qred_correct.
  change (inject_Z 0) with 0%Q. change (inject_Z 1) with 1%Q.
  change (inject_Z 8) with 8%Q. change (inject_Z 100) with 100%Q. field.
Qed.

Lemma blur_sum (v : Z) :
  ∃ s, (foldl (λ acc i,
          acc + Arr.kernel_get [1; 1; 1; 1; 1; 1; 1; 1; 1]%js i * JS.of_Z v)%js
          0%js (range 0 9) / 9)%js = JS.Fin s
       ∧ (s == inject_Z v)%Q.
Proof.
  change (range 0 9) with [0; 1; 2; 3; 4; 5; 6; 7; 8].
  cbn [foldl Arr.kernel_get]. cbn [JS.add JS.mul JS.neg JS.of_Z JS.div].
  change (Qeq_bool (inject_Z 9) 0) with false. cbv iota.
  eexists. split; [reflexivity|].
  rewrite !Qred_correct.
  change (inject_Z 0) with 0%Q. change (inject_Z 1) with 1%Q.
  change (inject_Z 9) with 9%Q. field.
Qed.

End FlatKernels.


Section PassFacts.

Lemma noise_passes (q : Q) (n : Z) :
  (inject_Z n * 50 - 25 <= q)%Q → (q < inject_Z n * 50 + 25)%Q →
  loop_count (JS.Math_round (JS.Fin q / 100 * 2)%js) = Some (Z.to_nat n).
Proof.
  intros Hlo Hhi.
  change (JS.Fin q / 100)%js with (JS.Fin (Qred (q / inject_Z 100))).
  unfold JS.of_Z. cbn [JS.mul]. cbn [JS.Math_round loop_count].
  rewrite Qceiling_Z. do 2 f_equal.
  apply Qfloor_unique; rewrite !Qred_correct, ?inject_Z_plus;
    change (inject_Z 100) with 100%Q; change (inject_Z 1) with 1%Q;
    (setoid_replace (q / 100 * 2)%Q with (q * (1 # 50))%Q using relation Qeq
       by field); lra.
Qed.

End PassFacts.

(** X27. How many blur passes the noise reduction makes: none for a
    value below 25, where the bitmap is handed back as it is, one from
    25 up to (but not including) 75, and two from 75 up to 125, which
    covers the slider's range. *)
Theorem applyNoiseReduction_passes (img : ImageData) (q : Q) :
  let blur := λ result, applyConvolution result [1; 1; 1; 1; 1; 1; 1; 1; 1]%js 9%js in
  ((q < 25)%Q → applyNoiseReduction img (JS.Fin q) = Some img)
  ∧ ((25 <= q)%Q → (q < 75)%Q → applyNoiseReduction img (JS.Fin q) = Some (blur img))
  ∧ ((75 <= q)%Q → (q < 125)%Q →
       applyNoiseReduction img (JS.Fin q) = Some (blur (blur img))).
Proof.
  intros blur. unfold applyNoiseReduction. cbn [JS.le JS.of_Z].
  change (inject_Z 0) with 0%Q.
  split; [|split].
  - intros Hq. destruct (Qle_bool q 0) eqn:E; [done|].
    assert (¬ (q <= 0)%Q) by (rewrite <- Qle_bool_iff; congruence).
    by rewrite (noise_passes q 0) by (change (inject_Z 0) with 0%Q; lra).
  - intros Hlo Hhi. destruct (Qle_bool q 0) eqn:E; [apply Qle_bool_iff in E; lra|].
    by rewrite (noise_passes q 1) by (change (inject_Z 1) with 1%Q; lra).
  - intros Hlo Hhi. destruct (Qle_bool q 0) eqn:E; [apply Qle_bool_iff in E; lra|].
    by rewrite (noise_passes q 2) by (change (inject_Z 2) with 2%Q; lra).
Qed.

Lemma applyNoiseReduction_passes_witness :
  applyNoiseReduction test_image 24%js = Some test_image
  ∧ applyNoiseReduction test_image 50%js
    = Some (applyConvolution test_image [1; 1; 1; 1; 1; 1; 1; 1; 1]%js 9%js).
Proof.
  destruct (applyNoiseReduction_passes test_image 24) as (H0 & _).
  destruct (applyNoiseReduction_passes test_image 50) as (_ & H1 & _).
  split; [apply H0 | apply H1]; done.
Defined.
Section DesaturateFacts.

Lemma level_lt (a b : Z) : (level a < level b)%Q ↔ a < b.
Proof.
  unfold level. rewrite !Qred_correct, Zlt_Qlt. unfold Qdiv.
  change (/ inject_Z 255)%Q with (1 # 255)%Q. split; intros; lra.
Qed.

Lemma Math_max_level (a b : Z) :
  JS.Math_max (JS.Fin (level a)) (JS.Fin (level b)) = JS.Fin (level (Z.max a b)).
Proof.
  rewrite Math_max_fin. destruct (Qlt_bool_spec (level a) (level b)) as [H|H].
  - apply (proj1 (level_lt a b)) in H. by rewrite Z.max_r by lia.
  - assert (¬ a < b) by (intros ?; apply H; by apply level_lt).
    by rewrite Z.max_l by lia.
Qed.

Lemma Math_min_level (a b : Z) :
  JS.Math_min (JS.Fin (level a)) (JS.Fin (level b)) = JS.Fin (level (Z.min a b)).
Proof.
  rewrite Math_min_fin. destruct (Qlt_bool_spec (level b) (level a)) as [H|H].
  - apply (proj1 (level_lt b a)) in H. by rewrite Z.min_r by lia.
  - assert (¬ b < a) by (intros ?; apply H; by apply level_lt).
    by rewrite Z.min_l by lia.
Qed.

(** For bytes, [rgbToHsl] gives a finite saturation and the lightness
    half way between the largest and the smallest channel. *)
Lemma rgbToHsl_finite (r g b : Z) :
  0 ≤ r ≤ 255 → 0 ≤ g ≤ 255 → 0 ≤ b ≤ 255 →
  ∃ h s l,
    rgbToHsl (JS.of_Z r) (JS.of_Z g) (JS.of_Z b) = (h, JS.Fin s, JS.Fin l)
    ∧ (l * 510 == inject_Z (Z.max (Z.max r g) b + Z.min (Z.min r g) b))%Q.
Proof.
  intros Hr Hg Hb. unfold rgbToHsl.
  change (JS.of_Z ?v / 255)%js with (JS.Fin (level v)).
  rewrite !Math_max_level, !Math_min_level.
  set (M := Z.max (Z.max r g) b). set (m := Z.min (Z.min r g) b).
  assert (0 ≤ m ≤ M ∧ M ≤ 255) as HM by lia. clearbody M m.
  assert (Hl : (Qred (Qred (level M + level m) / inject_Z 2) * 510
                == inject_Z (M + m))%Q).
  { unfold level. rewrite !Qred_correct, inject_Z_plus. change (inject_Z 255) with 255%Q.
    change (inject_Z 2) with 2%Q. field. }
  cbn [JS.eqb]. destruct (Qeq_bool _ _) eqn:E; cbn [negb].
  { cbn [JS.add JS.div]. change (Qeq_bool (inject_Z 2) 0) with false. cbv iota.
    eexists _, _, _. split; [reflexivity|]. apply Hl. }
  assert (m < M) as Hlt.
  { apply Qeq_bool_neq in E. destruct (decide (m = M)) as [->|]; [|lia].
    exfalso. by apply E. }
  cbn [JS.add JS.sub JS.neg JS.div JS.gt JS.lt JS.half JS.of_Z].
  change (Qeq_bool 2 0) with false. cbv iota.
  assert (Qeq_bool (Qred (Qred (2 + Qred (- level M)) + Qred (- level m)))%Q 0
          = false) as ->.
  { destruct (Qeq_bool _ 0) eqn:E2; [|done]. exfalso.
    apply Qeq_bool_iff in E2. unfold level in E2. rewrite !Qred_correct in E2.
    unfold Qdiv in E2. change (/ inject_Z 255)%Q with (1 # 255)%Q in E2.
    assert (inject_Z m < inject_Z M)%Q by (by rewrite <- Zlt_Qlt).
    assert (inject_Z M <= inject_Z 255)%Q by (rewrite <- Zle_Qle; lia).
    change (inject_Z 255) with 255%Q in *. lra. }
  assert (Qeq_bool (Qred (level M + level m))%Q 0 = false) as ->.
  { destruct (Qeq_bool _ 0) eqn:E2; [|done]. exfalso.
    apply Qeq_bool_iff in E2. unfold level in E2. rewrite !Qred_correct in E2.
    unfold Qdiv in E2. change (/ inject_Z 255)%Q with (1 # 255)%Q in E2.
    assert (inject_Z m < inject_Z M)%Q by (by rewrite <- Zlt_Qlt).
    assert (inject_Z 0 <= inject_Z m)%Q by (rewrite <- Zle_Qle; lia).
    change (inject_Z 0) with 0%Q in *. lra. }
  destruct (JS.Qlt_bool (1 # 2) _); eexists _, _, _; (split; [reflexivity | apply Hl]).
Qed.

End DesaturateFacts.
Section DesaturateMore.

Lemma no_saturation (s : Q) :
  JS.Math_min 1 (JS.Math_max 0 (JS.Fin s * (0 / 100)))%js = 0%js.
Proof.
  change (0 / 100)%js with (JS.Fin 0). cbn [JS.mul].
  rewrite (Qred_complete (s * 0) 0) by ring. reflexivity.
Qed.

Lemma half_up (t : Z) (x : Q) :
  (x * 2 == inject_Z t)%Q → Qfloor (x + (1 # 2)) = (t + 1) `div` 2.
Proof.
  intros Hx.
  pose proof (Z.div_mod (t + 1) 2 ltac:(lia)) as Hdm.
  pose proof (Z.mod_pos_bound (t + 1) 2 ltac:(lia)) as Hr.
  set (n := (t + 1) `div` 2) in *. set (rr := (t + 1) `mod` 2) in *.
  assert (inject_Z t + 1 == 2 * inject_Z n + inject_Z rr)%Q as Ht.
  { change 1%Q with (inject_Z 1). change 2%Q with (inject_Z 2).
    rewrite <- inject_Z_plus, <- inject_Z_mult, <- inject_Z_plus. by rewrite Hdm. }
  assert (0 <= inject_Z rr)%Q by (change 0%Q with (inject_Z 0); rewrite <- Zle_Qle; lia).
  assert (inject_Z rr <= 1)%Q by (change 1%Q with (inject_Z 1); rewrite <- Zle_Qle; lia).
  apply Qfloor_unique; rewrite ?inject_Z_plus; change (inject_Z 1) with 1%Q; lra.
Qed.

Lemma hslToRgb_unsaturated (h : JS.number) (l : Q) (t : Z) :
  (l * 510 == inject_Z t)%Q →
  hslToRgb h 0%js (JS.Fin l)
  = (JS.of_Z ((t + 1) `div` 2), JS.of_Z ((t + 1) `div` 2), JS.of_Z ((t + 1) `div` 2)).
Proof.
  intros Hl. unfold hslToRgb. cbn [JS.eqb JS.mul JS.Math_round JS.of_Z].
  change (Qeq_bool (inject_Z 0) (inject_Z 0)) with true. cbv iota.
  rewrite (half_up t); [done|].
  rewrite Qred_correct. rewrite <- Hl. change (inject_Z 255) with 255%Q. ring.
Qed.

End DesaturateMore.

(** X28. Saturation 0 turns the picture grey: the three colour channels
    of a pixel become one and the same value, its lightness, which is
    the mean of its largest and its smallest channel rounded to a whole
    number. *)
Theorem applySaturation_zero_grey (img : ImageData) (k r g b : Z) :
  wf_image img → byte_image img → 0 ≤ k < width img * height img →
  Arr.lookup (data img) (4 * k) = Some r →
  Arr.lookup (data img) (4 * k + 1) = Some g →
  Arr.lookup (data img) (4 * k + 2) = Some b →
  ∃ grey,
    (∀ c, 0 ≤ c < 3 →
       Arr.lookup (data (applySaturation img 0%js)) (4 * k + c) = Some grey)
    ∧ Z.max (Z.max r g) b + Z.min (Z.min r g) b - 1 ≤ 2 * grey
    ∧ 2 * grey ≤ Z.max (Z.max r g) b + Z.min (Z.min r g) b + 1.
Proof.
  intros Hwf Hb Hk Hr Hg Hbl.
  set (t := Z.max (Z.max r g) b + Z.min (Z.min r g) b).
  exists ((t + 1) `div` 2). split.
  - intros c Hc.
    rewrite applySaturation_lookup by (done || lia).
    rewrite (Arr_get_lookup _ _ _ Hr), (Arr_get_lookup _ _ _ Hg),
      (Arr_get_lookup _ _ _ Hbl).
    pose proof (byte_lookup _ _ _ Hb Hr). pose proof (byte_lookup _ _ _ Hb Hg).
    pose proof (byte_lookup _ _ _ Hb Hbl).
    destruct (rgbToHsl_finite r g b) as (h & s & l & -> & Hl); [done..|].
    rewrite no_saturation, (hslToRgb_unsaturated h l _ Hl).
    f_equal. fold t.
    assert (0 ≤ (t + 1) `div` 2) by (apply Z.div_pos; lia).
    assert ((t + 1) `div` 2 < 256) by (apply Z.div_lt_upper_bound; lia).
    assert (c = 0 ∨ c = 1 ∨ c = 2) as [-> | [-> | ->]] by lia;
      repeat (rewrite decide_False by lia); rewrite ?decide_True by lia;
      apply ToUint8Clamp_byte; lia.
  - pose proof (Z.div_mod (t + 1) 2 ltac:(lia)).
    pose proof (Z.mod_pos_bound (t + 1) 2 ltac:(lia)). lia.
Qed.

Lemma applySaturation_zero_grey_witness :
  wf_image test_image ∧ byte_image test_image
  ∧ ∃ grey,
      Arr.lookup (data (applySaturation test_image 0%js)) (4 * 1 + 0) = Some grey
      ∧ Arr.lookup (data (applySaturation test_image 0%js)) (4 * 1 + 2) = Some grey
      ∧ 209 ≤ 2 * grey ≤ 211.
Proof.
  assert (Hwf : wf_image test_image) by (repeat split; cbn; lia).
  assert (Hb : byte_image test_image) by (repeat constructor; lia).
  split; [exact Hwf|]. split; [exact Hb|].
  destruct (applySaturation_zero_grey test_image 1 10 200 30 Hwf Hb)
    as (grey & Hgrey & Hlo & Hhi); [cbn; lia | reflexivity..|].
  exists grey. split; [apply Hgrey; lia|]. split; [apply Hgrey; lia|].
  cbn in Hlo, Hhi. lia.
Defined.
(* ===================================================================== *)
(** ** More on the canvas operations *)
(* ===================================================================== *)

Section CropCopy.
Import Canvas.

Variable rasterize :
  bool → Quality → list Xform → ImageData →
  JS.number → JS.number → JS.number → JS.number →
  JS.number → JS.number → JS.number → JS.number →
  ImageData → Z → Z → Z → Z.

Lemma pixel_blank (w h X Y c : Z) : pixel (blank w h) X Y c = 0.
Proof. unfold blank. rewrite pixel_render. by case_decide. Qed.

Lemma pixel_outside (img : ImageData) (X Y c : Z) :
  ¬ (0 ≤ X < width img ∧ 0 ≤ Y < height img) → pixel img X Y c = 0.
Proof. intros H. unfold pixel. rewrite decide_False; [done|]. tauto. Qed.

Lemma Math_round_fin (q : Q) : JS.Math_round (JS.Fin q) = JS.of_Z (Qfloor (q + (1 # 2))).
Proof. reflexivity. Qed.

(** The crop stage copies the rectangle, rounded to whole pixels, pixel
    by pixel; what lies outside the source stays transparent. *)
Lemma Crop_stage_copy (img : ImageData) (qx qy qw qh : Q) :
  0 ≤ Qfloor (qw + (1 # 2)) → 0 ≤ Qfloor (qh + (1 # 2)) →
  Crop_stage rasterize img {| x := JS.Fin qx; y := JS.Fin qy; w := JS.Fin qw; h := JS.Fin qh |}
  = {| width := Qfloor (qw + (1 # 2)); height := Qfloor (qh + (1 # 2));
       data := render (Qfloor (qw + (1 # 2))) (Qfloor (qh + (1 # 2)))
                 (λ X Y c, pixel img (Qfloor (qx + (1 # 2)) + X)
                                     (Qfloor (qy + (1 # 2)) + Y) c) |}.
Proof.
  intros Hw Hh. unfold Crop_stage. cbn [x y w h].
  rewrite !Math_round_fin, !to_dimension_of_Z by done.
  unfold draw. cbn [forallb finite JS.of_Z negb andb transform bitmap fresh blank
                    width height grid_transform foldl].
  change 0%js with (JS.of_Z 0). fold (JS.of_Z (Qfloor (qw + (1 # 2)))).
  fold (JS.of_Z (Qfloor (qh + (1 # 2)))). fold (JS.of_Z (Qfloor (qx + (1 # 2)))).
  fold (JS.of_Z (Qfloor (qy + (1 # 2)))).
  rewrite !int_of_of_Z. rewrite decide_True by lia.
  f_equal. apply render_ext; [done|]. intros X Y c HX HY Hc.
  unfold user_pixel. cbn [identity ma mb mc md me mf].
  replace (((1 * 1 - 0 * 0) * (1 * (2 * X + 1 - 2 * 0) - 0 * (2 * Y + 1 - 2 * 0))) `div` 2)
    with X by (apply (Z.div_unique _ 2 X 1); lia).
  replace (((1 * 1 - 0 * 0) * (1 * (2 * Y + 1 - 2 * 0) - 0 * (2 * X + 1 - 2 * 0))) `div` 2)
    with Y by (apply (Z.div_unique _ 2 Y 1); lia).
  rewrite !Z.sub_0_r.
  case_decide as Hin; [done|].
  fold (blank (Qfloor (qw + (1 # 2))) (Qfloor (qh + (1 # 2)))).
  rewrite pixel_blank. symmetry. apply pixel_outside. lia.
Qed.

End CropCopy.
Section RoundFacts.

Lemma round_nonneg (q : Q) : (JS.Fin q <? 4)%js = false → 4 ≤ Qfloor (q + (1 # 2)).
Proof.
  intros H. cbn in H. apply Qlt_bool_false_iff in H.
  change 4 with (Qfloor (inject_Z 4)). apply Qfloor_resp_le.
  change (inject_Z 4) with 4%Q in *. lra.
Qed.

Lemma accepted_positive (v : JS.number) :
  JS.is_finite v → (v <? 4)%js = false → (v >? 0)%js = true.
Proof.
  destruct v as [q| | |]; try done. intros _ H. cbn in *.
  apply Qlt_bool_false_iff in H. apply Qlt_bool_iff.
  change (inject_Z 4) with 4%Q in *. change (inject_Z 0) with 0%Q. lra.
Qed.

End RoundFacts.





Section TurnFacts.
Import Canvas.

Lemma quarter_turn_back (img : ImageData) (clockwise : bool) :
  wf_image img →
  quarter_turn (quarter_turn img clockwise) (negb clockwise) = img.
Proof.
  intros Hwf. pose proof Hwf as (Hw & Hh & Hlen).
  destruct img as [w h d]. cbn [width height data] in *.
  unfold quarter_turn at 1. cbn [width height quarter_turn].
  f_equal.
  etransitivity; [|exact (render_pixel {| width := w; height := h; data := d |} Hwf)].
  cbn [width height].
  apply render_ext; [done|]. intros X Y ch HX HY Hch.
  destruct clockwise; cbn [negb]; rewrite !pixel_quarter_turn;
    cbn [width height quarter_turn].
  - by replace (h - 1 - (h - 1 - Y)) with Y by lia.
  - by replace (w - 1 - (w - 1 - X)) with X by lia.
Qed.

Lemma quarter_turn_twice (img : ImageData) (clockwise : bool) :
  wf_image img →
  quarter_turn (quarter_turn img clockwise) clockwise
  = {| width := width img; height := height img;
       data := render (width img) (height img)
                 (λ X Y c, pixel img (width img - 1 - X) (height img - 1 - Y) c) |}.
Proof.
  intros (Hw & Hh & Hlen).
  unfold quarter_turn at 1. cbn [width height quarter_turn].
  f_equal. apply render_ext; [done|]. intros X Y ch HX HY Hch.
  destruct clockwise; rewrite !pixel_quarter_turn; cbn [width height quarter_turn];
    reflexivity.
Qed.

End TurnFacts.

(** X21. The two directions of [rotate90] undo each other: a turn
    followed by the opposite turn gives a canvas with the bitmap one
    started from. *)
Theorem rotate90_inverse rasterize (σ : Canvas.Store) (canvas : Canvas.Handle)
    (cv : Canvas.Canvas) (clockwise : bool) :
  σ !! canvas = Some cv → wf_image (Canvas.bitmap cv) →
  ∃ out σ2 cv2,
    (c1 ← rotate90 rasterize canvas clockwise;
     rotate90 rasterize c1 (negb clockwise)) σ = Some (out, σ2)
    ∧ σ2 !! out = Some cv2
    ∧ Canvas.bitmap cv2 = Canvas.bitmap cv
    ∧ σ2 !! canvas = Some cv.
Proof.
  intros Hc Hwf.
  destruct (rotate90_run rasterize σ canvas cv clockwise Hc Hwf) as (o1 & Hr1 & Hb1).
  assert (H1 : (σ ++ [o1]) !! length σ = Some o1) by apply list_lookup_middle, eq_refl.
  assert (Hwf1 : wf_image (Canvas.bitmap o1)) by (rewrite Hb1; by apply wf_quarter_turn).
  destruct (rotate90_run rasterize _ _ _ (negb clockwise) H1 Hwf1) as (o2 & Hr2 & Hb2).
  eexists _, _, o2. split; [erewrite bind_Some by exact Hr1; exact Hr2|].
  split; [apply list_lookup_middle, eq_refl|].
  split; [rewrite Hb2, Hb1; by apply quarter_turn_back|].
  rewrite <- !app_assoc. apply lookup_app_l_Some, Hc.
Qed.

Lemma rotate90_inverse_witness :
  ∃ out σ2 cv2,
    (c1 ← rotate90 no_rasterizer 0%nat false;
     rotate90 no_rasterizer c1 true) test_store = Some (out, σ2)
    ∧ σ2 !! out = Some cv2
    ∧ Canvas.bitmap cv2 = test_image.
Proof.
  destruct (rotate90_inverse no_rasterizer test_store 0%nat
              {| Canvas.bitmap := test_image; Canvas.transform := [];
                 Canvas.imageSmoothingEnabled := true;
                 Canvas.imageSmoothingQuality := Canvas.low |} false eq_refl)
    as (out & σ2 & cv2 & Hrun & Hl & Hb & _).
  - repeat split; cbn; lia.
  - by exists out, σ2, cv2.
Defined.

(** X22. Two turns of [rotate90] in the same direction are a half turn:
    the dimensions are those of the source and pixel [(X, Y)] is pixel
    [(w - 1 - X, h - 1 - Y)] of the source, whichever the direction. *)
Theorem rotate90_twice rasterize (σ : Canvas.Store) (canvas : Canvas.Handle)
    (cv : Canvas.Canvas) (clockwise : bool) :
  σ !! canvas = Some cv → wf_image (Canvas.bitmap cv) →
  ∃ out σ2 cv2,
    (c1 ← rotate90 rasterize canvas clockwise;
     rotate90 rasterize c1 clockwise) σ = Some (out, σ2)
    ∧ σ2 !! out = Some cv2
    ∧ Canvas.bitmap cv2
      = {| width := width (Canvas.bitmap cv); height := height (Canvas.bitmap cv);
           data := Canvas.render (width (Canvas.bitmap cv)) (height (Canvas.bitmap cv))
                     (λ X Y c, Canvas.pixel (Canvas.bitmap cv)
                                 (width (Canvas.bitmap cv) - 1 - X)
                                 (height (Canvas.bitmap cv) - 1 - Y) c) |}.
Proof.
  intros Hc Hwf.
  destruct (rotate90_run rasterize σ canvas cv clockwise Hc Hwf) as (o1 & Hr1 & Hb1).
  assert (H1 : (σ ++ [o1]) !! length σ = Some o1) by apply list_lookup_middle, eq_refl.
  assert (Hwf1 : wf_image (Canvas.bitmap o1)) by (rewrite Hb1; by apply wf_quarter_turn).
  destruct (rotate90_run rasterize _ _ _ clockwise H1 Hwf1) as (o2 & Hr2 & Hb2).
  eexists _, _, o2. split; [erewrite bind_Some by exact Hr1; exact Hr2|].
  split; [apply list_lookup_middle, eq_refl|].
  rewrite Hb2, Hb1. by apply quarter_turn_twice.
Qed.

Lemma rotate90_twice_witness :
  ∃ out σ2 cv2,
    (c1 ← rotate90 no_rasterizer 0%nat true;
     rotate90 no_rasterizer c1 true) test_store = Some (out, σ2)
    ∧ σ2 !! out = Some cv2
    ∧ data (Canvas.bitmap cv2)
      = [90; 90; 90; 255;   0; 0; 255; 128;
         10; 200; 30; 255;  255; 0; 0; 255].
Proof.
  destruct (rotate90_twice no_rasterizer test_store 0%nat
              {| Canvas.bitmap := test_image; Canvas.transform := [];
                 Canvas.imageSmoothingEnabled := true;
                 Canvas.imageSmoothingQuality := Canvas.low |} true eq_refl)
    as (out & σ2 & cv2 & Hrun & Hl & Hb).
  - repeat split; cbn; lia.
  - exists out, σ2, cv2. split; [exact Hrun|]. split; [exact Hl|]. by rewrite Hb.
Defined.
(* ===================================================================== *)
(** ** More on the crop selection and the controls *)
(* ===================================================================== *)

(** X23. A click is not a selection: pointer down and up without a move
    in between, right after the crop tool was activated, leaves nothing
    that [confirmCrop] would accept; it answers null and changes
    nothing, and the tool stays active. *)
Theorem click_without_drag_rejected (dw dh nw nh : JS.number) (e : Crop.PointerEvent)
    (s : Crop.State) :
  let s' := Crop.handleMouseUp
              (Crop.handleMouseDown dw dh nw nh e (Crop.activateCrop s)) in
  Crop.confirmCrop s' = (None, s')
  ∧ Crop.isActive s' = true
  ∧ Crop.isDragging s' = false.
Proof.
  unfold Crop.handleMouseDown, Crop.activateCrop. cbn.
  destruct (Crop.overlayRef s) as [el|]; [|done].
  destruct (Crop.getRelativePos dw dh e el) as [pos|]; done.
Qed.

Section DisplayFacts.
Import Crop.

Lemma scale_positive (dw nw : Q) :
  (0 <= dw)%Q → (0 < nw)%Q →
  ∃ k, scaleX (JS.Fin dw) (JS.Fin nw) = JS.Fin k ∧ (0 < k)%Q.
Proof.
  intros Hdw Hnw. unfold scaleX, JS.or, JS.truthy.
  destruct (Qeq_bool dw 0) eqn:E; cbn [negb].
  - eexists. split; [reflexivity|].
    rewrite Qred_correct. change (inject_Z 1) with 1%Q.
    unfold Qdiv. change (/ 1)%Q with 1%Q. lra.
  - unfold JS.div. rewrite E. apply Qeq_bool_neq in E.
    eexists. split; [reflexivity|]. rewrite Qred_correct.
    assert (0 < dw)%Q by (apply Qle_lt_or_eq in Hdw as [?|Heq]; [done|by rewrite Heq in E]).
    apply Qlt_shift_div_l; [done|]. lra.
Qed.

(** Scaling a length up and down again gives it back. *)
Lemma scale_there_and_back (v k : Q) :
  (0 < k)%Q →
  ∃ r, (JS.Fin v * JS.Fin k / JS.Fin k)%js = JS.Fin r ∧ (r == v)%Q.
Proof.
  intros Hk. cbn [JS.mul JS.div].
  destruct (Qeq_bool k 0) eqn:E; [apply Qeq_bool_iff in E; lra|].
  eexists. split; [reflexivity|]. rewrite !Qred_correct. field. lra.
Qed.

Lemma Math_min_either (a b : Q) :
  ∃ m, JS.Math_min (JS.Fin a) (JS.Fin b) = JS.Fin m
       ∧ (m <= a)%Q ∧ (m <= b)%Q ∧ (m = a ∨ m = b).
Proof.
  rewrite Math_min_fin. destruct (Qlt_bool_spec b a) as [H|H];
    (eexists; split; [reflexivity|]); [|apply Qnot_lt_le in H]; repeat split;
    try lra; tauto.
Qed.

Lemma Math_abs_distance (a b : Q) :
  ∃ d, JS.Math_abs (JS.Fin a - JS.Fin b) = JS.Fin d
       ∧ (0 <= d)%Q ∧ (d == a - b ∨ d == b - a)%Q.
Proof.
  unfold JS.sub, JS.neg, JS.add, JS.Math_abs.
  destruct (Qlt_bool_spec (Qred (a + Qred (- b))) 0) as [H|H];
    (eexists; split; [reflexivity|]); rewrite !Qred_correct in *.
  - split; [lra|]. right. ring.
  - apply Qnot_lt_le in H. split; [lra|]. left. ring.
Qed.

End DisplayFacts.


Section SymmetryFacts.
Import Crop.

Lemma scale_finite (dw nw : Q) : ∃ k, scaleX (JS.Fin dw) (JS.Fin nw) = JS.Fin k.
Proof.
  unfold scaleX, JS.or, JS.truthy.
  destruct (Qeq_bool dw 0) eqn:E; cbn [negb]; [by eexists|].
  unfold JS.div. rewrite E. by eexists.
Qed.

Lemma scaled_min_comm (a b k : Q) :
  (JS.Math_min (JS.Fin a) (JS.Fin b) * JS.Fin k
   = JS.Math_min (JS.Fin b) (JS.Fin a) * JS.Fin k)%js.
Proof.
  rewrite !Math_min_fin. cbn [JS.mul]. f_equal. apply Qred_complete.
  destruct (Qlt_bool_spec b a) as [H1|H1], (Qlt_bool_spec a b) as [H2|H2];
    try reflexivity; [lra|].
  apply Qnot_lt_le in H1, H2. assert (a == b)%Q as -> by lra. reflexivity.
Qed.

Lemma scaled_abs_comm (a b k : Q) :
  (JS.Math_abs (JS.Fin a - JS.Fin b) * JS.Fin k
   = JS.Math_abs (JS.Fin b - JS.Fin a) * JS.Fin k)%js.
Proof.
  destruct (Math_abs_distance a b) as (d1 & -> & H1 & E1).
  destruct (Math_abs_distance b a) as (d2 & -> & H2 & E2).
  cbn [JS.mul]. f_equal. apply Qred_complete.
  assert (d1 == d2)%Q as -> by (destruct E1 as [E1|E1], E2 as [E2|E2]; lra).
  reflexivity.
Qed.

End SymmetryFacts.

(** X25. The direction of a drag does not matter: dragging from a point A
    to a point B stores the same rect as dragging from B to A. *)
Theorem drag_direction_irrelevant (dw dh nw nh xa ya xb yb : Q)
    (el : Crop.HTMLElement) (eA eB : Crop.PointerEvent) (s1 s2 : Crop.State) :
  Crop.getRelativePos (JS.Fin dw) (JS.Fin dh) eA el
    = Some (Crop.mkPos (JS.Fin xa) (JS.Fin ya)) →
  Crop.getRelativePos (JS.Fin dw) (JS.Fin dh) eB el
    = Some (Crop.mkPos (JS.Fin xb) (JS.Fin yb)) →
  Crop.isDragging s1 = true → Crop.overlayRef s1 = Some el →
  Crop.startRef s1 = Some (Crop.mkPos (JS.Fin xa) (JS.Fin ya)) →
  Crop.isDragging s2 = true → Crop.overlayRef s2 = Some el →
  Crop.startRef s2 = Some (Crop.mkPos (JS.Fin xb) (JS.Fin yb)) →
  Crop.rect (Crop.handleMouseMove (JS.Fin dw) (JS.Fin dh) (JS.Fin nw) (JS.Fin nh) eB s1)
  = Crop.rect (Crop.handleMouseMove (JS.Fin dw) (JS.Fin dh) (JS.Fin nw) (JS.Fin nh) eA s2).
Proof.
  intros HA HB Hd1 Ho1 Hs1 Hd2 Ho2 Hs2.
  unfold Crop.handleMouseMove. rewrite Hd1, Hs1, Ho1, HB, Hd2, Hs2, Ho2, HA.
  cbn [Crop.rect Crop.pos_x Crop.pos_y].
  destruct (scale_finite dw nw) as [kx ->].
  change (Crop.scaleY (JS.Fin dh) (JS.Fin nh)) with (Crop.scaleX (JS.Fin dh) (JS.Fin nh)).
  destruct (scale_finite dh nh) as [ky ->].
  f_equal. f_equal; [apply scaled_min_comm | apply scaled_min_comm
                    | apply scaled_abs_comm | apply scaled_abs_comm].
Qed.

Lemma drag_direction_irrelevant_witness :
  let el := Crop.mkElement 0%js 0%js in
  let s a := {| Crop.isActive := true; Crop.rect := None; Crop.isDragging := true;
                Crop.startRef := Some (Crop.mkPos a a);
                Crop.overlayRef := Some el |} in
  Crop.rect (Crop.handleMouseMove 100%js 100%js 200%js 200%js
               (Crop.MouseEvent 2%js 2%js) (s 10%js))
  = Crop.rect (Crop.handleMouseMove 100%js 100%js 200%js 200%js
                 (Crop.MouseEvent 10%js 10%js) (s 2%js)).
Proof.
  intros el s.
  exact (drag_direction_irrelevant 100 100 200 200 10 10 2 2 el
           (Crop.MouseEvent 10%js 10%js) (Crop.MouseEvent 2%js 2%js) (s 10%js) (s 2%js)
           eq_refl eq_refl eq_refl eq_refl eq_refl eq_refl eq_refl eq_refl).
Defined.

(** X26. The control surface keeps the enhancement values within their
    ranges: starting from values in range, after any sequence of slider
    events whose emitted values lie between [min] and [max], and of
    resets, every field is within its declared range. *)
Theorem controls_keep_ranges (events : list ControlEvent) (ed : Editor) :
  Controls.in_range (values ed) = true →
  Forall from_slider events →
  Controls.in_range (values (foldl control ed events)) = true.
Proof.
  intros Hin Hev. revert ed Hin.
  induction Hev as [|ev events Hev _ IH]; intros ed Hin; [done|].
  cbn [foldl]. apply IH. destruct ev as [key v|]; [|reflexivity].
  cbn [control values]. apply in_range_spec. intros key'.
  destruct (decide (key = key')) as [<-|Hne].
  - by rewrite get_set_same.
  - rewrite get_set_other by done. by apply in_range_spec.
Qed.

Lemma controls_keep_ranges_witness :
  Controls.in_range
    (values (foldl control test_editor
               [Slide Controls.Brightness 100%js; Slide Controls.Rotation (-45)%js;
                ResetAll; Slide Controls.Saturation 200%js])) = true.
Proof.
  apply controls_keep_ranges; [reflexivity|].
  repeat constructor.
Defined.
